(** * Topological sorting of a citation graph: Kahn, DFS and BFS sorters

    A shallow embedding of [src/algorithms/kahn.py], [src/algorithms/dfs.py]
    and [src/algorithms/bfs.py], together with the order validator
    [validate_topological_order], and the properties the specification
    states about them.

    Python values are modelled as follows.
    - [str] is [string]; [int] is [Z]; [float] is the binary64 [float].
    - A [dict] is an association list in insertion order (Python dicts
      iterate in insertion order, and the sorters depend on it).  Assigning
      to an existing key keeps the key's place, assigning to a new key
      appends it.  A well-formed dict has no repeated key ([dict_wf]).
    - A [set] is a [ListSet.set string].
    - A [deque] used as a FIFO queue is a list: [popleft] takes the head,
      [append] adds at the end.
    - A raised exception is the [Raise] outcome.  The [while] loops take a
      fuel argument, and the Kahn and BFS sorters are shown never to
      exhaust it.
    - The recursion of the DFS sorter is bounded as the interpreter bounds
      it: [dfs] takes the number of frames the recursion limit still
      leaves, and a call made with none left raises [RecursionError]. *)

From Stdlib Require Import String Ascii DecimalString Floats.
From Stdlib Require Import ZArith Lia Bool Arith List ListSet Relations Permutation.
Import ListNotations.

Open Scope string_scope.
Open Scope Z_scope.
Open Scope list_scope.

(** ** Python dictionaries *)

Section Dict.
Context {V : Type}.

Definition dict := list (string * V).

(** [list(d.keys())], also the order of [for k in d]. *)
Definition dict_keys (d : dict) : list string := map fst d.

(** [d.get(k)] *)
Fixpoint dict_get (d : dict) (k : string) : option V :=
  match d with
  | [] => None
  | (k', v) :: d' => if String.eqb k' k then Some v else dict_get d' k
  end.

(** [d.get(k, default)] *)
Definition dict_get_default (d : dict) (k : string) (default : V) : V :=
  match dict_get d k with
  | Some v => v
  | None => default
  end.

(** [d[k] = v] *)
Fixpoint dict_set (d : dict) (k : string) (v : V) : dict :=
  match d with
  | [] => [(k, v)]
  | (k', v') :: d' =>
      if String.eqb k' k then (k', v) :: d' else (k', v') :: dict_set d' k v
  end.

(** [k in d] *)
Definition dict_mem (d : dict) (k : string) : bool :=
  match dict_get d k with
  | Some _ => true
  | None => false
  end.

(** A Python dict holds each key once. *)
Definition dict_wf (d : dict) : Prop := NoDup (dict_keys d).
End Dict.

Arguments dict V : clear implicits.

(** ** Values, exceptions and outcomes *)

(** The values stored in a metrics record. *)
Inductive pyval : Type :=
| PyFloat (x : float)
| PyInt (n : Z).

(** The pieces of a formatted message (an f-string).  The [repr] of a set
    lists its elements in an order that Python does not fix, so a set stays
    a set in the message instead of being rendered. *)
Inductive fragment : Type :=
| Lit (s : string)
| NodeSet (s : set string).

Inductive exn : Type :=
| ValueError (msg : list fragment)
| KeyError (key : string)
| IndexError
| RecursionError.

Inductive outcome (A : Type) : Type :=
| Return (a : A)
| Raise (e : exn)
| OutOfFuel.

Arguments Return {A} a.
Arguments Raise {A} e.
Arguments OutOfFuel {A}.

Definition bind {A B : Type} (m : outcome A) (k : A -> outcome B) : outcome B :=
  match m with
  | Return a => k a
  | Raise e => Raise e
  | OutOfFuel => OutOfFuel
  end.

Notation "x <- m ;; k" := (bind m (fun x => k))
  (at level 61, m at next level, right associativity).

(** [str(n)] for an [int]. *)
Definition str_of_int (n : Z) : string := NilZero.string_of_int (Z.to_int n).

(** ** Graphs *)

Definition graph := dict (list string).

(** The edges of the graph in the order the loops
    [for node in graph: for neighbor in graph[node]] meet them. *)
Definition edges (g : graph) : list (string * string) :=
  flat_map (fun '(node, nbrs) => map (pair node) nbrs) g.

(** Every node id the graph mentions: its keys and the successors listed. *)
Definition referenced (g : graph) : list string :=
  dict_keys g ++ concat (map snd g).

(** ** The order validator ([validate_topological_order], kahn.py) *)

(** [enumerate(order)] *)
Fixpoint enumerate_from (i : Z) (order : list string) : list (Z * string) :=
  match order with
  | [] => []
  | node :: rest => (i, node) :: enumerate_from (i + 1) rest
  end.

Definition enumerate (order : list string) : list (Z * string) :=
  enumerate_from 0 order.

(** [position = {node: idx for idx, node in enumerate(order)}] *)
Definition position_table (order : list string) : dict Z :=
  fold_left (fun position '(idx, node) => dict_set position node idx)
            (enumerate order) [].

Definition invalid_message (node : string) (pn : Z) (neighbor : string) (pb : Z)
  : string :=
  ("Invalid order: " ++ node ++ " (position " ++ str_of_int pn
    ++ ") should come before " ++ neighbor ++ " (position " ++ str_of_int pb
    ++ ")")%string.

(** The inner loop [for neighbor in graph[node]]; [Some r] is an early
    [return r].  [position[node]] is looked up before [position[neighbor]]. *)
Fixpoint validate_neighbors (position : dict Z) (node : string)
  (nbrs : list string) : outcome (option (bool * string)) :=
  match nbrs with
  | [] => Return None
  | neighbor :: rest =>
      match dict_get position node with
      | None => Raise (KeyError node)
      | Some pn =>
          match dict_get position neighbor with
          | None => Raise (KeyError neighbor)
          | Some pb =>
              if pn >=? pb
              then Return (Some (false, invalid_message node pn neighbor pb))
              else validate_neighbors position node rest
          end
      end
  end.

(** The outer loop [for node in graph], [graph[node]] being the adjacency
    list of the entry the loop is at. *)
Fixpoint validate_nodes (position : dict Z) (g : graph)
  : outcome (bool * string) :=
  match g with
  | [] => Return (true, "Valid topological order")
  | (node, nbrs) :: rest =>
      r <- validate_neighbors position node nbrs ;;
      match r with
      | Some early => Return early
      | None => validate_nodes position rest
      end
  end.

Definition validate_topological_order (g : graph) (order : list string)
  : outcome (bool * string) :=
  match order with
  | [] => Return (true, "Empty order is valid for empty graph")
  | _ => validate_nodes (position_table order) g
  end.

(** ** The in-degree table shared by the Kahn and BFS sorters *)

(** [for node in graph: in_degree[node] = 0] *)
Definition init_in_degree (g : graph) : dict Z :=
  fold_left (fun in_degree node => dict_set in_degree node 0) (dict_keys g) [].

(** [in_degree[neighbor] = in_degree.get(neighbor, 0) + 1; edge_count += 1] *)
Definition count_edge (st : dict Z * Z) (neighbor : string) : dict Z * Z :=
  let '(in_degree, edge_count) := st in
  (dict_set in_degree neighbor (dict_get_default in_degree neighbor 0 + 1),
   edge_count + 1).

(** [for node in graph: for neighbor in graph[node]: ...], from
    [edge_count = 0].  A dict holds each key once, so the two loops meet
    every entry of the graph once, with its own adjacency list. *)
Definition count_in_degrees (g : graph) (in_degree : dict Z) : dict Z * Z :=
  fold_left (fun st '(_, nbrs) => fold_left count_edge nbrs st) g (in_degree, 0).

(** [[node for node in in_degree if in_degree[node] == 0]] *)
Definition zero_in_degree (in_degree : dict Z) : list string :=
  map fst (filter (fun '(_, d) => d =? 0) in_degree).

(** The loop over the successors of the dequeued node:
    [in_degree[neighbor] -= 1], then [queue.append(neighbor)] when the
    count reached 0. *)
Fixpoint relax (nbrs : list string) (in_degree : dict Z) (queue : list string)
  : outcome (dict Z * list string) :=
  match nbrs with
  | [] => Return (in_degree, queue)
  | neighbor :: rest =>
      match dict_get in_degree neighbor with
      | None => Raise (KeyError neighbor)
      | Some d =>
          relax rest (dict_set in_degree neighbor (d - 1))
                (if d - 1 =? 0 then queue ++ [neighbor] else queue)
      end
  end.

(** ** The Kahn sorter ([topological_sort_kahn], kahn.py) *)

Record kahn_state : Type := mk_kahn {
  k_in_degree : dict Z;
  k_queue : list string;
  k_result : list string;
  k_processed_nodes : Z
}.

(** [while queue: ...] *)
Fixpoint kahn_loop (fuel : nat) (g : graph) (st : kahn_state)
  : outcome kahn_state :=
  match k_queue st with
  | [] => Return st
  | current :: queue =>
      match fuel with
      | O => OutOfFuel
      | S fuel' =>
          r <- relax (dict_get_default g current []) (k_in_degree st) queue ;;
          kahn_loop fuel' g
            (mk_kahn (fst r) (snd r) (k_result st ++ [current])
                     (k_processed_nodes st + 1))
      end
  end.

(** The state on entry to the [while] loop and the edge count. *)
Definition kahn_init (g : graph) : kahn_state * Z :=
  let '(in_degree, edge_count) := count_in_degrees g (init_in_degree g) in
  (mk_kahn in_degree (zero_in_degree in_degree) [] 0, edge_count).

Definition len {A : Type} (l : list A) : Z := Z.of_nat (length l).

(** [(end_time - start_time) * 1000] *)
Definition elapsed_ms (start_time end_time : float) : float :=
  PrimFloat.mul (PrimFloat.sub end_time start_time) 1000%float.

Definition kahn_cycle_error (remaining : set string) : exn :=
  ValueError [Lit "Graph contains cycle involving nodes: "; NodeSet remaining].

(** The sorter; [start_time] and [end_time] are the two readings of
    [time.perf_counter()]. *)
Definition topological_sort_kahn_fuel (fuel : nat) (start_time end_time : float)
  (g : graph) : outcome (list string * dict pyval) :=
  match g with
  | [] =>
      Return ([], [("execution_time_ms", PyFloat 0%float);
                   ("vertices", PyInt 0);
                   ("edges", PyInt 0);
                   ("theoretical_operations", PyInt 0);
                   ("actual_operations", PyInt 0);
                   ("space_complexity", PyInt 0)])
  | _ =>
      let '(st0, edge_count) := kahn_init g in
      st <- kahn_loop fuel g st0 ;;
      if negb (len (k_result st) =? len (k_in_degree st))
      then
        Raise (kahn_cycle_error
                 (set_diff string_dec (dict_keys (k_in_degree st)) (k_result st)))
      else
        let V := len g in
        let E := edge_count in
        let actual_operations := V + E in
        Return (k_result st,
                [("execution_time_ms", PyFloat (elapsed_ms start_time end_time));
                 ("vertices", PyInt V);
                 ("edges", PyInt E);
                 ("theoretical_operations", PyInt (V + E));
                 ("actual_operations", PyInt actual_operations);
                 ("space_complexity", PyInt V)])
  end.

(** Every pass of the loop dequeues a node and no node is enqueued twice,
    so as many passes as the table has entries are enough
    ([kahn_loop_terminates]). *)
Definition kahn_fuel (g : graph) : nat :=
  S (length (k_in_degree (fst (kahn_init g)))).

Definition topological_sort_kahn (start_time end_time : float) (g : graph)
  : outcome (list string * dict pyval) :=
  topological_sort_kahn_fuel (kahn_fuel g) start_time end_time g.

(** ** The BFS sorter ([topological_sort_bfs], bfs.py) *)

Record bfs_state : Type := mk_bfs {
  b_in_degree : dict Z;
  b_queue : list string;
  b_result : list string;
  b_levels : dict Z;
  b_current_level : Z;
  b_processed_nodes : Z;
  b_max_queue_size : Z
}.

(** [for _ in range(level_size): current = queue.popleft(); ...] *)
Fixpoint bfs_level (level_size : nat) (g : graph) (st : bfs_state)
  : outcome bfs_state :=
  match level_size with
  | O => Return st
  | S n =>
      match b_queue st with
      | [] => Raise IndexError
      | current :: queue =>
          r <- relax (dict_get_default g current []) (b_in_degree st) queue ;;
          bfs_level n g
            (mk_bfs (fst r) (snd r) (b_result st ++ [current])
                    (dict_set (b_levels st) current (b_current_level st))
                    (b_current_level st) (b_processed_nodes st + 1)
                    (b_max_queue_size st))
      end
  end.

(** [while queue: ...] *)
Fixpoint bfs_loop (fuel : nat) (g : graph) (st : bfs_state)
  : outcome bfs_state :=
  match b_queue st with
  | [] => Return st
  | _ :: _ =>
      match fuel with
      | O => OutOfFuel
      | S fuel' =>
          let level_size := length (b_queue st) in
          let max_queue_size := Z.max (b_max_queue_size st) (len (b_queue st)) in
          st' <- bfs_level level_size g
                   (mk_bfs (b_in_degree st) (b_queue st) (b_result st)
                           (b_levels st) (b_current_level st)
                           (b_processed_nodes st) max_queue_size) ;;
          bfs_loop fuel' g
            (mk_bfs (b_in_degree st') (b_queue st') (b_result st')
                    (b_levels st') (b_current_level st' + 1)
                    (b_processed_nodes st') (b_max_queue_size st'))
      end
  end.

(** The state on entry to the [while] loop and the edge count. *)
Definition bfs_init (g : graph) : bfs_state * Z :=
  let '(in_degree, edge_count) := count_in_degrees g (init_in_degree g) in
  let queue := zero_in_degree in_degree in
  (mk_bfs in_degree queue [] (map (fun '(node, _) => (node, 0)) in_degree)
          0 0 (len queue),
   edge_count).

Definition bfs_cycle_error : exn :=
  ValueError [Lit "Graph contains a cycle - topological sort impossible"].

Definition topological_sort_bfs_fuel (fuel : nat) (start_time end_time : float)
  (g : graph) : outcome (list string * dict Z * dict pyval) :=
  match g with
  | [] => Return ([], [], [])
  | _ =>
      let '(st0, edge_count) := bfs_init g in
      st <- bfs_loop fuel g st0 ;;
      if negb (len (b_result st) =? len (b_in_degree st))
      then Raise bfs_cycle_error
      else
        let V := len g in
        let E := edge_count in
        let actual_operations := V + E in
        Return (b_result st, b_levels st,
                [("execution_time_ms", PyFloat (elapsed_ms start_time end_time));
                 ("vertices", PyInt V);
                 ("edges", PyInt E);
                 ("theoretical_operations", PyInt (V + E));
                 ("actual_operations", PyInt actual_operations);
                 ("space_complexity", PyInt V);
                 ("max_level", PyInt (b_current_level st - 1));
                 ("max_queue_size", PyInt (b_max_queue_size st))])
  end.

(** Every batch dequeues at least one node ([bfs_loop_terminates]). *)
Definition bfs_fuel (g : graph) : nat :=
  S (length (b_in_degree (fst (bfs_init g)))).

Definition topological_sort_bfs (start_time end_time : float) (g : graph)
  : outcome (list string * dict Z * dict pyval) :=
  topological_sort_bfs_fuel (bfs_fuel g) start_time end_time g.

(** ** The DFS sorter ([topological_sort_dfs], dfs.py) *)

Record dfs_state : Type := mk_dfs {
  d_visited : set string;
  d_recursion_stack : set string;
  d_result_stack : list string;
  d_operations : Z;
  d_edge_count : Z
}.

Definition dfs_cycle_error (node : string) : exn :=
  ValueError [Lit "Cycle detected involving node: "; Lit node].

(** [for neighbor in graph.get(node, []): edge_count += 1; dfs(neighbor)],
    with [rec] the recursive call. *)
Fixpoint dfs_neighbors (rec : string -> dfs_state -> outcome dfs_state)
  (nbrs : list string) (st : dfs_state) : outcome dfs_state :=
  match nbrs with
  | [] => Return st
  | neighbor :: rest =>
      st' <- rec neighbor
               (mk_dfs (d_visited st) (d_recursion_stack st) (d_result_stack st)
                       (d_operations st) (d_edge_count st + 1)) ;;
      dfs_neighbors rec rest st'
  end.

(** The nested function [dfs(node)].  Every call takes a frame of the
    interpreter's stack and keeps it while it visits the successors;
    [limit] is the number of frames the interpreter's recursion limit
    still leaves.  A call made when none is left raises [RecursionError]
    before its body runs. *)
Fixpoint dfs (limit : nat) (g : graph) (node : string) (st : dfs_state)
  : outcome dfs_state :=
  match limit with
  | O => Raise RecursionError
  | S limit' =>
      if set_mem string_dec node (d_recursion_stack st)
      then Raise (dfs_cycle_error node)
      else if set_mem string_dec node (d_visited st)
      then Return st
      else
        st' <- dfs_neighbors (dfs limit' g) (dict_get_default g node [])
                 (mk_dfs (set_add string_dec node (d_visited st))
                         (set_add string_dec node (d_recursion_stack st))
                         (d_result_stack st) (d_operations st + 1)
                         (d_edge_count st)) ;;
        if set_mem string_dec node (d_recursion_stack st')
        then
          Return (mk_dfs (d_visited st')
                         (set_remove string_dec node (d_recursion_stack st'))
                         (d_result_stack st' ++ [node]) (d_operations st' + 1)
                         (d_edge_count st'))
        else Raise (KeyError node)
  end.

(** [for node in list(graph.keys()): if node not in visited: dfs(node)] *)
Fixpoint dfs_roots (limit : nat) (g : graph) (roots : list string)
  (st : dfs_state) : outcome dfs_state :=
  match roots with
  | [] => Return st
  | node :: rest =>
      if set_mem string_dec node (d_visited st)
      then dfs_roots limit g rest st
      else st' <- dfs limit g node st ;; dfs_roots limit g rest st'
  end.

Definition dfs_init : dfs_state := mk_dfs [] [] [] 0 0.

(** [topological_sort_dfs], run where the recursion limit leaves [limit]
    frames for the calls of [dfs] ([sys.getrecursionlimit()], 1000 unless
    it was changed, less the frames in use when [dfs] is first called). *)
Definition topological_sort_dfs (limit : nat) (start_time end_time : float)
  (g : graph) : outcome (list string * dict pyval) :=
  match g with
  | [] =>
      Return ([], [("execution_time_ms", PyFloat 0%float);
                   ("vertices", PyInt 0);
                   ("edges", PyInt 0);
                   ("theoretical_operations", PyInt 0);
                   ("actual_operations", PyInt 0);
                   ("space_complexity", PyInt 0);
                   ("recursion_depth", PyInt 0)])
  | _ =>
      st <- dfs_roots limit g (dict_keys g) dfs_init ;;
      let result := rev (d_result_stack st) in
      let V := len g in
      let E := d_edge_count st in
      let actual_operations := d_operations st in
      Return (result,
              [("execution_time_ms", PyFloat (elapsed_ms start_time end_time));
               ("vertices", PyInt V);
               ("edges", PyInt E);
               ("theoretical_operations", PyInt (V + E));
               ("actual_operations", PyInt actual_operations);
               ("space_complexity", PyInt V);
               ("recursion_depth", PyInt (len (d_recursion_stack st)))])
  end.

(** [render msg] is the text of a message whose pieces are all text. *)
Fixpoint render (msg : list fragment) : option string :=
  match msg with
  | [] => Some EmptyString
  | Lit s :: rest => option_map (String.append s) (render rest)
  | NodeSet _ :: _ => None
  end.

Definition diamond : graph :=
  [("A", ["B"; "C"]); ("B", ["D"]); ("C", ["D"]); ("D", [])].
Definition cycle3 : graph := [("A", ["B"]); ("B", ["C"]); ("C", ["A"])].
Definition self_loop : graph := [("A", ["A"])].

(** The chain [n0 -> n1 -> ... ] of [k] nodes, the last one without
    successor. *)
Definition chain_node (i : nat) : string :=
  ("n" ++ str_of_int (Z.of_nat i))%string.

Definition chain (k : nat) : graph :=
  map (fun i => (chain_node i,
                 if (S i <? k)%nat then [chain_node (S i)] else []))
      (seq 0 k).

(** ** Specification vocabulary *)

(** The validator's check fails on the edge [u -> v]. *)
Definition violation (position : dict Z) (u v : string) : Prop :=
  exists pu pv,
    dict_get position u = Some pu /\ dict_get position v = Some pv /\ pu >= pv.

(** [x] occurs in [order], the last time at index [p].  The position
    table keeps one index per node, a later one replacing an earlier one,
    so this is what [position[x]] should be. *)
Definition last_position (order : list string) (x : string) (p : Z) : Prop :=
  exists before after,
    order = before ++ x :: after /\ ~ In x after /\ p = len before.

(** The validator's check passes on the edge [u -> v]. *)
Definition edge_ok (position : dict Z) (u v : string) : Prop :=
  exists pu pv,
    dict_get position u = Some pu /\ dict_get position v = Some pv /\ pu < pv.

(** The validator's two nested loops as one scan of the edge list, [k]
    being what follows the scan. *)
Fixpoint scan_edges (position : dict Z) (es : list (string * string))
  (k : outcome (bool * string)) : outcome (bool * string) :=
  match es with
  | [] => k
  | (node, neighbor) :: rest =>
      match dict_get position node with
      | None => Raise (KeyError node)
      | Some pn =>
          match dict_get position neighbor with
          | None => Raise (KeyError neighbor)
          | Some pb =>
              if pn >=? pb
              then Return (false, invalid_message node pn neighbor pb)
              else scan_edges position rest k
          end
      end
  end.

(** The number of times [v] occurs in [l]. *)
Definition cnt (v : string) (l : list string) : Z :=
  Z.of_nat (count_occ string_dec l v).

(** What the [while] loops of the Kahn and BFS sorters share: the in-degree
    table, the queue and the result. *)
Definition core : Type := dict Z * list string * list string.

Definition kahn_core (st : kahn_state) : core :=
  (k_in_degree st, k_queue st, k_result st).

Definition bfs_core (st : bfs_state) : core :=
  (b_in_degree st, b_queue st, b_result st).

(** The successors listed by every entry of the graph have an entry in the
    in-degree table. *)
Definition covers (g : graph) (d : dict Z) : Prop :=
  forall u nbrs v, In (u, nbrs) g -> In v nbrs -> In v (dict_keys d).

(** No node is queued or dequeued twice, and a node that was queued has no
    positive count left. *)
Definition queue_inv (g : graph) (c : core) : Prop :=
  let '(d, q, r) := c in
  covers g d /\ NoDup (r ++ q) /\ incl (r ++ q) (dict_keys d) /\
  forall x, In x (r ++ q) -> exists n, dict_get d x = Some n /\ n <= 0.

(** The successors listed in the graph, one per edge. *)
Definition targets (g : graph) : list string := concat (map snd g).

(** Dequeue the head of the queue, append it to the result and run the
    successor loop. *)
Inductive step (g : graph) : core -> core -> Prop :=
| step_intro d current q r d' q' :
    relax (dict_get_default g current []) d q = Return (d', q') ->
    step g (d, current :: q, r) (d', q', r ++ [current]).

(** [edge g u v]: the adjacency list of [u] holds [v]. *)
Definition edge (g : graph) (u v : string) : Prop := In (u, v) (edges g).

(** No node reaches itself along one or more edges. *)
Definition acyclic (g : graph) : Prop :=
  forall x, ~ clos_trans string (edge g) x x.

(** The number of edges into [v] from nodes outside [done]. *)
Fixpoint remaining (g : graph) (done : list string) (v : string) : Z :=
  match g with
  | [] => 0
  | (u, nbrs) :: g' =>
      (if in_dec string_dec u done then 0 else cnt v nbrs) + remaining g' done v
  end.

(** [u] occurs before [v] in [order]. *)
Definition precedes (order : list string) (u v : string) : Prop :=
  exists l1 l2 l3, order = l1 ++ u :: l2 ++ v :: l3.

(** The counts of the in-degree table are the in-degrees left once the
    dequeued nodes are taken out, a node whose count is 0 is queued or
    dequeued, and a dequeued node comes after its predecessors. *)
Definition topo_inv (g : graph) (c : core) : Prop :=
  let '(d, q, r) := c in
  (forall v, In v (dict_keys d) -> dict_get d v = Some (remaining g r v)) /\
  (forall v, In v (dict_keys d) -> remaining g r v = 0 -> In v (r ++ q)) /\
  (forall u v, edge g u v -> In v r -> precedes r u v).

(** What holds of the table, the queue and the result throughout the loop
    of the Kahn sorter and of the BFS sorter. *)
Definition loop_inv (g : graph) (c : core) : Prop :=
  queue_inv g c /\
  dict_keys (fst (fst c))
  = dict_keys (fst (count_in_degrees g (init_in_degree g))) /\
  (dict_wf g -> topo_inv g c).

(** What holds of the sets and of the result stack between two calls of
    [dfs]: a visited node is on the recursion stack or finished, never both,
    and a finished node comes after all its successors. *)
Definition dfs_inv (g : graph) (st : dfs_state) : Prop :=
  NoDup (d_result_stack st) /\
  NoDup (d_recursion_stack st) /\
  (forall x, In x (d_visited st) <->
             In x (d_recursion_stack st) \/ In x (d_result_stack st)) /\
  (forall x, In x (d_recursion_stack st) -> ~ In x (d_result_stack st)) /\
  (forall u v, edge g u v -> In u (d_result_stack st) ->
               precedes (d_result_stack st) v u) /\
  (forall x, In x (d_visited st) -> In x (referenced g)).

(** The number of node ids of the graph that are not visited yet. *)
Definition unvisited (g : graph) (st : dfs_state) : nat :=
  length (filter (fun x => negb (set_mem string_dec x (d_visited st)))
                 (nodup string_dec (referenced g))).

(** [n] lies on a cycle of the graph. *)
Definition on_cycle (g : graph) (n : string) : Prop :=
  clos_trans string (edge g) n n.

(** The number of distinct node ids the graph mentions. *)
Definition node_count (g : graph) : nat :=
  length (nodup string_dec (referenced g)).

(** The state in which [dfs(node)], called in state [st], starts the loop
    over the successors of [node]. *)
Definition dfs_entered (node : string) (st : dfs_state) : dfs_state :=
  mk_dfs (set_add string_dec node (d_visited st))
         (set_add string_dec node (d_recursion_stack st))
         (d_result_stack st) (d_operations st + 1) (d_edge_count st).

(** [edge_count += 1], which comes before the call on a successor. *)
Definition dfs_counting (st : dfs_state) : dfs_state :=
  mk_dfs (d_visited st) (d_recursion_stack st) (d_result_stack st)
         (d_operations st) (d_edge_count st + 1).

(** [calls g limit node st path limit' node' st']: the call [dfs(node)],
    made in state [st] with [limit] frames left, is [dfs(node')] in state
    [st'] itself, or it makes that call through nested calls; [path] lists
    the nodes of the calls that are in progress when [dfs(node')] is
    called, outermost first.  A call that is not on the recursion stack
    nor visited enters its node and goes through the successors; it makes
    the call on the successor [nb] once the loop has returned from the
    calls on the successors [before] it. *)
Inductive calls (g : graph)
  : nat -> string -> dfs_state -> list string ->
    nat -> string -> dfs_state -> Prop :=
| calls_here limit node st : calls g limit node st [] limit node st
| calls_below limit node st before nb after st_b path limit' node' st' :
    ~ In node (d_recursion_stack st) ->
    ~ In node (d_visited st) ->
    dict_get_default g node [] = before ++ nb :: after ->
    dfs_neighbors (dfs limit g) before (dfs_entered node st) = Return st_b ->
    calls g limit nb (dfs_counting st_b) path limit' node' st' ->
    calls g (S limit) node st (node :: path) limit' node' st'.

(** The loop over the keys of the graph calls [dfs(root)] in state [st0]:
    it has returned from the keys before [root], and [root] is not
    visited. *)
Definition root_call (g : graph) (limit : nat) (root : string)
  (st0 : dfs_state) : Prop :=
  exists before after,
    dict_keys g = before ++ root :: after /\
    dfs_roots limit g before dfs_init = Return st0 /\
    ~ In root (d_visited st0).

(** The first successor each node of [path] lists is the next node of
    [path]: [dfs] called on the first node goes down [path] before it does
    anything else. *)
Fixpoint descends (g : graph) (path : list string) : bool :=
  match path with
  | u :: rest =>
      match rest with
      | v :: _ =>
          match dict_get_default g u [] with
          | w :: _ => String.eqb w v
          | [] => false
          end && descends g rest
      | [] => true
      end
  | [] => true
  end.

(** No node occurs twice in [l]. *)
Fixpoint distinct (l : list string) : bool :=
  match l with
  | [] => true
  | x :: rest => negb (existsb (String.eqb x) rest) && distinct rest
  end.

(** What a run of the traversal from state [st] that ends in [r] has done,
    [done] being the nodes it was asked to finish.  The run can raise
    [RecursionError] only when [shallow] holds. *)
Definition dfs_post (g : graph) (shallow : Prop) (done : list string)
  (st : dfs_state) (r : outcome dfs_state) : Prop :=
  match r with
  | Return st' =>
      dfs_inv g st' /\
      d_recursion_stack st' = d_recursion_stack st /\
      (forall x, In x done -> In x (d_result_stack st')) /\
      (exists suffix, d_result_stack st' = d_result_stack st ++ suffix) /\
      (forall x, In x (d_visited st) -> In x (d_visited st'))
  | Raise e =>
      (exists n, e = dfs_cycle_error n /\ on_cycle g n) \/
      (e = RecursionError /\ shallow)
  | OutOfFuel => False
  end.

(** The contract of a call [rec node st] made with [bound] frames left:
    it can raise [RecursionError] only when as many nodes are still
    unvisited. *)
Definition dfs_contract (g : graph) (bound : nat)
  (rec : string -> dfs_state -> outcome dfs_state) : Prop :=
  forall node st,
    dfs_inv g st -> In node (referenced g) ->
    (forall r, In r (d_recursion_stack st) ->
               clos_trans string (edge g) r node) ->
    dfs_post g (bound <= unvisited g st)%nat [node] st (rec node st).

(** The message of the error holds the set of nodes [s]. *)
Definition carries_nodes (e : exn) (s : set string) : Prop :=
  match e with
  | ValueError msg => In (NodeSet s) msg
  | _ => False
  end.

(** The fields every metrics record has. *)
Definition core_fields : list string :=
  ["execution_time_ms"; "vertices"; "edges"; "theoretical_operations";
   "actual_operations"; "space_complexity"].

(** Two metrics records have the same fields and agree on each of them
    but the elapsed time. *)
Definition same_untimed (m m' : dict pyval) : Prop :=
  dict_keys m = dict_keys m' /\
  forall field, field <> "execution_time_ms"%string ->
                dict_get m field = dict_get m' field.

(** Two calls ended alike: both raised the same error, or both returned
    values related by [R]. *)
Definition same_outcome {A : Type} (R : A -> A -> Prop) (x y : outcome A)
  : Prop :=
  match x, y with
  | Return a, Return b => R a b
  | Raise e, Raise e' => e = e'
  | OutOfFuel, OutOfFuel => True
  | _, _ => False
  end.

(** The successor loops of the nodes of [batch], run in turn from the table
    [d]: the table they leave and, after [acc], the nodes they enqueue. *)
Fixpoint batch_relax (g : graph) (batch : list string) (d : dict Z)
  (acc : list string) : outcome (dict Z * list string) :=
  match batch with
  | [] => Return (d, acc)
  | current :: rest =>
      r <- relax (dict_get_default g current []) d acc ;;
      batch_relax g rest (fst r) (snd r)
  end.

(** One pass of the [while] loop of the BFS sorter: one batch. *)
Definition bfs_batch (g : graph) (st : bfs_state) : outcome bfs_state :=
  st' <- bfs_level (length (b_queue st)) g
           (mk_bfs (b_in_degree st) (b_queue st) (b_result st)
                   (b_levels st) (b_current_level st)
                   (b_processed_nodes st)
                   (Z.max (b_max_queue_size st) (len (b_queue st)))) ;;
  Return (mk_bfs (b_in_degree st') (b_queue st') (b_result st')
                 (b_levels st') (b_current_level st' + 1)
                 (b_processed_nodes st') (b_max_queue_size st')).

(** The queue at the start of each pass of the [while] loop: batch 0,
    batch 1, ... *)
Fixpoint bfs_batches (fuel : nat) (g : graph) (st : bfs_state)
  : list (list string) :=
  match b_queue st with
  | [] => []
  | _ :: _ =>
      match fuel with
      | O => []
      | S fuel' =>
          match bfs_batch g st with
          | Return st' => b_queue st :: bfs_batches fuel' g st'
          | _ => []
          end
      end
  end.

(** ** Counting the edges the DFS sorter follows *)

(** The number of successors [u] lists. *)
Definition out_degree (g : graph) (u : string) : Z :=
  len (dict_get_default g u []).

(** The successors listed by the nodes of [l], in all. *)
Definition out_degrees (g : graph) (l : list string) : Z :=
  fold_right (fun u acc => out_degree g u + acc) 0 l.

(** What a run of the traversal from [st] to [st'] adds to the counters:
    two operations per node it finishes, and the edges out of those nodes
    besides the [entered] edges it was asked to follow. *)
Definition dfs_counted (g : graph) (entered : Z) (st st' : dfs_state) : Prop :=
  exists suffix,
    d_result_stack st' = d_result_stack st ++ suffix /\
    d_operations st' = d_operations st + 2 * len suffix /\
    d_edge_count st' = d_edge_count st + entered + out_degrees g suffix.

(** ** The sources of a graph *)

(** The keys of the graph that no adjacency list holds, in key order. *)
Definition sources (g : graph) : list string :=
  filter (fun k => if in_dec string_dec k (targets g) then false else true)
         (dict_keys g).

(** ** [analyze_dependency_levels] (bfs.py) *)

(** The dict [level_groups], whose keys are levels: an association list in
    insertion order, as [dict] is for string keys. *)
Definition groups : Type := list (Z * list string).

(** [level_groups.get(level)] *)
Fixpoint groups_get (lg : groups) (level : Z) : option (list string) :=
  match lg with
  | [] => None
  | (l, members) :: lg' => if l =? level then Some members else groups_get lg' level
  end.

(** [level_groups[level] = members] *)
Fixpoint groups_set (lg : groups) (level : Z) (members : list string) : groups :=
  match lg with
  | [] => [(level, members)]
  | (l, old) :: lg' =>
      if l =? level then (l, members) :: lg'
      else (l, old) :: groups_set lg' level members
  end.

(** The body of the loop: [if level not in level_groups:
    level_groups[level] = []], then [level_groups[level].append(node)]. *)
Definition group_node (lg : groups) (item : string * Z) : outcome groups :=
  let '(node, level) := item in
  let lg1 :=
    match groups_get lg level with
    | Some _ => lg
    | None => groups_set lg level []
    end in
  match groups_get lg1 level with
  | Some members => Return (groups_set lg1 level (members ++ [node]))
  | None => Raise (KeyError (str_of_int level))
  end.

(** [for node, level in levels.items(): ...] *)
Fixpoint analyze_loop (items : list (string * Z)) (lg : groups)
  : outcome groups :=
  match items with
  | [] => Return lg
  | item :: rest => lg' <- group_node lg item ;; analyze_loop rest lg'
  end.

Definition analyze_dependency_levels (levels : dict Z) : outcome groups :=
  analyze_loop levels [].

(** The nodes that [levels] gives level [k], in the order of [levels]. *)
Definition members_at (levels : dict Z) (k : Z) : list string :=
  map fst (filter (fun '(_, l) => l =? k) levels).

(** The levels of [l] in the order in which they first occur. *)
Fixpoint first_seen (l : list Z) : list Z :=
  match l with
  | [] => []
  | x :: rest => x :: filter (fun y => negb (y =? x)) (first_seen rest)
  end.

(** ** [run_all_algorithms] (main.py) *)

(** An entry of the [results] dict: the record of a run that went through,
    [{'result', 'metrics', 'levels' (BFS only), 'valid', 'message'}], or
    the record the [except] clause writes,
    [{'result': None, 'metrics': {}, 'valid': False, 'error': str(e)}],
    the exception standing for its text. *)
Inductive run_record : Type :=
| Ran (result : list string) (metrics : dict pyval) (levels : option (dict Z))
      (valid : bool) (message : string)
| Errored (error : exn).

(** [data['valid']] *)
Definition entry_valid (r : run_record) : bool :=
  match r with
  | Ran _ _ _ valid _ => valid
  | Errored _ => false
  end.

(** [try: body except Exception as e: handler(e)] *)
Definition try_except {A : Type} (body : outcome A) (handler : exn -> outcome A)
  : outcome A :=
  match body with
  | Return a => Return a
  | Raise e => handler e
  | OutOfFuel => OutOfFuel
  end.

(** The two [print] calls that close the [try] block.  What is printed is
    not modelled; the lookup [metrics['execution_time_ms']] that the first
    one makes is. *)
Definition report (is_valid : bool) (metrics : dict pyval) : outcome unit :=
  if is_valid
  then match dict_get metrics "execution_time_ms" with
       | Some _ => Return tt
       | None => Raise (KeyError "execution_time_ms")
       end
  else Return tt.

(** One pass of the loop over the algorithms, [run] being the call
    [algorithm(self.graph)] with its values unpacked. *)
Definition run_algorithm (g : graph) (name : string)
  (run : outcome (list string * option (dict Z) * dict pyval))
  (results : dict run_record) : outcome (dict run_record) :=
  try_except
    (r <- run ;;
     v <- validate_topological_order g (fst (fst r)) ;;
     _ <- report (fst v) (snd r) ;;
     Return (dict_set results name
               (Ran (fst (fst r)) (snd r) (snd (fst r)) (fst v) (snd v))))
    (fun e => Return (dict_set results name (Errored e))).

(** The readings of [time.perf_counter()] the three sorters make. *)
Record clock_readings : Type := mk_clock {
  kahn_start : float; kahn_end : float;
  dfs_start : float; dfs_end : float;
  bfs_start : float; bfs_end : float
}.

(** [run_all_algorithms], [g] being [self.graph]: the loop over
    [{'Kahn': ..., 'DFS': ..., 'BFS': ...}], unrolled.  [limit] is the
    number of frames the recursion limit leaves for the calls of [dfs];
    [except Exception] catches [RecursionError] as it does the others. *)
Definition run_all_algorithms (limit : nat) (c : clock_readings) (g : graph)
  : outcome (dict run_record) :=
  results <- run_algorithm g "Kahn"
               (r <- topological_sort_kahn (kahn_start c) (kahn_end c) g ;;
                Return (fst r, None, snd r)) [] ;;
  results <- run_algorithm g "DFS"
               (r <- topological_sort_dfs limit (dfs_start c) (dfs_end c) g ;;
                Return (fst r, None, snd r)) results ;;
  run_algorithm g "BFS"
    (r <- topological_sort_bfs (bfs_start c) (bfs_end c) g ;;
     Return (fst (fst r), Some (snd (fst r)), snd r)) results.

(* ================================================================= *)
(** * Facts about dictionaries *)

Section DictFacts.
Context {V : Type}.
Implicit Types (d : dict V) (k : string) (v : V).

Lemma dict_get_set_eq d k v : dict_get (dict_set d k v) k = Some v.
Proof.
  induction d as [|[k' v'] d IH]; simpl.
  - now rewrite String.eqb_refl.
  - destruct (String.eqb k' k) eqn:E; simpl; rewrite E; auto.
Qed.

Lemma dict_get_set_neq d k k' v :
  k <> k' -> dict_get (dict_set d k v) k' = dict_get d k'.
Proof.
  intros Hne. induction d as [|[k0 v0] d IH]; simpl.
  - apply String.eqb_neq in Hne. now rewrite Hne.
  - destruct (String.eqb k0 k) eqn:E; simpl.
    + apply String.eqb_eq in E. subst k0.
      apply String.eqb_neq in Hne. now rewrite Hne.
    + destruct (String.eqb k0 k'); auto.
Qed.

Lemma dict_get_some_in d k v : dict_get d k = Some v -> In k (dict_keys d).
Proof.
  induction d as [|[k' v'] d IH]; simpl; [discriminate|].
  destruct (String.eqb k' k) eqn:E; intros H.
  - left. now apply String.eqb_eq.
  - right. auto.
Qed.

Lemma dict_get_none_notin d k : dict_get d k = None -> ~ In k (dict_keys d).
Proof.
  induction d as [|[k' v'] d IH]; simpl; [tauto|].
  destruct (String.eqb k' k) eqn:E; intros H; [discriminate|].
  apply String.eqb_neq in E. intros [H1|H1]; [congruence|]. now apply IH.
Qed.

Lemma dict_get_in d k : In k (dict_keys d) -> exists v, dict_get d k = Some v.
Proof.
  intros Hin. destruct (dict_get d k) eqn:E; eauto.
  now apply dict_get_none_notin in E.
Qed.

Lemma dict_keys_set_in d k v :
  In k (dict_keys d) -> dict_keys (dict_set d k v) = dict_keys d.
Proof.
  induction d as [|[k' v'] d IH]; simpl; [tauto|].
  destruct (String.eqb k' k) eqn:E; simpl; auto.
  apply String.eqb_neq in E. intros [H|H]; [congruence|]. now rewrite IH.
Qed.

Lemma dict_keys_set_notin d k v :
  ~ In k (dict_keys d) -> dict_keys (dict_set d k v) = dict_keys d ++ [k].
Proof.
  induction d as [|[k' v'] d IH]; simpl; auto.
  intros Hn. destruct (String.eqb k' k) eqn:E; simpl.
  - apply String.eqb_eq in E. tauto.
  - rewrite IH; auto.
Qed.

Lemma dict_keys_set d k v :
  dict_keys (dict_set d k v)
  = if in_dec string_dec k (dict_keys d) then dict_keys d
    else dict_keys d ++ [k].
Proof.
  destruct (in_dec string_dec k (dict_keys d)).
  - now apply dict_keys_set_in.
  - now apply dict_keys_set_notin.
Qed.

Lemma dict_keys_set_iff d k v x :
  In x (dict_keys (dict_set d k v)) <-> In x (dict_keys d) \/ x = k.
Proof.
  rewrite dict_keys_set. destruct (in_dec string_dec k (dict_keys d)).
  - split; [tauto|]. intros [H|H]; subst; auto.
  - rewrite in_app_iff. simpl. intuition.
Qed.

Lemma dict_wf_set d k v : dict_wf d -> dict_wf (dict_set d k v).
Proof.
  unfold dict_wf. intros Hwf. rewrite dict_keys_set.
  destruct (in_dec string_dec k (dict_keys d)); auto.
  apply NoDup_app; auto.
  - constructor; [simpl; tauto | constructor].
  - intros x Hx [Hk|[]]. congruence.
Qed.

Lemma dict_get_default_some d k v dflt :
  dict_get d k = Some v -> dict_get_default d k dflt = v.
Proof. unfold dict_get_default. now intros ->. Qed.
End DictFacts.

(* ================================================================= *)
(** * The validator *)

Lemma position_fold_notin order : forall i acc x,
  ~ In x order ->
  dict_get (fold_left (fun position '(idx, node) => dict_set position node idx)
                      (enumerate_from i order) acc) x
  = dict_get acc x.
Proof.
  induction order as [|n order IH]; intros i acc x Hx; simpl; auto.
  rewrite IH by (simpl in Hx; tauto).
  apply dict_get_set_neq. simpl in Hx. intros ->. tauto.
Qed.

Lemma position_fold_last l1 : forall i acc x l2,
  ~ In x l2 ->
  dict_get (fold_left (fun position '(idx, node) => dict_set position node idx)
                      (enumerate_from i (l1 ++ x :: l2)) acc) x
  = Some (i + len l1).
Proof.
  unfold len.
  induction l1 as [|n l1 IH]; intros i acc x l2 Hx; simpl app.
  - cbn [enumerate_from fold_left]. rewrite position_fold_notin by assumption.
    rewrite dict_get_set_eq. f_equal. simpl. lia.
  - cbn [enumerate_from fold_left]. rewrite IH by assumption.
    f_equal. simpl length. lia.
Qed.

(** The position of a node is the index of its last occurrence. *)
Lemma position_table_last l1 x l2 :
  ~ In x l2 -> dict_get (position_table (l1 ++ x :: l2)) x = Some (len l1).
Proof.
  intros H. unfold position_table, enumerate.
  now rewrite position_fold_last.
Qed.

Lemma position_table_notin order x :
  ~ In x order -> dict_get (position_table order) x = None.
Proof.
  intros H. unfold position_table, enumerate.
  now rewrite position_fold_notin.
Qed.

Lemma in_split_last (x : string) (l : list string) :
  In x l -> exists l1 l2, l = l1 ++ x :: l2 /\ ~ In x l2.
Proof.
  induction l as [|a l IH]; simpl; [tauto|].
  intros H. destruct (in_dec string_dec x l) as [Hin|Hnin].
  - destruct (IH Hin) as (l1 & l2 & -> & Hn). exists (a :: l1), l2. auto.
  - destruct H as [->|H]; [|tauto]. exists [], l. auto.
Qed.

Lemma position_table_in order x :
  In x order <-> exists p, dict_get (position_table order) x = Some p.
Proof.
  split.
  - intros H. destruct (in_split_last _ _ H) as (l1 & l2 & -> & Hn).
    eexists. now apply position_table_last.
  - intros [p Hp]. destruct (in_dec string_dec x order); auto.
    rewrite position_table_notin in Hp by assumption. discriminate.
Qed.

Lemma validate_neighbors_scan position node nbrs k :
  (r <- validate_neighbors position node nbrs ;;
   match r with Some early => Return early | None => k end)
  = scan_edges position (map (pair node) nbrs) k.
Proof.
  induction nbrs as [|n nbrs IH]; simpl; auto.
  destruct (dict_get position node); auto.
  destruct (dict_get position n); auto.
  destruct (_ >=? _); auto.
Qed.

Lemma scan_edges_app position es1 es2 k :
  scan_edges position (es1 ++ es2) k
  = scan_edges position es1 (scan_edges position es2 k).
Proof.
  induction es1 as [|[u v] es1 IH]; simpl; auto.
  destruct (dict_get position u); auto.
  destruct (dict_get position v); auto.
  destruct (_ >=? _); auto.
Qed.

Lemma validate_nodes_scan position g :
  validate_nodes position g
  = scan_edges position (edges g) (Return (true, "Valid topological order"%string)).
Proof.
  induction g as [|[node nbrs] g IH]; simpl; auto.
  rewrite scan_edges_app, <- IH. apply validate_neighbors_scan.
Qed.

Lemma scan_edges_ok position es k :
  (forall u v, In (u, v) es -> edge_ok position u v) ->
  scan_edges position es k = k.
Proof.
  induction es as [|[u v] es IH]; simpl; auto.
  intros H. destruct (H u v) as (pu & pv & -> & -> & Hlt); auto.
  destruct (pu >=? pv) eqn:E; [lia|]. apply IH. intros; apply H; auto.
Qed.

Lemma edge_ok_or_violation position u v :
  (exists pu, dict_get position u = Some pu) ->
  (exists pv, dict_get position v = Some pv) ->
  edge_ok position u v \/ violation position u v.
Proof.
  intros [pu Hu] [pv Hv]. destruct (Z_lt_ge_dec pu pv).
  - left. exists pu, pv. auto.
  - right. exists pu, pv. auto.
Qed.

Lemma edge_ok_not_violation position u v :
  edge_ok position u v -> ~ violation position u v.
Proof.
  intros (pu & pv & Hu & Hv & Hlt) (pu' & pv' & Hu' & Hv' & Hge).
  rewrite Hu in Hu'. rewrite Hv in Hv'. injection Hu'. injection Hv'. lia.
Qed.

(** A scan over edges whose ends all have a position returns invalid with
    the message of a violated edge, or runs to the end. *)
Lemma scan_edges_total position es k :
  (forall u v, In (u, v) es ->
     (exists pu, dict_get position u = Some pu) /\
     (exists pv, dict_get position v = Some pv)) ->
  (exists u v pu pv,
      In (u, v) es /\ dict_get position u = Some pu /\
      dict_get position v = Some pv /\ pu >= pv /\
      scan_edges position es k = Return (false, invalid_message u pu v pv))
  \/ ((forall u v, In (u, v) es -> edge_ok position u v) /\
      scan_edges position es k = k).
Proof.
  induction es as [|[u v] es IH]; intros H.
  - right. split; [intros ? ? []|reflexivity].
  - destruct (H u v (or_introl eq_refl)) as [[pu Hu] [pv Hv]].
    simpl. rewrite Hu, Hv. destruct (pu >=? pv) eqn:E.
    + left. exists u, v, pu, pv. repeat split; auto; try lia; now left.
    + destruct IH as [(u' & v' & pu' & pv' & Hin & H1 & H2 & H3 & H4)|[Hok Hk]].
      * intros; apply H; now right.
      * left. exists u', v', pu', pv'. repeat split; auto; now right.
      * right. split; auto. intros a b [Heq|Hin]; auto.
        injection Heq as <- <-. exists pu, pv. repeat split; auto. lia.
Qed.

Lemma edges_in g u v :
  In (u, v) (edges g) <-> exists nbrs, In (u, nbrs) g /\ In v nbrs.
Proof.
  unfold edges. rewrite in_flat_map. split.
  - intros [[n nbrs] [Hin Hm]]. apply in_map_iff in Hm as (x & Heq & Hx).
    injection Heq as <- <-. eauto.
  - intros (nbrs & Hin & Hv). exists (u, nbrs). split; auto.
    apply in_map_iff. eauto.
Qed.

Lemma edges_referenced g u v :
  In (u, v) (edges g) -> In u (referenced g) /\ In v (referenced g).
Proof.
  intros H. apply edges_in in H as (nbrs & Hin & Hv).
  unfold referenced, dict_keys. rewrite !in_app_iff. split.
  - left. apply in_map_iff. exists (u, nbrs). auto.
  - right. apply in_concat. exists nbrs. split; auto.
    apply in_map_iff. exists (u, nbrs). auto.
Qed.

Lemma referenced_positions g order u v :
  incl (referenced g) order -> In (u, v) (edges g) ->
  (exists pu, dict_get (position_table order) u = Some pu) /\
  (exists pv, dict_get (position_table order) v = Some pv).
Proof.
  intros Hincl Hin. apply edges_referenced in Hin as [Hu Hv].
  split; apply position_table_in; apply Hincl; assumption.
Qed.

(** The position table holds, for each node of the order, the index of
    its last occurrence. *)
Lemma position_last order x p :
  dict_get (position_table order) x = Some p <-> last_position order x p.
Proof.
  split.
  - intros Hp.
    assert (Hin : In x order) by (apply position_table_in; eauto).
    destruct (in_split_last _ _ Hin) as (l1 & l2 & -> & Hn).
    rewrite (position_table_last l1 x l2 Hn) in Hp. injection Hp as <-.
    exists l1, l2. auto.
  - intros (l1 & l2 & -> & Hn & ->). now apply position_table_last.
Qed.

(** C5. Given a non-empty order that contains every node the graph
    mentions, the validator returns [(False, message)] exactly when some
    edge [node -> neighbor] is out of order, the index at which [node]
    last occurs in the order being at least the one of [neighbor]; the
    message is
    ["Invalid order: node (position i) should come before neighbor (position j)"]
    for such an edge, [i] and [j] being those indices in decimal.  It
    returns [(True, "Valid topological order")] exactly when no edge is out
    of order.  The validator is a function of its two arguments alone: it
    reads the graph and the order and writes only its own position table. *)
Theorem validate_verdict (g : graph) (order : list string) :
  order <> [] ->
  incl (referenced g) order ->
  ((exists u v pu pv,
       edge g u v /\ last_position order u pu /\ last_position order v pv /\
       pu >= pv) <->
   (exists u v pu pv,
      edge g u v /\ last_position order u pu /\ last_position order v pv /\
      pu >= pv /\
      validate_topological_order g order
      = Return (false,
                ("Invalid order: " ++ u ++ " (position "
                 ++ NilZero.string_of_int (Z.to_int pu)
                 ++ ") should come before " ++ v ++ " (position "
                 ++ NilZero.string_of_int (Z.to_int pv) ++ ")")%string)))
  /\
  (~ (exists u v pu pv,
         edge g u v /\ last_position order u pu /\ last_position order v pv /\
         pu >= pv) <->
   validate_topological_order g order
   = Return (true, "Valid topological order"%string)).
Proof.
  intros Hne Hincl.
  assert (Hv : validate_topological_order g order
               = scan_edges (position_table order) (edges g)
                   (Return (true, "Valid topological order"%string))).
  { destruct order; [congruence|]. unfold validate_topological_order.
    apply validate_nodes_scan. }
  destruct (scan_edges_total (position_table order) (edges g)
              (Return (true, "Valid topological order"%string)))
    as [(u & v & pu & pv & Hin & Hu & Hpv & Hge & Hs)|[Hok Hs]].
  { intros u v Hin. now apply referenced_positions with (g := g). }
  - (* some edge is out of order *)
    apply position_last in Hu. apply position_last in Hpv.
    assert (Hex : exists u v pu pv,
               edge g u v /\ last_position order u pu /\
               last_position order v pv /\ pu >= pv).
    { exists u, v, pu, pv. auto. }
    split; split.
    + intros _. exists u, v, pu, pv. rewrite Hv, Hs.
      split; [exact Hin|]. split; [exact Hu|]. split; [exact Hpv|].
      split; [exact Hge|reflexivity].
    + intros _. exact Hex.
    + intros Hn. contradiction.
    + rewrite Hv, Hs. discriminate.
  - (* every edge passes *)
    assert (Hnex : ~ exists u v pu pv,
               edge g u v /\ last_position order u pu /\
               last_position order v pv /\ pu >= pv).
    { intros (u & v & pu & pv & Hin & Hu & Hpv & Hge).
      apply position_last in Hu. apply position_last in Hpv.
      apply (edge_ok_not_violation _ _ _ (Hok u v Hin)).
      exists pu, pv. auto. }
    split; split.
    + intros Hex. contradiction.
    + intros (u & v & pu & pv & Hin & Hu & Hpv & Hge & Hr).
      exfalso. apply Hnex. exists u, v, pu, pv. auto.
    + intros _. now rewrite Hv, Hs.
    + intros _. exact Hnex.
Qed.

Lemma validate_verdict_witness :
  let g : graph := [("A", ["B"])] in
  let order := ["B"; "A"] in
  order <> [] /\ incl (referenced g) order /\
  (exists u v pu pv,
      edge g u v /\ last_position order u pu /\ last_position order v pv /\
      pu >= pv /\
      validate_topological_order g order
      = Return (false,
                ("Invalid order: " ++ u ++ " (position "
                 ++ NilZero.string_of_int (Z.to_int pu)
                 ++ ") should come before " ++ v ++ " (position "
                 ++ NilZero.string_of_int (Z.to_int pv) ++ ")")%string)) /\
  validate_topological_order g order
  = Return (false,
            "Invalid order: A (position 1) should come before B (position 0)"%string).
Proof.
  intros g order.
  assert (H1 : order <> []) by discriminate.
  assert (H2 : incl (referenced g) order).
  { intros x Hx. simpl in Hx. simpl. tauto. }
  split; [exact H1|]. split; [exact H2|]. split; [|reflexivity].
  apply (proj1 (proj1 (validate_verdict g order H1 H2))).
  exists "A"%string, "B"%string, 1, 0.
  split; [now left|]. split; [|split; [|lia]].
  - exists ["B"], []. split; [reflexivity|]. split; [intros []|reflexivity].
  - exists [], ["A"]. split; [reflexivity|]. split; [|reflexivity].
    intros [H|[]]. discriminate.
Defined.

(** C9. When the order is non-empty and the scan reaches an edge whose
    neighbor does not occur in the order (every edge before it passes the
    check), the validator raises a lookup error instead of returning false:
    [KeyError] on the edge's node when that is missing too, as
    [position[node]] is read first, and on the neighbor otherwise.  When
    every node the graph mentions occurs in the order, the validator returns
    and never raises. *)
Theorem validate_lookup_error (g : graph) (order : list string) :
  (forall es1 u v es2,
      order <> [] ->
      edges g = es1 ++ (u, v) :: es2 ->
      (forall a b, In (a, b) es1 -> edge_ok (position_table order) a b) ->
      ~ In v order ->
      validate_topological_order g order
      = Raise (KeyError (if in_dec string_dec u order then v else u)))
  /\
  (incl (referenced g) order ->
   exists verdict, validate_topological_order g order = Return verdict).
Proof.
  split.
  - intros es1 u v es2 Hne Hedges Hok Hv.
    destruct order as [|o order']; [congruence|].
    unfold validate_topological_order.
    rewrite validate_nodes_scan, Hedges, scan_edges_app, scan_edges_ok by exact Hok.
    simpl scan_edges.
    destruct (in_dec string_dec u (o :: order')) as [Hu|Hu].
    + apply position_table_in in Hu as [pu ->].
      now rewrite (position_table_notin _ _ Hv).
    + now rewrite (position_table_notin _ _ Hu).
  - intros Hincl. destruct order as [|o order'].
    + simpl. eauto.
    + unfold validate_topological_order. rewrite validate_nodes_scan.
      destruct (scan_edges_total (position_table (o :: order')) (edges g)
                  (Return (true, "Valid topological order"%string)))
        as [(u & v & pu & pv & _ & _ & _ & _ & ->)|[_ ->]]; eauto.
      intros u v Hin. now apply referenced_positions with (g := g).
Qed.

Lemma validate_lookup_error_witness :
  validate_topological_order [("A", ["B"]); ("B", ["C"])] ["A"; "B"]
  = Raise (KeyError "C")
  /\ exists verdict,
       validate_topological_order [("A", ["B"]); ("B", ["C"])] ["A"; "B"; "C"]
       = Return verdict.
Proof.
  split.
  - refine (proj1 (validate_lookup_error [("A", ["B"]); ("B", ["C"])] ["A"; "B"])
             [("A", "B")] "B" "C" [] _ eq_refl _ _).
    + discriminate.
    + intros a b [H|[]]. injection H as <- <-.
      exists 0, 1. repeat split; reflexivity.
    + simpl. intros [H|[H|[]]]; discriminate.
  - apply (proj2 (validate_lookup_error [("A", ["B"]); ("B", ["C"])]
                    ["A"; "B"; "C"])).
    intros x Hx. simpl in Hx. simpl. tauto.
Defined.

(* ================================================================= *)
(** * The successor loop of the Kahn and BFS sorters *)

Lemma cnt_nil v : cnt v [] = 0.
Proof. reflexivity. Qed.

Lemma cnt_cons_eq v l : cnt v (v :: l) = 1 + cnt v l.
Proof. unfold cnt. rewrite count_occ_cons_eq by reflexivity. lia. Qed.

Lemma cnt_cons_neq v x l : x <> v -> cnt v (x :: l) = cnt v l.
Proof. intros H. unfold cnt. now rewrite count_occ_cons_neq. Qed.

Lemma cnt_nonneg v l : 0 <= cnt v l.
Proof. unfold cnt. lia. Qed.

Lemma cnt_pos_in v l : 0 < cnt v l <-> In v l.
Proof.
  unfold cnt. rewrite (count_occ_In string_dec). lia.
Qed.

Lemma cnt_app v l1 l2 : cnt v (l1 ++ l2) = cnt v l1 + cnt v l2.
Proof. unfold cnt. rewrite count_occ_app. lia. Qed.

Lemma relax_spec nbrs : forall d q d' q',
  relax nbrs d q = Return (d', q') ->
  dict_keys d' = dict_keys d /\
  (forall v, dict_get d' v
             = option_map (fun x => x - cnt v nbrs) (dict_get d v)) /\
  exists new,
    q' = q ++ new /\ NoDup new /\
    forall v, In v new <->
              exists x, dict_get d v = Some x /\ 1 <= x <= cnt v nbrs.
Proof.
  induction nbrs as [|n nbrs IH]; intros d q d' q' H; simpl in H.
  - injection H as <- <-. split; [reflexivity|]. split.
    + intros v. rewrite cnt_nil. destruct (dict_get d v); cbn [option_map]; f_equal; lia.
    + exists []. rewrite app_nil_r. split; [reflexivity|].
      split; [constructor|]. intros v. split; [intros []|].
      intros (x & _ & Hx). rewrite cnt_nil in Hx. lia.
  - destruct (dict_get d n) as [x|] eqn:Hn; [|discriminate].
    apply IH in H as (Hk & Hget & new & -> & Hnd & Hnew).
    assert (Hin : In n (dict_keys d)) by (eapply dict_get_some_in; eauto).
    split; [now rewrite Hk, dict_keys_set_in|]. split.
    + intros v. rewrite Hget. destruct (string_dec n v) as [<-|Hne].
      * rewrite dict_get_set_eq, Hn, cnt_cons_eq. cbn [option_map]. f_equal. lia.
      * rewrite dict_get_set_neq, cnt_cons_neq by assumption. reflexivity.
    + assert (Hchar : forall v, In v new <->
                exists y, dict_get d v = Some y /\
                          (v = n -> 2 <= y) /\ 1 <= y <= cnt v (n :: nbrs)).
      { intros v. rewrite Hnew. destruct (string_dec n v) as [<-|Hne].
        - rewrite dict_get_set_eq, Hn, cnt_cons_eq. split.
          + intros (y & Hy & Hr). injection Hy as <-. exists x.
            split; [reflexivity|]. split; [intros; lia|lia].
          + intros (y & Hy & H2 & Hr). injection Hy as <-. exists (x - 1).
            split; [reflexivity|]. specialize (H2 eq_refl). lia.
        - rewrite dict_get_set_neq, cnt_cons_neq by assumption. split.
          + intros (y & Hy & Hr). exists y. repeat split; auto; try lia.
            intros ->. congruence.
          + intros (y & Hy & _ & Hr). exists y. auto. }
      destruct (x - 1 =? 0) eqn:E.
      * assert (Hnn : ~ In n new).
        { intros Hc. apply Hnew in Hc as (y & Hy & Hr).
          rewrite dict_get_set_eq in Hy. injection Hy as <-. lia. }
        exists (n :: new). rewrite <- app_assoc. split; [reflexivity|].
        split; [constructor; assumption|]. intros v. simpl. rewrite Hchar.
        split.
        -- intros [<-|(y & Hy & H2 & Hr)].
           ++ exists x. split; [assumption|]. rewrite cnt_cons_eq.
              pose proof (cnt_nonneg n nbrs). lia.
           ++ exists y. auto.
        -- intros (y & Hy & Hr). destruct (string_dec n v) as [<-|Hne].
           ++ left. reflexivity.
           ++ right. exists y. repeat split; auto; try lia.
              intros ->. congruence.
      * exists new. split; [reflexivity|]. split; [assumption|].
        intros v. rewrite Hchar. split.
        -- intros (y & Hy & _ & Hr). exists y. auto.
        -- intros (y & Hy & Hr). exists y. repeat split; auto; try lia.
           intros ->. rewrite Hn in Hy. injection Hy as <-.
           destruct (Z.eq_dec x 1); lia.
Qed.

Lemma relax_returns nbrs : forall d q,
  (forall v, In v nbrs -> In v (dict_keys d)) ->
  exists r, relax nbrs d q = Return r.
Proof.
  induction nbrs as [|n nbrs IH]; intros d q H; simpl; [eauto|].
  destruct (dict_get_in d n) as [x ->]; [apply H; now left|].
  apply IH. intros v Hv. rewrite dict_keys_set_in.
  - apply H. now right.
  - apply H. now left.
Qed.

Lemma relax_no_timeout nbrs : forall d q, relax nbrs d q <> OutOfFuel.
Proof.
  induction nbrs as [|n nbrs IH]; intros d q; simpl; [discriminate|].
  destruct (dict_get d n); [apply IH|discriminate].
Qed.

(* ================================================================= *)
(** * The in-degree table *)

Lemma init_fold_spec ks : forall (acc : dict Z),
  let d := fold_left (fun in_degree node => dict_set in_degree node 0) ks acc in
  (dict_wf acc -> dict_wf d) /\
  (forall x, In x (dict_keys d) <-> In x (dict_keys acc) \/ In x ks) /\
  (forall x, dict_get_default d x 0
             = if in_dec string_dec x ks then 0 else dict_get_default acc x 0).
Proof.
  induction ks as [|k ks IH]; intros acc; simpl.
  - repeat split; auto; tauto.
  - destruct (IH (dict_set acc k 0)) as (Hwf & Hkeys & Hget).
    split; [|split].
    + intros H. apply Hwf. now apply dict_wf_set.
    + intros x. rewrite Hkeys, dict_keys_set_iff. intuition.
    + intros x. rewrite Hget. destruct (in_dec string_dec x ks) as [Hin|Hnin].
      * destruct (string_dec k x); reflexivity.
      * unfold dict_get_default. destruct (string_dec k x) as [<-|Hne].
        -- now rewrite dict_get_set_eq.
        -- now rewrite dict_get_set_neq.
Qed.

Lemma count_edge_fold_spec nbrs : forall (d : dict Z) (e : Z),
  let r := fold_left count_edge nbrs (d, e) in
  (dict_wf d -> dict_wf (fst r)) /\
  (forall x, In x (dict_keys (fst r)) <-> In x (dict_keys d) \/ In x nbrs) /\
  (forall x, dict_get_default (fst r) x 0
             = dict_get_default d x 0 + cnt x nbrs) /\
  snd r = e + len nbrs.
Proof.
  induction nbrs as [|n nbrs IH]; intros d e; simpl.
  - unfold len. simpl. repeat split; auto; try tauto; try lia.
    intros x. rewrite cnt_nil. lia.
  - destruct (IH (dict_set d n (dict_get_default d n 0 + 1)) (e + 1))
      as (Hwf & Hkeys & Hget & He).
    split; [|split; [|split]].
    + intros H. apply Hwf. now apply dict_wf_set.
    + intros x. rewrite Hkeys, dict_keys_set_iff. intuition.
    + intros x. rewrite Hget. unfold dict_get_default at 1.
      destruct (string_dec n x) as [<-|Hne].
      * rewrite dict_get_set_eq, cnt_cons_eq. lia.
      * rewrite dict_get_set_neq, cnt_cons_neq by assumption.
        reflexivity.
    + rewrite He. unfold len. simpl length. lia.
Qed.

Lemma count_fold_spec g : forall (st : dict Z * Z),
  let r := fold_left (fun st '(_, nbrs) => fold_left count_edge nbrs st) g st in
  (dict_wf (fst st) -> dict_wf (fst r)) /\
  (forall x, In x (dict_keys (fst r))
             <-> In x (dict_keys (fst st)) \/ In x (targets g)) /\
  (forall x, dict_get_default (fst r) x 0
             = dict_get_default (fst st) x 0 + cnt x (targets g)) /\
  snd r = snd st + len (targets g).
Proof.
  induction g as [|[node nbrs] g IH]; intros [d e]; simpl.
  - unfold len. simpl. repeat split; auto; try tauto; try lia.
    intros x. rewrite cnt_nil. lia.
  - destruct (count_edge_fold_spec nbrs d e) as (Hwf1 & Hk1 & Hg1 & He1).
    destruct (IH (fold_left count_edge nbrs (d, e))) as (Hwf & Hk & Hg & He).
    unfold targets in *. simpl.
    split; [|split; [|split]].
    + auto.
    + intros x. rewrite Hk, Hk1, in_app_iff. tauto.
    + intros x. rewrite Hg, Hg1, cnt_app. lia.
    + rewrite He, He1. unfold len. rewrite length_app. lia.
Qed.

Lemma in_degree_table_spec g :
  let d := fst (count_in_degrees g (init_in_degree g)) in
  dict_wf d /\
  (forall x, In x (dict_keys d) <-> In x (referenced g)) /\
  (forall x, dict_get_default d x 0 = cnt x (targets g)) /\
  snd (count_in_degrees g (init_in_degree g)) = len (targets g).
Proof.
  unfold count_in_degrees, init_in_degree.
  destruct (init_fold_spec (dict_keys g) []) as (Hwf0 & Hk0 & Hg0).
  destruct (count_fold_spec g
              (fold_left (fun in_degree node => dict_set in_degree node 0)
                         (dict_keys g) [], 0)) as (Hwf & Hk & Hg & He).
  simpl fst in *. simpl snd in *.
  split; [|split; [|split]].
  - apply Hwf, Hwf0. constructor.
  - intros x. rewrite Hk, Hk0. unfold referenced, targets.
    rewrite in_app_iff. simpl. tauto.
  - intros x. rewrite Hg, Hg0.
    destruct (in_dec string_dec x (dict_keys g)); reflexivity.
  - rewrite He. lia.
Qed.

Lemma targets_covers g (d : dict Z) :
  (forall x, In x (targets g) -> In x (dict_keys d)) -> covers g d.
Proof.
  intros H u nbrs v Hin Hv. apply H. unfold targets. apply in_concat.
  exists nbrs. split; auto. apply in_map_iff. exists (u, nbrs). auto.
Qed.

Lemma zero_in_degree_spec (d : dict Z) x :
  dict_wf d -> (In x (zero_in_degree d) <-> dict_get d x = Some 0).
Proof.
  unfold zero_in_degree, dict_wf.
  induction d as [|[k n] d IH]; simpl; intros Hwf.
  - split; [tauto|discriminate].
  - inversion Hwf as [|? ? Hnin Hnd]; subst.
    destruct (String.eqb k x) eqn:E.
    + apply String.eqb_eq in E. subst k. destruct (n =? 0) eqn:En.
      * simpl. apply Z.eqb_eq in En. subst. tauto.
      * apply Z.eqb_neq in En. rewrite IH by assumption. split.
        -- intros H. apply dict_get_some_in in H. contradiction.
        -- intros H. congruence.
    + apply String.eqb_neq in E. destruct (n =? 0); simpl; rewrite IH by assumption;
        tauto.
Qed.

Lemma zero_in_degree_nodup (d : dict Z) : dict_wf d -> NoDup (zero_in_degree d).
Proof.
  unfold zero_in_degree, dict_wf.
  induction d as [|[k n] d IH]; simpl; intros Hwf; [constructor|].
  inversion Hwf as [|? ? Hnin Hnd]; subst.
  destruct (n =? 0); simpl; auto. constructor; auto.
  intros Hc. apply Hnin. apply in_map_iff in Hc as ([k' n'] & <- & Hin).
  apply filter_In in Hin as [Hin _]. apply in_map_iff. exists (k', n'). auto.
Qed.

(* ================================================================= *)
(** * One pass of the queue loop *)

Lemma app_cons_assoc {A : Type} (r : list A) (x : A) (q : list A) :
  (r ++ [x]) ++ q = r ++ x :: q.
Proof. now rewrite <- app_assoc. Qed.

Lemma dict_get_default_covered (g : graph) (d : dict Z) current v :
  covers g d -> In v (dict_get_default g current []) -> In v (dict_keys d).
Proof.
  intros Hc Hv. unfold dict_get_default in Hv.
  destruct (dict_get g current) as [nbrs|] eqn:E; [|destruct Hv].
  apply (Hc current nbrs); auto.
  clear - E. induction g as [|[k n] g IH]; simpl in *; [discriminate|].
  destruct (String.eqb k current) eqn:Ek.
  - apply String.eqb_eq in Ek. injection E as ->. subst. now left.
  - right. auto.
Qed.

Lemma step_exists g d current q r :
  covers g d -> exists c', step g (d, current :: q, r) c'.
Proof.
  intros Hc.
  destruct (relax_returns (dict_get_default g current []) d q) as [[d' q'] H].
  - intros v Hv. eapply dict_get_default_covered; eauto.
  - eexists. constructor. eassumption.
Qed.

Lemma step_queue_inv g c c' : queue_inv g c -> step g c c' -> queue_inv g c'.
Proof.
  intros Hinv Hstep. destruct Hstep as [d current q r d' q' Hrelax].
  destruct Hinv as (Hcov & Hnd & Hincl & Hle).
  apply relax_spec in Hrelax as (Hk & Hget & new & -> & Hndn & Hnew).
  unfold queue_inv. rewrite app_assoc, app_cons_assoc.
  split; [|split; [|split]].
  - intros u nbrs v Hin Hv. rewrite Hk. eapply Hcov; eauto.
  - apply NoDup_app; auto. intros x Hx Hx'.
    apply Hle in Hx as (n & Hn & Hn0). apply Hnew in Hx' as (y & Hy & Hy1).
    rewrite Hn in Hy. injection Hy as <-. lia.
  - rewrite Hk. apply incl_app; auto. intros x Hx.
    apply Hnew in Hx as (y & Hy & _). eapply dict_get_some_in; eauto.
  - intros x Hx. rewrite Hget. apply in_app_iff in Hx as [Hx|Hx].
    + apply Hle in Hx as (n & -> & Hn0). eexists. split; [reflexivity|].
      pose proof (cnt_nonneg x (dict_get_default g current [])). lia.
    + apply Hnew in Hx as (y & -> & Hy1). eexists. split; [reflexivity|]. lia.
Qed.

Lemma step_keys g d q r d' q' r' :
  step g (d, q, r) (d', q', r') -> dict_keys d' = dict_keys d.
Proof.
  intros H. inversion H; subst. now apply relax_spec in H1 as (Hk & _).
Qed.

Lemma queue_inv_length g d q r :
  queue_inv g (d, q, r) -> (length r + length q <= length d)%nat.
Proof.
  intros (_ & Hnd & Hincl & _).
  rewrite <- length_app, <- (length_map fst d).
  now apply NoDup_incl_length.
Qed.

(** ** The loop of the Kahn sorter *)

Lemma kahn_loop_steps (P : core -> Prop) g :
  (forall c c', P c -> step g c c' -> P c') ->
  forall fuel st st',
    P (kahn_core st) -> kahn_loop fuel g st = Return st' ->
    P (kahn_core st') /\ k_queue st' = [].
Proof.
  intros Hstep. induction fuel as [|fuel IH]; intros st st' HP H.
  - simpl in H. destruct (k_queue st) eqn:Eq; [|discriminate].
    injection H as <-. auto.
  - simpl in H. destruct (k_queue st) as [|current q] eqn:Eq.
    + injection H as <-. auto.
    + destruct (relax _ _ _) as [[d' q']| |] eqn:Er; simpl in H;
        try discriminate.
      apply IH in H; auto. unfold kahn_core; simpl.
      apply (Hstep (kahn_core st)); auto.
      unfold kahn_core. rewrite Eq. now constructor.
Qed.

Lemma kahn_loop_terminates g : forall fuel st,
  queue_inv g (kahn_core st) ->
  (length (k_in_degree st) < fuel + length (k_result st))%nat ->
  kahn_loop fuel g st <> OutOfFuel.
Proof.
  induction fuel as [|fuel IH]; intros st Hinv Hlen.
  - simpl. destruct (k_queue st) eqn:Eq; [discriminate|].
    apply queue_inv_length in Hinv. rewrite Eq in Hinv. simpl in *. lia.
  - simpl. destruct (k_queue st) as [|current q] eqn:Eq; [discriminate|].
    destruct (relax _ _ _) as [[d' q']| |] eqn:Er; simpl; try discriminate.
    + assert (Hs : step g (kahn_core st) (d', q', k_result st ++ [current])).
      { unfold kahn_core. rewrite Eq. now constructor. }
      apply IH.
      * exact (step_queue_inv g _ _ Hinv Hs).
      * simpl. apply step_keys in Hs. unfold dict_keys in Hs.
        apply (f_equal (@length _)) in Hs. rewrite !length_map in Hs.
        rewrite length_app. simpl. lia.
    + now apply relax_no_timeout in Er.
Qed.

Lemma kahn_loop_more_fuel g : forall fuel extra st,
  kahn_loop fuel g st <> OutOfFuel ->
  kahn_loop (fuel + extra) g st = kahn_loop fuel g st.
Proof.
  induction fuel as [|fuel IH]; intros extra st H.
  - simpl in H. destruct extra; simpl; destruct (k_queue st); congruence.
  - simpl in *. destruct (k_queue st) as [|current q]; auto.
    destruct (relax _ _ _) as [[d' q']| |]; simpl in *; auto.
Qed.

Lemma kahn_loop_no_raise g : forall fuel st e,
  queue_inv g (kahn_core st) -> kahn_loop fuel g st <> Raise e.
Proof.
  induction fuel as [|fuel IH]; intros st e Hinv.
  - simpl. destruct (k_queue st); discriminate.
  - simpl. destruct (k_queue st) as [|current q] eqn:Eq; [discriminate|].
    unfold kahn_core in Hinv. rewrite Eq in Hinv.
    destruct (relax_returns (dict_get_default g current []) (k_in_degree st) q)
      as [[d' q'] Hr].
    { intros v Hv. eapply dict_get_default_covered; eauto. apply Hinv. }
    rewrite Hr. simpl. apply IH.
    apply (step_queue_inv g _ _ Hinv). now constructor.
Qed.

(** The state on entry to the loop. *)
Lemma kahn_init_core g :
  kahn_core (fst (kahn_init g))
  = (fst (count_in_degrees g (init_in_degree g)),
     zero_in_degree (fst (count_in_degrees g (init_in_degree g))), []).
Proof.
  unfold kahn_init. destruct (count_in_degrees g (init_in_degree g)).
  reflexivity.
Qed.

Lemma init_queue_inv g :
  let d := fst (count_in_degrees g (init_in_degree g)) in
  queue_inv g (d, zero_in_degree d, []).
Proof.
  intros d. destruct (in_degree_table_spec g) as (Hwf & Hk & Hg & He).
  fold d in Hwf, Hk, Hg. unfold queue_inv. simpl.
  split; [|split; [|split]].
  - apply targets_covers. intros x Hx. apply Hk. unfold referenced.
    apply in_app_iff. now right.
  - now apply zero_in_degree_nodup.
  - intros x Hx. apply zero_in_degree_spec in Hx; auto.
    eapply dict_get_some_in; eauto.
  - intros x Hx. apply zero_in_degree_spec in Hx; auto.
    exists 0. split; [assumption|lia].
Qed.

(* ================================================================= *)
(** * Acyclic graphs and the order the queue loop builds *)

Lemma remaining_nonneg g done v : 0 <= remaining g done v.
Proof.
  induction g as [|[u nbrs] g IH]; simpl; [lia|].
  pose proof (cnt_nonneg v nbrs). destruct (in_dec string_dec u done); lia.
Qed.

Lemma remaining_nil g v : remaining g [] v = cnt v (targets g).
Proof.
  induction g as [|[u nbrs] g IH]; simpl; [reflexivity|].
  unfold targets in *. simpl. rewrite cnt_app, IH. reflexivity.
Qed.

Lemma remaining_zero g done v u :
  remaining g done v = 0 -> edge g u v -> In u done.
Proof.
  intros H He. apply edges_in in He as (nbrs & Hin & Hv).
  induction g as [|[u' nbrs'] g IH]; simpl in *; [tauto|].
  pose proof (remaining_nonneg g done v).
  pose proof (cnt_nonneg v nbrs').
  destruct Hin as [Heq|Hin].
  - injection Heq as -> ->. destruct (in_dec string_dec u done); auto.
    apply cnt_pos_in in Hv. lia.
  - apply IH; auto. destruct (in_dec string_dec u' done); lia.
Qed.

Lemma remaining_pos g done v :
  0 < remaining g done v -> exists u, edge g u v /\ ~ In u done.
Proof.
  induction g as [|[u nbrs] g IH]; simpl; [lia|]. intros H.
  assert (Hcase : (~ In u done /\ 0 < cnt v nbrs) \/ 0 < remaining g done v).
  { destruct (in_dec string_dec u done); [right; lia|].
    pose proof (cnt_nonneg v nbrs).
    destruct (Z_lt_le_dec 0 (cnt v nbrs)); [left; auto|right; lia]. }
  destruct Hcase as [[Hn Hc]|Hr].
  - exists u. split; auto. apply edges_in. exists nbrs. split; [now left|].
    now apply cnt_pos_in.
  - destruct (IH Hr) as (u' & He & Hn). exists u'. split; auto.
    apply edges_in in He as (nbrs' & Hin & Hv). apply edges_in.
    exists nbrs'. split; auto. now right.
Qed.

Lemma remaining_not_key g done c v :
  ~ In c (dict_keys g) -> remaining g (done ++ [c]) v = remaining g done v.
Proof.
  induction g as [|[u nbrs] g IH]; simpl; auto. intros Hn.
  rewrite IH by tauto. f_equal.
  destruct (in_dec string_dec u (done ++ [c])) as [H1|H1];
    destruct (in_dec string_dec u done) as [H2|H2]; auto.
  - apply in_app_iff in H1 as [H1|[H1|[]]]; [contradiction|]. subst. tauto.
  - exfalso. apply H1. apply in_app_iff. now left.
Qed.

Lemma remaining_step g done c v :
  dict_wf g -> ~ In c done ->
  remaining g (done ++ [c]) v
  = remaining g done v - cnt v (dict_get_default g c []).
Proof.
  unfold dict_wf, dict_get_default.
  induction g as [|[u nbrs] g IH]; simpl; intros Hwf Hc.
  - unfold cnt. simpl. lia.
  - inversion Hwf as [|? ? Hnin Hnd]; subst.
    destruct (String.eqb u c) eqn:E.
    + apply String.eqb_eq in E. subst u.
      rewrite remaining_not_key by assumption.
      destruct (in_dec string_dec c (done ++ [c])) as [_|H1].
      * destruct (in_dec string_dec c done); [contradiction|lia].
      * exfalso. apply H1. apply in_app_iff. right. now left.
    + apply String.eqb_neq in E. rewrite IH by assumption.
      destruct (in_dec string_dec u (done ++ [c])) as [H1|H1];
        destruct (in_dec string_dec u done) as [H2|H2]; try lia.
      * apply in_app_iff in H1 as [H1|[H1|[]]]; [contradiction|congruence].
      * exfalso. apply H1. apply in_app_iff. now left.
Qed.

Lemma precedes_app_r order u v x :
  precedes order u v -> precedes (order ++ [x]) u v.
Proof.
  intros (l1 & l2 & l3 & ->). exists l1, l2, (l3 ++ [x]).
  now rewrite <- !app_assoc, <- !app_comm_cons, <- app_assoc.
Qed.

Lemma precedes_last order u v : In u order -> precedes (order ++ [v]) u v.
Proof.
  intros H. apply in_split in H as (l1 & l2 & ->). exists l1, l2, [].
  now rewrite <- app_assoc, <- app_comm_cons.
Qed.

Lemma step_topo_inv g c c' :
  dict_wf g -> queue_inv g c -> topo_inv g c -> step g c c' -> topo_inv g c'.
Proof.
  intros Hwf Hq Ht Hstep. destruct Hstep as [d current q r d' q' Hrelax].
  destruct Hq as (Hcov & Hnd & Hincl & Hle).
  destruct Ht as (Hrem & Hzero & Hprec).
  apply relax_spec in Hrelax as (Hk & Hget & new & -> & Hndn & Hnew).
  assert (Hcur : ~ In current r).
  { intros Hc. apply NoDup_remove_2 in Hnd. apply Hnd.
    apply in_app_iff. now left. }
  assert (Hcur0 : remaining g r current = 0).
  { assert (Hin : In current (r ++ current :: q)).
    { apply in_app_iff. right. now left. }
    destruct (Hle _ Hin) as (n & Hn & Hn0).
    rewrite Hrem in Hn by (eapply dict_get_some_in; eauto).
    injection Hn as <-. pose proof (remaining_nonneg g r current). lia. }
  unfold topo_inv. split; [|split].
  - intros v Hv. rewrite Hk in Hv. rewrite Hget, (Hrem v Hv).
    cbn [option_map]. now rewrite remaining_step.
  - intros v Hv H0. rewrite Hk in Hv. rewrite remaining_step in H0 by assumption.
    rewrite app_assoc, app_cons_assoc.
    destruct (Z.eq_dec (remaining g r v) 0) as [Hz|Hnz].
    + apply in_app_iff. left. auto.
    + apply in_app_iff. right. apply Hnew. exists (remaining g r v).
      split; [auto|]. pose proof (remaining_nonneg g r v). lia.
  - intros u v He Hv. apply in_app_iff in Hv as [Hv|[<-|[]]].
    + apply precedes_app_r. auto.
    + apply precedes_last. eapply remaining_zero; eauto.
Qed.

Lemma init_topo_inv g :
  let d := fst (count_in_degrees g (init_in_degree g)) in
  topo_inv g (d, zero_in_degree d, []).
Proof.
  intros d. destruct (in_degree_table_spec g) as (Hwf & Hk & Hg & He).
  fold d in Hwf, Hk, Hg.
  assert (Hget : forall v, In v (dict_keys d) ->
                           dict_get d v = Some (remaining g [] v)).
  { intros v Hv. destruct (dict_get_in d v Hv) as [x Hx].
    rewrite Hx, remaining_nil, <- Hg. f_equal.
    symmetry. now apply dict_get_default_some. }
  unfold topo_inv. split; [assumption|]. split.
  - intros v Hv H0. simpl. apply zero_in_degree_spec; auto.
    rewrite Hget by assumption. now rewrite H0.
  - intros u v _ [].
Qed.

(** A non-empty finite set of nodes holds a node that no node of the set
    reaches. *)
Lemma minimal_node (T : string -> string -> Prop) :
  (forall x, ~ T x x) -> (forall x y z, T x y -> T y z -> T x z) ->
  forall S, S <> [] ->
  ~ ~ exists m, In m S /\ forall u, In u S -> ~ T u m.
Proof.
  intros Hirr Htr. induction S as [|a S IH]; [congruence|]. intros _ Hno.
  destruct S as [|b S].
  - apply Hno. exists a. split; [now left|]. intros u [<-|[]]. apply Hirr.
  - apply IH; [discriminate|]. intros (m & Hm & Hmin).
    assert (Hdn : ~ ~ (T a m \/ ~ T a m)) by tauto.
    apply Hdn. intros [Ham|Ham].
    + apply Hno. exists a. split; [now left|].
      intros u [<-|Hu]; [apply Hirr|].
      intros Hua. apply (Hmin u Hu). eapply Htr; eauto.
    + apply Hno. exists m. split; [now right|].
      intros u [<-|Hu]; auto.
Qed.

Lemma acyclic_no_closed_set g S :
  acyclic g -> S <> [] ->
  (forall v, In v S -> exists u, In u S /\ edge g u v) -> False.
Proof.
  intros Hac Hne Hpred.
  apply (minimal_node (clos_trans string (edge g)) Hac
           (fun x y z => t_trans _ _ x y z) S Hne).
  intros (m & Hm & Hmin). destruct (Hpred m Hm) as (u & Hu & He).
  apply (Hmin u Hu). now apply t_step.
Qed.

Lemma edge_source_key g u v : edge g u v -> In u (dict_keys g).
Proof.
  intros H. apply edges_in in H as (nbrs & Hin & _).
  unfold dict_keys. apply in_map_iff. exists (u, nbrs). auto.
Qed.

(** On an acyclic graph the loop leaves no node behind. *)
Lemma acyclic_all_dequeued g d r :
  acyclic g -> queue_inv g (d, [], r) -> topo_inv g (d, [], r) ->
  (forall x, In x (dict_keys g) -> In x (dict_keys d)) ->
  incl (dict_keys d) r.
Proof.
  intros Hac Hq Ht Hkeys x Hx.
  destruct (in_dec string_dec x r) as [|Hnx]; [assumption|exfalso].
  destruct Ht as (Hrem & Hzero & _). rewrite app_nil_r in Hzero.
  apply (acyclic_no_closed_set g
           (filter (fun y => if in_dec string_dec y r then false else true)
                   (dict_keys d)) Hac).
  - intros Hnil. assert (Hin : In x (filter
        (fun y => if in_dec string_dec y r then false else true) (dict_keys d))).
    { apply filter_In. split; auto. destruct (in_dec string_dec x r); tauto. }
    rewrite Hnil in Hin. destruct Hin.
  - intros v Hv. apply filter_In in Hv as [Hv Hvr].
    destruct (in_dec string_dec v r) as [|Hnv]; [discriminate|].
    assert (Hpos : 0 < remaining g r v).
    { pose proof (remaining_nonneg g r v).
      destruct (Z.eq_dec (remaining g r v) 0) as [H0|]; [|lia].
      exfalso. auto. }
    apply remaining_pos in Hpos as (u & He & Hu). exists u. split; auto.
    apply filter_In. split.
    + apply Hkeys. eapply edge_source_key; eauto.
    + destruct (in_dec string_dec u r); tauto.
Qed.

(* ================================================================= *)
(** * The Kahn sorter *)

Lemma step_loop_inv g c c' : loop_inv g c -> step g c c' -> loop_inv g c'.
Proof.
  intros (Hq & Hk & Ht) Hs. split; [|split].
  - eapply step_queue_inv; eauto.
  - destruct c as [[d q] r], c' as [[d' q'] r']. simpl in *.
    rewrite <- Hk. eapply step_keys; eauto.
  - intros Hwf. eapply step_topo_inv; eauto.
Qed.

Lemma init_loop_inv g :
  let d := fst (count_in_degrees g (init_in_degree g)) in
  loop_inv g (d, zero_in_degree d, []).
Proof.
  intros d. split; [|split].
  - apply init_queue_inv.
  - reflexivity.
  - intros _. apply init_topo_inv.
Qed.

Lemma kahn_fuel_eq g :
  kahn_fuel g = S (length (fst (count_in_degrees g (init_in_degree g)))).
Proof.
  unfold kahn_fuel, kahn_init.
  destruct (count_in_degrees g (init_in_degree g)). reflexivity.
Qed.

(** The loop of the Kahn sorter ends, with an empty queue, within the fuel
    the sorter gives it. *)
Lemma kahn_loop_final g :
  exists st,
    kahn_loop (kahn_fuel g) g (fst (kahn_init g)) = Return st /\
    k_queue st = [] /\ loop_inv g (kahn_core st).
Proof.
  pose proof (init_loop_inv g) as Hinit. cbv zeta in Hinit.
  rewrite <- kahn_init_core in Hinit.
  destruct (kahn_loop (kahn_fuel g) g (fst (kahn_init g))) as [st|e|] eqn:E.
  - exists st. split; [reflexivity|].
    destruct (kahn_loop_steps (loop_inv g) g (step_loop_inv g) _ _ _ Hinit E).
    auto.
  - exfalso. eapply kahn_loop_no_raise; [|exact E]. apply Hinit.
  - exfalso. eapply kahn_loop_terminates; [| |exact E]; [apply Hinit|].
    rewrite kahn_fuel_eq.
    assert (H : k_in_degree (fst (kahn_init g))
                = fst (count_in_degrees g (init_in_degree g))).
    { pose proof (kahn_init_core g) as Hc. unfold kahn_core in Hc.
      now injection Hc. }
    rewrite H. lia.
Qed.

Lemma len_eqb {A B : Type} (l : list A) (l' : list B) :
  (len l =? len l') = Nat.eqb (length l) (length l').
Proof.
  unfold len. destruct (Nat.eqb_spec (length l) (length l')) as [->|H].
  - apply Z.eqb_refl.
  - apply Z.eqb_neq. lia.
Qed.

Lemma kahn_sort_outcome g t0 t1 st :
  g <> [] ->
  kahn_loop (kahn_fuel g) g (fst (kahn_init g)) = Return st ->
  (length (k_result st) <> length (k_in_degree st) ->
   topological_sort_kahn t0 t1 g
   = Raise (kahn_cycle_error
              (set_diff string_dec (dict_keys (k_in_degree st)) (k_result st))))
  /\
  (length (k_result st) = length (k_in_degree st) ->
   exists metrics, topological_sort_kahn t0 t1 g = Return (k_result st, metrics)).
Proof.
  intros Hne Hloop. unfold topological_sort_kahn, topological_sort_kahn_fuel.
  destruct g as [|e g']; [congruence|].
  destruct (kahn_init (e :: g')) as [st0 ec] eqn:Ei. simpl fst in Hloop.
  rewrite Hloop. simpl bind. rewrite len_eqb. split; intros H.
  - apply Nat.eqb_neq in H. rewrite H. reflexivity.
  - apply Nat.eqb_eq in H. rewrite H. simpl. eauto.
Qed.

Lemma loop_inv_complete g d r :
  dict_wf g -> acyclic g -> loop_inv g (d, [], r) ->
  NoDup r /\ (forall x, In x r <-> In x (referenced g)) /\
  length r = length d /\
  (forall u v, edge g u v -> precedes r u v).
Proof.
  intros Hwf Hac (Hq & Hk & Ht). simpl in Hk. specialize (Ht Hwf).
  destruct (in_degree_table_spec g) as (Hwf0 & Hk0 & _).
  assert (Hkeys : forall x, In x (dict_keys d) <-> In x (referenced g)).
  { intros x. rewrite Hk. apply Hk0. }
  assert (Hall : incl (dict_keys d) r).
  { apply acyclic_all_dequeued with (g := g); auto.
    intros x Hx. apply Hkeys. unfold referenced. apply in_app_iff. now left. }
  destruct Hq as (Hcov & Hnd & Hincl & _). rewrite app_nil_r in Hnd, Hincl.
  split; [assumption|]. split; [|split].
  - intros x. rewrite <- Hkeys. split; auto.
  - apply Nat.le_antisymm.
    + rewrite <- (length_map fst d). now apply NoDup_incl_length.
    + rewrite <- (length_map fst d). apply NoDup_incl_length; auto.
      fold (dict_keys d). rewrite Hk. exact Hwf0.
  - intros u v He. apply Ht; auto. apply Hall, Hkeys.
    now apply edges_referenced in He.
Qed.

Lemma precedes_edge_ok order u v :
  NoDup order -> precedes order u v -> edge_ok (position_table order) u v.
Proof.
  intros Hnd (l1 & l2 & l3 & ->).
  exists (len l1), (len (l1 ++ u :: l2)). split; [|split].
  - apply position_table_last. apply NoDup_remove_2 in Hnd.
    intros Hc. apply Hnd. apply in_app_iff. now right.
  - replace (l1 ++ u :: l2 ++ v :: l3) with ((l1 ++ u :: l2) ++ v :: l3)
      by now rewrite <- app_assoc.
    apply position_table_last.
    replace (l1 ++ u :: l2 ++ v :: l3) with ((l1 ++ u :: l2) ++ v :: l3) in Hnd
      by now rewrite <- app_assoc.
    apply NoDup_remove_2 in Hnd. intros Hc. apply Hnd. apply in_app_iff.
    now right.
  - unfold len. rewrite length_app. simpl. lia.
Qed.

(** An order without repetition in which every edge runs forward is
    accepted by the validator. *)
Lemma validate_sorted g order :
  NoDup order -> (forall u v, edge g u v -> precedes order u v) ->
  exists msg, validate_topological_order g order = Return (true, msg).
Proof.
  intros Hnd Hprec. destruct order as [|o order]; [simpl; eauto|].
  unfold validate_topological_order.
  rewrite validate_nodes_scan, scan_edges_ok; [eauto|].
  intros u v Hin. apply precedes_edge_ok; auto.
Qed.

Lemma kahn_sorts g t0 t1 :
  dict_wf g -> acyclic g ->
  exists order metrics,
    topological_sort_kahn t0 t1 g = Return (order, metrics) /\
    NoDup order /\ (forall x, In x order <-> In x (referenced g)) /\
    (forall u v, edge g u v -> precedes order u v).
Proof.
  intros Hwf Hac. destruct g as [|e g'] eqn:Eg.
  - eexists [], _. split; [reflexivity|]. split; [constructor|].
    split; [tauto|]. intros u v [].
  - rewrite <- Eg in *. assert (Hne : g <> []) by (rewrite Eg; discriminate).
    destruct (kahn_loop_final g) as (st & Hloop & Hq & Hinv).
    unfold kahn_core in Hinv. rewrite Hq in Hinv.
    destruct (loop_inv_complete g _ _ Hwf Hac Hinv) as (Hnd & Hin & Hlen & Hp).
    destruct (proj2 (kahn_sort_outcome g t0 t1 st Hne Hloop) Hlen) as [m Hm].
    exists (k_result st), m. auto.
Qed.

(* ================================================================= *)
(** * The BFS sorter *)

Lemma bfs_level_steps (P : core -> Prop) g :
  (forall c c', P c -> step g c c' -> P c') ->
  forall n st st',
    P (bfs_core st) -> bfs_level n g st = Return st' -> P (bfs_core st').
Proof.
  intros Hstep. induction n as [|n IH]; intros st st' HP H; simpl in H.
  - now injection H as <-.
  - destruct (b_queue st) as [|current q] eqn:Eq; [discriminate|].
    destruct (relax _ _ _) as [[d' q']| |] eqn:Er; simpl in H;
      try discriminate.
    apply IH in H; auto. unfold bfs_core; simpl.
    apply (Hstep (bfs_core st)); auto.
    unfold bfs_core. rewrite Eq. now constructor.
Qed.

(** A batch of [n] nodes is [n] passes of the loop of the Kahn sorter. *)
Lemma bfs_level_kahn g : forall n sb sk,
  bfs_core sb = kahn_core sk ->
  (n <= length (b_queue sb))%nat ->
  match bfs_level n g sb with
  | Return sb' =>
      (length (b_result sb') = length (b_result sb) + n)%nat /\
      exists sk',
        bfs_core sb' = kahn_core sk' /\
        forall fuel, kahn_loop (n + fuel) g sk = kahn_loop fuel g sk'
  | Raise e => forall fuel, kahn_loop (n + fuel) g sk = Raise e
  | OutOfFuel => False
  end.
Proof.
  induction n as [|n IH]; intros sb sk Hcore Hlen; simpl bfs_level.
  - split; [lia|]. exists sk. auto.
  - unfold bfs_core, kahn_core in Hcore. injection Hcore as Hd Hq Hr.
    destruct (b_queue sb) as [|current q] eqn:Eq; [simpl in Hlen; lia|].
    destruct (relax (dict_get_default g current []) (b_in_degree sb) q)
      as [[d' q']| |] eqn:Er; simpl bind.
    + set (sb1 := mk_bfs _ _ _ _ _ _ _).
      set (sk1 := mk_kahn d' q' (k_result sk ++ [current])
                          (k_processed_nodes sk + 1)).
      assert (Hc1 : bfs_core sb1 = kahn_core sk1).
      { unfold bfs_core, kahn_core, sb1, sk1. simpl. now rewrite Hr. }
      assert (Hl1 : (n <= length (b_queue sb1))%nat).
      { apply relax_spec in Er as (_ & _ & new & -> & _). unfold sb1. simpl.
        rewrite length_app. simpl in Hlen. lia. }
      specialize (IH sb1 sk1 Hc1 Hl1).
      destruct (bfs_level n g sb1) as [sb'|e|]; auto.
      * destruct IH as (Hlen' & sk' & Hc' & Hk). split.
        -- rewrite Hlen'. unfold sb1. simpl. rewrite length_app. simpl. lia.
        -- exists sk'. split; auto. intros fuel. rewrite <- Hk.
           simpl. rewrite <- Hq, <- Hd, Er. reflexivity.
      * intros fuel. rewrite <- (IH fuel). simpl.
        rewrite <- Hq, <- Hd, Er. reflexivity.
    + intros fuel. simpl. now rewrite <- Hq, <- Hd, Er.
    + now apply relax_no_timeout in Er.
Qed.

(** The loop of the BFS sorter dequeues the nodes the loop of the Kahn
    sorter dequeues, in the same order. *)
Lemma bfs_loop_kahn g : forall fuelB sb sk,
  bfs_core sb = kahn_core sk ->
  match bfs_loop fuelB g sb with
  | Return sb' =>
      exists sk' n,
        bfs_core sb' = kahn_core sk' /\
        forall fuel, kahn_loop (n + fuel) g sk = Return sk'
  | Raise e => exists n, forall fuel, kahn_loop (n + fuel) g sk = Raise e
  | OutOfFuel => True
  end.
Proof.
  induction fuelB as [|fuelB IH]; intros sb sk Hcore.
  - simpl. destruct (b_queue sb) eqn:Eq; [|exact I].
    exists sk, 0%nat. split; auto. intros fuel.
    unfold bfs_core, kahn_core in Hcore. injection Hcore as _ Hq _.
    rewrite Eq in Hq. destruct fuel; simpl; now rewrite <- Hq.
  - simpl. destruct (b_queue sb) as [|current q] eqn:Eq.
    + exists sk, 0%nat. split; auto. intros fuel.
      unfold bfs_core, kahn_core in Hcore. injection Hcore as _ Hq _.
      rewrite Eq in Hq. destruct fuel; simpl; now rewrite <- Hq.
    + set (sb0 := mk_bfs _ _ _ _ _ _ _).
      assert (Hc0 : bfs_core sb0 = kahn_core sk).
      { rewrite <- Hcore. unfold bfs_core, sb0. simpl. now rewrite Eq. }
      pose proof (bfs_level_kahn g (length (current :: q)) sb0 sk Hc0) as Hl.
      destruct (bfs_level (length (current :: q)) g sb0) as [sb'|e|];
        simpl bind.
      * destruct Hl as (_ & sk' & Hc' & Hk); [unfold sb0; simpl; lia|].
        set (sb'' := mk_bfs _ _ _ _ _ _ _).
        assert (Hc'' : bfs_core sb'' = kahn_core sk') by exact Hc'.
        specialize (IH sb'' sk' Hc'').
        destruct (bfs_loop fuelB g sb'') as [sbF|e|]; auto.
        -- destruct IH as (skF & n & HcF & HkF).
           exists skF, (length (current :: q) + n)%nat. split; auto.
           intros fuel. rewrite <- Nat.add_assoc, Hk. apply HkF.
        -- destruct IH as (n & HkF).
           exists (length (current :: q) + n)%nat.
           intros fuel. rewrite <- Nat.add_assoc, Hk. apply HkF.
      * exists (length (current :: q)). apply Hl. unfold sb0. simpl. lia.
      * exact I.
Qed.

Lemma bfs_loop_terminates g : forall fuel st,
  queue_inv g (bfs_core st) ->
  (length (b_in_degree st) < fuel + length (b_result st))%nat ->
  bfs_loop fuel g st <> OutOfFuel.
Proof.
  induction fuel as [|fuel IH]; intros st Hinv Hlen.
  - simpl. destruct (b_queue st) eqn:Eq; [discriminate|].
    apply queue_inv_length in Hinv. rewrite Eq in Hinv. simpl in *. lia.
  - simpl. destruct (b_queue st) as [|current q] eqn:Eq; [discriminate|].
    set (sb0 := mk_bfs _ _ _ _ _ _ _).
    assert (Hinv0 : queue_inv g (bfs_core sb0)).
    { unfold bfs_core, sb0. simpl. unfold bfs_core in Hinv.
      now rewrite Eq in Hinv. }
    pose proof (bfs_level_kahn g (length (current :: q)) sb0
                  (mk_kahn (b_in_degree st) (current :: q) (b_result st) 0)
                  eq_refl (Nat.le_refl _)) as Hl.
    destruct (bfs_level (length (current :: q)) g sb0) as [sb'|e|] eqn:El;
      simpl bind; [|discriminate|destruct Hl].
    destruct Hl as (Hlen' & _).
    apply IH.
    + apply (bfs_level_steps (queue_inv g) g (step_queue_inv g)) in El; auto.
    + simpl.
      assert (Hk : dict_keys (b_in_degree sb') = dict_keys (b_in_degree st)).
      { apply (bfs_level_steps
                 (fun c => dict_keys (fst (fst c)) = dict_keys (b_in_degree st))
                 g) in El; auto.
        intros [[d1 q1] r1] [[d2 q2] r2] H1 H2. simpl in *.
        rewrite <- H1. eapply step_keys; eauto. }
      apply (f_equal (@length _)) in Hk. unfold dict_keys in Hk.
      rewrite !length_map in Hk. rewrite Hk, Hlen'. unfold sb0. simpl. lia.
Qed.

Lemma bfs_init_core g :
  bfs_core (fst (bfs_init g))
  = (fst (count_in_degrees g (init_in_degree g)),
     zero_in_degree (fst (count_in_degrees g (init_in_degree g))), []).
Proof.
  unfold bfs_init. destruct (count_in_degrees g (init_in_degree g)).
  reflexivity.
Qed.

Lemma bfs_fuel_eq g :
  bfs_fuel g = S (length (fst (count_in_degrees g (init_in_degree g)))).
Proof.
  unfold bfs_fuel, bfs_init.
  destruct (count_in_degrees g (init_in_degree g)). reflexivity.
Qed.

Lemma bfs_loop_steps (P : core -> Prop) g :
  (forall c c', P c -> step g c c' -> P c') ->
  forall fuel st st',
    P (bfs_core st) -> bfs_loop fuel g st = Return st' ->
    P (bfs_core st') /\ b_queue st' = [].
Proof.
  intros Hstep. induction fuel as [|fuel IH]; intros st st' HP H.
  - simpl in H. destruct (b_queue st) eqn:Eq; [|discriminate].
    injection H as <-. auto.
  - simpl in H. destruct (b_queue st) as [|current q] eqn:Eq.
    + injection H as <-. auto.
    + destruct (bfs_level _ _ _) as [sb'| |] eqn:El; simpl in H;
        try discriminate.
      apply IH in H; auto.
      apply (bfs_level_steps P g Hstep) in El; auto.
      unfold bfs_core. simpl. unfold bfs_core in HP. now rewrite Eq in HP.
Qed.

(** The loop of the BFS sorter ends, within the fuel the sorter gives it,
    in the state in which the loop of the Kahn sorter ends. *)
Lemma bfs_loop_final g :
  exists sb sk,
    bfs_loop (bfs_fuel g) g (fst (bfs_init g)) = Return sb /\
    kahn_loop (kahn_fuel g) g (fst (kahn_init g)) = Return sk /\
    bfs_core sb = kahn_core sk /\ b_queue sb = [] /\ loop_inv g (bfs_core sb).
Proof.
  destruct (kahn_loop_final g) as (sk & Hk & Hkq & Hkinv).
  pose proof (init_loop_inv g) as Hinit. cbv zeta in Hinit.
  rewrite <- bfs_init_core in Hinit.
  assert (Hcore : bfs_core (fst (bfs_init g)) = kahn_core (fst (kahn_init g))).
  { now rewrite bfs_init_core, kahn_init_core. }
  pose proof (bfs_loop_kahn g (bfs_fuel g) _ _ Hcore) as Hrel.
  assert (Hmore : forall n, kahn_loop (n + kahn_fuel g) g (fst (kahn_init g))
                            = Return sk).
  { intros n. rewrite Nat.add_comm, kahn_loop_more_fuel; auto.
    rewrite Hk. discriminate. }
  destruct (bfs_loop (bfs_fuel g) g (fst (bfs_init g))) as [sb|e|] eqn:E.
  - destruct Hrel as (sk' & n & Hc & Hn). specialize (Hn (kahn_fuel g)).
    rewrite Hmore in Hn. injection Hn as <-.
    destruct (bfs_loop_steps (loop_inv g) g (step_loop_inv g) _ _ _ Hinit E)
      as [Hinv Hq].
    exists sb, sk. split; [reflexivity|]. split; [assumption|].
    split; [assumption|]. split; assumption.
  - destruct Hrel as (n & Hn). specialize (Hn (kahn_fuel g)).
    rewrite Hmore in Hn. discriminate.
  - exfalso. eapply bfs_loop_terminates; [| |exact E]; [apply Hinit|].
    rewrite bfs_fuel_eq.
    assert (H : b_in_degree (fst (bfs_init g))
                = fst (count_in_degrees g (init_in_degree g))).
    { pose proof (bfs_init_core g) as Hc. unfold bfs_core in Hc.
      now injection Hc. }
    rewrite H. lia.
Qed.

Lemma bfs_sort_outcome g t0 t1 st :
  g <> [] ->
  bfs_loop (bfs_fuel g) g (fst (bfs_init g)) = Return st ->
  (length (b_result st) <> length (b_in_degree st) ->
   topological_sort_bfs t0 t1 g = Raise bfs_cycle_error)
  /\
  (length (b_result st) = length (b_in_degree st) ->
   exists metrics,
     topological_sort_bfs t0 t1 g = Return (b_result st, b_levels st, metrics)).
Proof.
  intros Hne Hloop. unfold topological_sort_bfs, topological_sort_bfs_fuel.
  destruct g as [|e g']; [congruence|].
  destruct (bfs_init (e :: g')) as [st0 ec] eqn:Ei. simpl fst in Hloop.
  rewrite Hloop. simpl bind. rewrite len_eqb. split; intros H.
  - apply Nat.eqb_neq in H. rewrite H. reflexivity.
  - apply Nat.eqb_eq in H. rewrite H. simpl. eauto.
Qed.

Lemma kahn_bfs_same_outcome (g : graph) (t0 t1 t0' t1' : float) :
  (exists remaining,
      topological_sort_kahn t0 t1 g = Raise (kahn_cycle_error remaining) /\
      topological_sort_bfs t0' t1' g = Raise bfs_cycle_error)
  \/
  (exists order kahn_metrics levels bfs_metrics,
      topological_sort_kahn t0 t1 g = Return (order, kahn_metrics) /\
      topological_sort_bfs t0' t1' g = Return (order, levels, bfs_metrics)).
Proof.
  destruct g as [|e g'] eqn:Eg.
  - right. eexists [], _, [], []. split; reflexivity.
  - rewrite <- Eg. assert (Hne : g <> []) by (rewrite Eg; discriminate).
    destruct (bfs_loop_final g) as (sb & sk & Hb & Hk & Hcore & _).
    unfold bfs_core, kahn_core in Hcore. injection Hcore as Hd Hq Hr.
    destruct (kahn_sort_outcome g t0 t1 sk Hne Hk) as [Hk1 Hk2].
    destruct (bfs_sort_outcome g t0' t1' sb Hne Hb) as [Hb1 Hb2].
    destruct (Nat.eq_dec (length (k_result sk)) (length (k_in_degree sk)))
      as [Hlen|Hlen].
    + right. destruct (Hk2 Hlen) as [mk Hmk].
      destruct Hb2 as [mb Hmb]; [now rewrite Hd, Hr|].
      exists (k_result sk), mk, (b_levels sb), mb. rewrite <- Hr at 2. auto.
    + left. eexists. split; [apply Hk1; assumption|].
      apply Hb1. now rewrite Hd, Hr.
Qed.

Lemma bfs_sorts g t0 t1 :
  dict_wf g -> acyclic g ->
  exists order levels metrics,
    topological_sort_bfs t0 t1 g = Return (order, levels, metrics) /\
    NoDup order /\ (forall x, In x order <-> In x (referenced g)) /\
    (forall u v, edge g u v -> precedes order u v).
Proof.
  intros Hwf Hac.
  destruct (kahn_sorts g t0 t1 Hwf Hac) as (order & mk & Hk & Hprops).
  destruct (kahn_bfs_same_outcome g t0 t1 t0 t1)
    as [(rem & Hk' & _)|(order' & mk' & levels & mb & Hk' & Hb)].
  - rewrite Hk in Hk'. discriminate.
  - rewrite Hk in Hk'. injection Hk' as <- <-.
    exists order, levels, mb. auto.
Qed.

(** C10. On every graph the Kahn sorter and the BFS sorter agree: both
    raise their cycle error, or both return, and then they return the same
    sequence of node ids; processing the queue in batches does not change
    the order in which nodes are dequeued. *)
Theorem kahn_bfs_agree (g : graph) (t0 t1 t0' t1' : float) :
  (exists remaining,
      topological_sort_kahn t0 t1 g = Raise (kahn_cycle_error remaining) /\
      topological_sort_bfs t0' t1' g = Raise bfs_cycle_error)
  \/
  (exists order kahn_metrics levels bfs_metrics,
      topological_sort_kahn t0 t1 g = Return (order, kahn_metrics) /\
      topological_sort_bfs t0' t1' g = Return (order, levels, bfs_metrics)).
Proof. apply kahn_bfs_same_outcome. Qed.

(* ================================================================= *)
(** * The DFS sorter *)

Lemma neighbors_edge g u v : In v (dict_get_default g u []) -> edge g u v.
Proof.
  unfold dict_get_default, edge. intros H. apply edges_in.
  destruct (dict_get g u) as [nbrs|] eqn:E; [|destruct H].
  exists nbrs. split; auto. clear H.
  induction g as [|[k n] g IH]; simpl in *; [discriminate|].
  destruct (String.eqb k u) eqn:Ek.
  - apply String.eqb_eq in Ek. injection E as ->. subst. now left.
  - right. auto.
Qed.

Lemma dict_get_entry {V : Type} (d : dict V) k v :
  dict_wf d -> In (k, v) d -> dict_get d k = Some v.
Proof.
  unfold dict_wf. induction d as [|[k' v'] d IH]; simpl; [tauto|].
  intros Hwf [Heq|Hin].
  - injection Heq as -> ->. now rewrite String.eqb_refl.
  - inversion Hwf as [|? ? Hnin Hnd]; subst.
    destruct (String.eqb k' k) eqn:E; auto.
    apply String.eqb_eq in E. subst. exfalso. apply Hnin.
    apply in_map_iff. exists (k, v). auto.
Qed.

Lemma edge_neighbors g u v :
  dict_wf g -> edge g u v -> In v (dict_get_default g u []).
Proof.
  intros Hwf He. apply edges_in in He as (nbrs & Hin & Hv).
  unfold dict_get_default. now rewrite (dict_get_entry g u nbrs Hwf Hin).
Qed.

Lemma set_remove_add (x : string) (s : set string) :
  ~ In x s -> set_remove string_dec x (set_add string_dec x s) = s.
Proof.
  induction s as [|a s IH]; simpl; intros H.
  - destruct (string_dec x x); congruence.
  - destruct (string_dec x a) as [->|Hne]; [tauto|]. simpl.
    destruct (string_dec x a); [congruence|]. rewrite IH; tauto.
Qed.

Lemma filter_length_le {A : Type} (f f' : A -> bool) (l : list A) :
  (forall x, In x l -> f' x = true -> f x = true) ->
  (length (filter f' l) <= length (filter f l))%nat.
Proof.
  induction l as [|a l IH]; simpl; intros H; [lia|].
  assert (IH' := IH (fun x Hx => H x (or_intror Hx))).
  destruct (f' a) eqn:E'.
  - rewrite (H a (or_introl eq_refl) E'). simpl. lia.
  - destruct (f a); simpl; lia.
Qed.

Lemma filter_length_lt {A : Type} (f f' : A -> bool) (l : list A) (a : A) :
  (forall x, In x l -> f' x = true -> f x = true) ->
  In a l -> f a = true -> f' a = false ->
  (length (filter f' l) < length (filter f l))%nat.
Proof.
  induction l as [|b l IH]; simpl; intros H Hin Hf Hf'; [tauto|].
  assert (Hle := filter_length_le f f' l (fun x Hx => H x (or_intror Hx))).
  destruct Hin as [->|Hin].
  - rewrite Hf, Hf'. simpl. lia.
  - assert (IH' := IH (fun x Hx => H x (or_intror Hx)) Hin Hf Hf').
    destruct (f' b) eqn:E'.
    + rewrite (H b (or_introl eq_refl) E'). simpl. lia.
    + destruct (f b); simpl; lia.
Qed.

Lemma unvisited_mono g st st' :
  (forall x, In x (d_visited st) -> In x (d_visited st')) ->
  (unvisited g st' <= unvisited g st)%nat.
Proof.
  intros H. unfold unvisited. apply filter_length_le. intros x _ Hx.
  apply negb_true_iff in Hx. apply negb_true_iff.
  apply set_mem_complete2. apply set_mem_complete1 in Hx.
  intros Hc. apply Hx. apply H. exact Hc.
Qed.

Lemma unvisited_add g st st' node :
  In node (referenced g) -> ~ In node (d_visited st) ->
  (forall x, In x (d_visited st') <-> x = node \/ In x (d_visited st)) ->
  (unvisited g st' < unvisited g st)%nat.
Proof.
  intros Hn Hv H. unfold unvisited. apply filter_length_lt with (a := node).
  - intros x _ Hx. apply negb_true_iff in Hx. apply negb_true_iff.
    apply set_mem_complete2. apply set_mem_complete1 in Hx.
    intros Hc. apply Hx. apply H. now right.
  - now apply nodup_In.
  - apply negb_true_iff. now apply set_mem_complete2.
  - apply negb_false_iff. apply set_mem_correct2. apply H. now left.
Qed.

Lemma unvisited_bound g st : (unvisited g st <= node_count g)%nat.
Proof.
  unfold unvisited, node_count.
  pose proof (filter_length_le (fun _ => true)
                (fun x => negb (set_mem string_dec x (d_visited st)))
                (nodup string_dec (referenced g)) (fun _ _ _ => eq_refl)) as H1.
  assert (H2 : filter (fun _ : string => true) (nodup string_dec (referenced g))
               = nodup string_dec (referenced g)).
  { apply forallb_filter_id. apply forallb_forall. auto. }
  rewrite H2 in H1. exact H1.
Qed.

Lemma dfs_post_weaken g (P Q : Prop) done st r :
  (P -> Q) -> dfs_post g P done st r -> dfs_post g Q done st r.
Proof.
  intros HPQ. destruct r as [st'|e|]; cbn [dfs_post]; auto.
  intros [H|[H1 H2]]; auto.
Qed.

Lemma dfs_neighbors_correct g bound rec :
  dfs_contract g bound rec ->
  forall nbrs st,
    dfs_inv g st ->
    (forall n, In n nbrs -> In n (referenced g)) ->
    (forall r n, In r (d_recursion_stack st) -> In n nbrs ->
                 clos_trans string (edge g) r n) ->
    dfs_post g (bound <= unvisited g st)%nat nbrs st (dfs_neighbors rec nbrs st).
Proof.
  intros Hrec. induction nbrs as [|n nbrs IH]; intros st Hinv Href Hpath.
  - simpl. split; [assumption|]. split; [reflexivity|].
    split; [intros x []|]. split; [|auto]. exists []. now rewrite app_nil_r.
  - cbn [dfs_neighbors].
    set (st0 := mk_dfs (d_visited st) (d_recursion_stack st) (d_result_stack st)
                       (d_operations st) (d_edge_count st + 1)).
    assert (H0 : dfs_post g (bound <= unvisited g st)%nat [n] st0 (rec n st0)).
    { apply (Hrec n st0).
      - exact Hinv.
      - apply Href. now left.
      - intros r Hr. apply Hpath; [exact Hr|now left]. }
    destruct (rec n st0) as [st1|e|]; cbn [bind].
    + destruct H0 as (Hinv1 & Hrs1 & Hdone1 & [s1 Hs1] & Hvis1).
      cbn [st0 d_recursion_stack d_result_stack d_visited] in Hrs1, Hs1, Hvis1.
      assert (H1 : dfs_post g (bound <= unvisited g st)%nat nbrs st1
                     (dfs_neighbors rec nbrs st1)).
      { apply dfs_post_weaken with (P := (bound <= unvisited g st1)%nat).
        - pose proof (unvisited_mono g st st1 Hvis1). lia.
        - apply IH.
          + exact Hinv1.
          + intros m Hm. apply Href. now right.
          + intros r m Hr Hm. rewrite Hrs1 in Hr.
            apply Hpath; [exact Hr|now right]. }
      destruct (dfs_neighbors rec nbrs st1) as [st2|e|]; [|exact H1|exact H1].
      destruct H1 as (Hinv2 & Hrs2 & Hdone2 & [s2 Hs2] & Hvis2).
      split; [exact Hinv2|]. split; [congruence|]. split; [|split].
      * intros x [<-|Hx]; [|auto]. rewrite Hs2. apply in_app_iff. left.
        apply Hdone1. now left.
      * exists (s1 ++ s2). now rewrite Hs2, Hs1, app_assoc.
      * auto.
    + exact H0.
    + exact H0.
Qed.

Lemma dfs_inv_enter g st node :
  dfs_inv g st -> In node (referenced g) -> ~ In node (d_visited st) ->
  dfs_inv g (mk_dfs (set_add string_dec node (d_visited st))
                    (set_add string_dec node (d_recursion_stack st))
                    (d_result_stack st) (d_operations st + 1)
                    (d_edge_count st)).
Proof.
  intros (Hnd & Hndr & Hvis & Hdisj & Hfin & Hsub) Href Hv.
  unfold dfs_inv. cbn [d_visited d_recursion_stack d_result_stack].
  split; [exact Hnd|]. split; [now apply set_add_nodup|].
  split; [|split; [|split]].
  - intros x. rewrite !set_add_iff, Hvis. tauto.
  - intros x Hx. apply set_add_iff in Hx as [->|Hx]; [|auto].
    intros Hc. apply Hv. apply Hvis. now right.
  - exact Hfin.
  - intros x Hx. apply set_add_iff in Hx as [->|Hx]; auto.
Qed.

Lemma dfs_inv_leave g st node :
  dict_wf g -> dfs_inv g st -> In node (d_recursion_stack st) ->
  (forall x, In x (dict_get_default g node []) -> In x (d_result_stack st)) ->
  dfs_inv g (mk_dfs (d_visited st)
                    (set_remove string_dec node (d_recursion_stack st))
                    (d_result_stack st ++ [node]) (d_operations st + 1)
                    (d_edge_count st)).
Proof.
  intros Hwf (Hnd & Hndr & Hvis & Hdisj & Hfin & Hsub) Hrs Hnbrs.
  unfold dfs_inv. cbn [d_visited d_recursion_stack d_result_stack].
  split; [|split; [|split; [|split; [|split]]]].
  - apply NoDup_app; [exact Hnd|constructor; [simpl; tauto|constructor]|].
    intros x Hx [Heq|[]]. subst x. exact (Hdisj node Hrs Hx).
  - now apply set_remove_nodup.
  - intros x. rewrite Hvis, set_remove_iff, in_app_iff by assumption.
    simpl. destruct (string_dec x node) as [->|Hne]; [tauto|].
    split; [tauto|]. intros [[H _]|[H|[H|[]]]]; auto. congruence.
  - intros x Hx. apply set_remove_iff in Hx as [Hx Hne]; [|assumption].
    intros Hc. apply in_app_iff in Hc as [Hc|[Hc|[]]]; [|congruence].
    exact (Hdisj x Hx Hc).
  - intros u v He Hu. apply in_app_iff in Hu as [Hu|[<-|[]]].
    + apply precedes_app_r. auto.
    + apply precedes_last. apply Hnbrs. now apply edge_neighbors.
  - exact Hsub.
Qed.

Lemma dfs_correct g : dict_wf g -> forall limit, dfs_contract g limit (dfs limit g).
Proof.
  intros Hwf. induction limit as [|limit IH]; intros node st Hinv Href Hpath.
  - right. split; [reflexivity|lia].
  - cbn [dfs].
    destruct (set_mem string_dec node (d_recursion_stack st)) eqn:Ers.
    { apply set_mem_correct1 in Ers. left. exists node. split; [reflexivity|].
      apply Hpath. exact Ers. }
    apply set_mem_complete1 in Ers.
    destruct (set_mem string_dec node (d_visited st)) eqn:Ev.
    { apply set_mem_correct1 in Ev.
      split; [assumption|]. split; [reflexivity|]. split; [|split].
      - intros x [<-|[]]. destruct Hinv as (_ & _ & Hv & _).
        apply Hv in Ev as [H|H]; [contradiction|assumption].
      - exists []. now rewrite app_nil_r.
      - auto. }
    apply set_mem_complete1 in Ev.
    set (st1 := mk_dfs (set_add string_dec node (d_visited st))
                       (set_add string_dec node (d_recursion_stack st))
                       (d_result_stack st) (d_operations st + 1)
                       (d_edge_count st)).
    assert (Hinv1 : dfs_inv g st1) by now apply dfs_inv_enter.
    assert (Hlt1 : (unvisited g st1 < unvisited g st)%nat).
    { apply unvisited_add with (node := node); auto.
      intros x. unfold st1. cbn [d_visited]. apply set_add_iff. }
    assert (Hn : dfs_post g (S limit <= unvisited g st)%nat
                   (dict_get_default g node []) st1
                   (dfs_neighbors (dfs limit g) (dict_get_default g node []) st1)).
    { apply dfs_post_weaken with (P := (limit <= unvisited g st1)%nat); [lia|].
      apply dfs_neighbors_correct with (bound := limit); auto.
      - intros n Hn. apply neighbors_edge in Hn.
        now apply edges_referenced in Hn.
      - intros r n Hr Hn. apply neighbors_edge in Hn.
        unfold st1 in Hr. cbn [d_recursion_stack] in Hr.
        apply set_add_iff in Hr as [->|Hr].
        + now apply t_step.
        + apply t_trans with (y := node); [now apply Hpath|now apply t_step]. }
    destruct (dfs_neighbors (dfs limit g) (dict_get_default g node []) st1)
      as [st2|e|]; cbn [bind]; [|exact Hn|exact Hn].
    destruct Hn as (Hinv2 & Hrs2 & Hdone2 & [s2 Hs2] & Hvis2).
    unfold st1 in Hrs2, Hs2, Hvis2.
    cbn [d_recursion_stack d_result_stack d_visited] in Hrs2, Hs2, Hvis2.
    assert (Hin2 : In node (d_recursion_stack st2)).
    { rewrite Hrs2. apply set_add_iff. now left. }
    rewrite (set_mem_correct2 string_dec _ _ Hin2).
    split; [now apply dfs_inv_leave|]. cbn [d_recursion_stack d_result_stack d_visited].
    split; [|split; [|split]].
    + rewrite Hrs2. now apply set_remove_add.
    + intros x [<-|[]]. apply in_app_iff. right. now left.
    + exists (s2 ++ [node]). now rewrite Hs2, app_assoc.
    + intros x Hx. apply Hvis2. apply set_add_iff. now right.
Qed.

Lemma dfs_roots_correct g limit :
  dict_wf g ->
  forall roots st,
    dfs_inv g st -> d_recursion_stack st = [] ->
    (forall x, In x roots -> In x (referenced g)) ->
    dfs_post g (limit <= unvisited g st)%nat roots st (dfs_roots limit g roots st).
Proof.
  intros Hwf. induction roots as [|node roots IH]; intros st Hinv Hrs Href.
  - simpl. split; [assumption|]. split; [reflexivity|].
    split; [intros x []|]. split; [|auto]. exists []. now rewrite app_nil_r.
  - cbn [dfs_roots].
    destruct (set_mem string_dec node (d_visited st)) eqn:Ev.
    + apply set_mem_correct1 in Ev.
      assert (H : dfs_post g (limit <= unvisited g st)%nat roots st
                    (dfs_roots limit g roots st)).
      { apply IH; auto. intros x Hx. apply Href. now right. }
      destruct (dfs_roots limit g roots st) as [st'|e|]; [|exact H|exact H].
      destruct H as (Hinv' & Hrs' & Hdone' & [s Hs] & Hvis').
      split; [assumption|]. split; [assumption|]. split; [|split; auto].
      * intros x [<-|Hx]; [|auto]. rewrite Hs. apply in_app_iff. left.
        destruct Hinv as (_ & _ & Hv & _). apply Hv in Ev as [Hc|Hc]; auto.
        rewrite Hrs in Hc. destruct Hc.
      * now exists s.
    + assert (H0 : dfs_post g (limit <= unvisited g st)%nat [node] st
                     (dfs limit g node st)).
      { apply (dfs_correct g Hwf limit); auto.
        - apply Href. now left.
        - intros r Hr. rewrite Hrs in Hr. destruct Hr. }
      destruct (dfs limit g node st) as [st1|e|]; cbn [bind];
        [|exact H0|exact H0].
      destruct H0 as (Hinv1 & Hrs1 & Hdone1 & [s1 Hs1] & Hvis1).
      assert (H1 : dfs_post g (limit <= unvisited g st)%nat roots st1
                     (dfs_roots limit g roots st1)).
      { apply dfs_post_weaken with (P := (limit <= unvisited g st1)%nat).
        - pose proof (unvisited_mono g st st1 Hvis1). lia.
        - apply IH; auto.
          + congruence.
          + intros x Hx. apply Href. now right. }
      destruct (dfs_roots limit g roots st1) as [st2|e|]; [|exact H1|exact H1].
      destruct H1 as (Hinv2 & Hrs2 & Hdone2 & [s2 Hs2] & Hvis2).
      split; [exact Hinv2|]. split; [congruence|]. split; [|split].
      * intros x [<-|Hx]; [|auto]. rewrite Hs2. apply in_app_iff. left.
        apply Hdone1. now left.
      * exists (s1 ++ s2). now rewrite Hs2, Hs1, app_assoc.
      * auto.
Qed.

Lemma dfs_init_inv g : dfs_inv g dfs_init.
Proof.
  unfold dfs_inv, dfs_init. simpl.
  split; [constructor|]. split; [constructor|]. repeat split; tauto.
Qed.

Lemma precedes_rev order u v : precedes order v u -> precedes (rev order) u v.
Proof.
  intros (l1 & l2 & l3 & ->). exists (rev l3), (rev l2), (rev l1).
  rewrite rev_app_distr. simpl. rewrite rev_app_distr. simpl.
  now rewrite <- !app_assoc.
Qed.

Lemma dfs_sort_unfold limit g t0 t1 :
  g <> [] ->
  match dfs_roots limit g (dict_keys g) dfs_init with
  | Return st =>
      exists metrics,
        topological_sort_dfs limit t0 t1 g
        = Return (rev (d_result_stack st), metrics)
  | Raise e => topological_sort_dfs limit t0 t1 g = Raise e
  | OutOfFuel => topological_sort_dfs limit t0 t1 g = OutOfFuel
  end.
Proof.
  intros Hne. unfold topological_sort_dfs.
  destruct g as [|e g']; [congruence|].
  destruct (dfs_roots _ _ _ _); cbn [bind]; eauto.
Qed.

(** What the DFS sorter does, whatever the recursion limit: it raises its
    cycle error on a node that lies on a cycle, or returns every node the
    graph mentions once, each before its successors, or raises
    [RecursionError]; the last only when the limit leaves no more frames
    than the graph has nodes. *)
Lemma dfs_sort_outcome limit g t0 t1 :
  dict_wf g ->
  (exists n,
      topological_sort_dfs limit t0 t1 g = Raise (dfs_cycle_error n) /\
      on_cycle g n)
  \/
  (exists order metrics,
      topological_sort_dfs limit t0 t1 g = Return (order, metrics) /\
      NoDup order /\ (forall x, In x order <-> In x (referenced g)) /\
      (forall u v, edge g u v -> precedes order u v))
  \/
  (topological_sort_dfs limit t0 t1 g = Raise RecursionError /\
   (limit <= node_count g)%nat).
Proof.
  intros Hwf. destruct g as [|e g'] eqn:Eg.
  - right. left. eexists [], _. split; [reflexivity|]. split; [constructor|].
    split; [tauto|]. intros u v [].
  - rewrite <- Eg in *.
    assert (Hrun : dfs_post g (limit <= node_count g)%nat (dict_keys g) dfs_init
                     (dfs_roots limit g (dict_keys g) dfs_init)).
    { apply dfs_post_weaken with (P := (limit <= unvisited g dfs_init)%nat).
      - pose proof (unvisited_bound g dfs_init). lia.
      - apply dfs_roots_correct; auto using dfs_init_inv.
        intros x Hx. unfold referenced. apply in_app_iff. now left. }
    assert (Hne : g <> []) by (rewrite Eg; discriminate).
    pose proof (dfs_sort_unfold limit g t0 t1 Hne) as Hsort.
    destruct (dfs_roots limit g (dict_keys g) dfs_init) as [st|e'|].
    + right. left. destruct Hrun as (Hinv & Hrs & Hdone & _ & _).
      destruct Hinv as (Hnd & _ & Hvis & _ & Hfin & Hsub).
      destruct Hsort as [metrics Hsort].
      eexists _, _. split; [exact Hsort|]. split; [|split].
      * now apply NoDup_rev.
      * intros x. rewrite <- in_rev. split.
        -- intros Hx. apply Hsub. apply Hvis. now right.
        -- intros Hx. unfold referenced in Hx. apply in_app_iff in Hx as [Hx|Hx].
           ++ auto.
           ++ apply in_concat in Hx as (nbrs & Hn & Hx).
              apply in_map_iff in Hn as ([u nbrs'] & Heq & Hin).
              simpl in Heq. subst nbrs'.
              assert (He : edge g u x).
              { apply edges_in. exists nbrs. auto. }
              assert (Hu : In u (d_result_stack st)).
              { apply Hdone. eapply edge_source_key; eauto. }
              destruct (Hfin u x He Hu) as (l1 & l2 & l3 & ->).
              apply in_app_iff. right. now left.
      * intros u v He. apply precedes_rev. apply Hfin; auto.
        apply Hdone. eapply edge_source_key; eauto.
    + destruct Hrun as [(n & -> & Hc)|[-> Hle]].
      * left. exists n. auto.
      * right. right. auto.
    + destruct Hrun.
Qed.

(** With more frames than the graph has nodes, the DFS sorter returns on
    every acyclic graph. *)
Lemma dfs_sorts limit g t0 t1 :
  dict_wf g -> acyclic g -> (node_count g < limit)%nat ->
  exists order metrics,
    topological_sort_dfs limit t0 t1 g = Return (order, metrics) /\
    NoDup order /\ (forall x, In x order <-> In x (referenced g)) /\
    (forall u v, edge g u v -> precedes order u v).
Proof.
  intros Hwf Hac Hlim.
  destruct (dfs_sort_outcome limit g t0 t1 Hwf) as [(n & _ & Hc)|[H|[_ Hle]]].
  - destruct (Hac n Hc).
  - exact H.
  - lia.
Qed.

(** C1, as the code has it. On an acyclic graph the Kahn sorter and the
    BFS sorter return an order, and the validator accepts that order: it
    returns valid = true.  The DFS sorter does the same when the recursion
    limit leaves its nested calls more frames than the graph has nodes;
    whatever the limit, it returns such an order or raises
    [RecursionError], the latter only when the limit leaves no more frames
    than the graph has nodes. *)
Theorem sorters_valid (g : graph) (limit : nat) (t0 t1 : float) :
  dict_wf g -> acyclic g ->
  (exists order metrics msg,
      topological_sort_kahn t0 t1 g = Return (order, metrics) /\
      validate_topological_order g order = Return (true, msg))
  /\
  ((node_count g < limit)%nat ->
   exists order metrics msg,
     topological_sort_dfs limit t0 t1 g = Return (order, metrics) /\
     validate_topological_order g order = Return (true, msg))
  /\
  ((exists order metrics msg,
       topological_sort_dfs limit t0 t1 g = Return (order, metrics) /\
       validate_topological_order g order = Return (true, msg))
   \/
   (topological_sort_dfs limit t0 t1 g = Raise RecursionError /\
    (limit <= node_count g)%nat))
  /\
  (exists order levels metrics msg,
      topological_sort_bfs t0 t1 g = Return (order, levels, metrics) /\
      validate_topological_order g order = Return (true, msg)).
Proof.
  intros Hwf Hac. split; [|split; [|split]].
  - destruct (kahn_sorts g t0 t1 Hwf Hac) as (order & m & Hs & Hnd & _ & Hp).
    destruct (validate_sorted g order Hnd Hp) as [msg Hv].
    exists order, m, msg. auto.
  - intros Hlim.
    destruct (dfs_sorts limit g t0 t1 Hwf Hac Hlim)
      as (order & m & Hs & Hnd & _ & Hp).
    destruct (validate_sorted g order Hnd Hp) as [msg Hv].
    exists order, m, msg. auto.
  - destruct (dfs_sort_outcome limit g t0 t1 Hwf)
      as [(n & _ & Hc)|[(order & m & Hs & Hnd & _ & Hp)|H]].
    + destruct (Hac n Hc).
    + destruct (validate_sorted g order Hnd Hp) as [msg Hv].
      left. exists order, m, msg. auto.
    + right. exact H.
  - destruct (bfs_sorts g t0 t1 Hwf Hac) as (order & l & m & Hs & Hnd & _ & Hp).
    destruct (validate_sorted g order Hnd Hp) as [msg Hv].
    exists order, l, m, msg. auto.
Qed.

(** A graph whose edges all climb a rank is acyclic. *)
Lemma ranked_acyclic g (rank : string -> Z) :
  forallb (fun '(u, v) => rank u <? rank v) (edges g) = true -> acyclic g.
Proof.
  intros H. rewrite forallb_forall in H.
  assert (Hlt : forall x y, clos_trans string (edge g) x y -> rank x < rank y).
  { intros x y Hxy. induction Hxy as [x y He|x y z _ IH1 _ IH2]; [|lia].
    specialize (H (x, y) He). simpl in H. lia. }
  intros x Hx. apply Hlt in Hx. lia.
Qed.

Lemma sorters_valid_witness :
  dict_wf diamond /\ acyclic diamond /\
  (exists order metrics msg,
      topological_sort_kahn 0 1 diamond = Return (order, metrics) /\
      validate_topological_order diamond order = Return (true, msg))
  /\
  (exists order metrics msg,
      topological_sort_dfs 1000 0 1 diamond = Return (order, metrics) /\
      validate_topological_order diamond order = Return (true, msg))
  /\
  (exists order levels metrics msg,
      topological_sort_bfs 0 1 diamond = Return (order, levels, metrics) /\
      validate_topological_order diamond order = Return (true, msg)).
Proof.
  assert (Hwf : dict_wf diamond).
  { unfold dict_wf. simpl. repeat constructor; simpl; intuition discriminate. }
  assert (Hac : acyclic diamond).
  { apply (ranked_acyclic diamond
             (fun x => dict_get_default [("A", 0); ("B", 1); ("C", 2); ("D", 3)] x 0)).
    reflexivity. }
  assert (Hlim : (node_count diamond < 1000)%nat)
    by (apply Nat.ltb_lt; vm_compute; reflexivity).
  split; [exact Hwf|]. split; [exact Hac|].
  destruct (sorters_valid diamond 1000 0 1 Hwf Hac) as (HK & HD & _ & HB).
  split; [exact HK|]. split; [exact (HD Hlim)|exact HB].
Defined.

Lemma distinct_NoDup (l : list string) : distinct l = true -> NoDup l.
Proof.
  induction l as [|x l IH]; cbn [distinct]; intros H; [constructor|].
  apply andb_true_iff in H as [Hx Hl]. constructor; [|auto].
  intros Hin. apply negb_true_iff in Hx.
  assert (Hex : existsb (String.eqb x) l = true).
  { apply existsb_exists. exists x. split; [exact Hin|apply String.eqb_refl]. }
  congruence.
Qed.

(** A call of [dfs] on the first node of a path of new nodes, longer than
    the frames left, that [dfs] goes straight down runs out of frames. *)
Lemma dfs_overflow g : forall limit node rest st,
  (limit <= length rest)%nat ->
  descends g (node :: rest) = true ->
  distinct (node :: rest) = true ->
  (forall x, In x (node :: rest) ->
             ~ In x (d_visited st) /\ ~ In x (d_recursion_stack st)) ->
  dfs limit g node st = Raise RecursionError.
Proof.
  induction limit as [|limit IH]; intros node rest st Hlen Hd Hnd Hnew;
    [reflexivity|].
  destruct rest as [|v rest]; [simpl in Hlen; lia|].
  cbn [descends] in Hd. apply andb_true_iff in Hd as [Hfirst Hd].
  destruct (dict_get_default g node []) as [|w ws] eqn:En; [discriminate|].
  apply String.eqb_eq in Hfirst. subst w.
  cbn [distinct] in Hnd. apply andb_true_iff in Hnd as [Hx Hnd].
  apply negb_true_iff in Hx.
  destruct (Hnew node (or_introl eq_refl)) as [Hv Hs].
  cbn [dfs]. rewrite (set_mem_complete2 string_dec _ _ Hs).
  rewrite (set_mem_complete2 string_dec _ _ Hv). rewrite En.
  cbn [dfs_neighbors]. rewrite IH with (rest := rest); [reflexivity| | | |].
  - simpl in Hlen. lia.
  - exact Hd.
  - exact Hnd.
  - intros x Hin. cbn [d_visited d_recursion_stack].
    assert (Hne : x <> node).
    { intros ->. assert (Hex : existsb (String.eqb node) (v :: rest) = true).
      { apply existsb_exists. exists node. split; [exact Hin|apply String.eqb_refl]. }
      congruence. }
    destruct (Hnew x (or_intror Hin)) as [Hv' Hs'].
    rewrite !set_add_iff. tauto.
Qed.

(** The DFS sorter raises [RecursionError] on a graph whose first key
    starts such a path. *)
Lemma dfs_sort_overflow limit t0 t1 g node rest others :
  dict_keys g = node :: others ->
  (limit <= length rest)%nat ->
  descends g (node :: rest) = true ->
  distinct (node :: rest) = true ->
  topological_sort_dfs limit t0 t1 g = Raise RecursionError.
Proof.
  intros Hk Hlen Hd Hnd. unfold topological_sort_dfs.
  destruct g as [|e g']; [discriminate|]. rewrite Hk. cbn [dfs_roots].
  cbn [dfs_init d_visited set_mem].
  rewrite (dfs_overflow _ limit node rest); auto.
Qed.

(** C1 as stated fails for the DFS sorter: the chain of 1000 nodes is
    acyclic, and where the recursion limit leaves the calls of [dfs] 999
    frames (the default limit of 1000 leaves fewer than 1000) the DFS
    sorter raises [RecursionError] on it instead of returning an order. *)
Lemma sorters_valid_counterexample :
  dict_wf (chain 1000) /\ acyclic (chain 1000) /\
  topological_sort_dfs 999 0 1 (chain 1000) = Raise RecursionError.
Proof.
  split; [|split].
  - apply distinct_NoDup. vm_compute. reflexivity.
  - pose (tbl := combine (map chain_node (seq 0 1000))
                         (map Z.of_nat (seq 0 1000))).
    apply (ranked_acyclic (chain 1000) (fun x => dict_get_default tbl x 0)).
    vm_compute. reflexivity.
  - apply dfs_sort_overflow
      with (node := chain_node 0) (rest := map chain_node (seq 1 999))
           (others := map chain_node (seq 1 999)).
    + vm_compute. reflexivity.
    + apply Nat.leb_le. vm_compute. reflexivity.
    + vm_compute. reflexivity.
    + vm_compute. reflexivity.
Qed.

(* ================================================================= *)
(** * The length of the returned order *)

Lemma nodup_same_length (l l' : list string) :
  NoDup l -> (forall x, In x l <-> In x l') ->
  length l = length (nodup string_dec l').
Proof.
  intros Hnd H. apply Permutation_length. apply NoDup_Permutation; auto.
  - apply NoDup_nodup.
  - intros x. rewrite nodup_In. apply H.
Qed.

Lemma loop_inv_tracked g d q r :
  loop_inv g (d, q, r) ->
  length d = length (nodup string_dec (referenced g)).
Proof.
  intros (_ & Hk & _). simpl in Hk.
  destruct (in_degree_table_spec g) as (Hwf0 & Hk0 & _).
  rewrite <- (length_map fst d). fold (dict_keys d). rewrite Hk.
  apply nodup_same_length; auto.
Qed.

Lemma kahn_order_length g t0 t1 order metrics :
  topological_sort_kahn t0 t1 g = Return (order, metrics) ->
  length order = length (nodup string_dec (referenced g)).
Proof.
  intros H. destruct g as [|e g'] eqn:Eg.
  - injection H as <- _. reflexivity.
  - rewrite <- Eg in *. assert (Hne : g <> []) by (rewrite Eg; discriminate).
    destruct (kahn_loop_final g) as (st & Hloop & Hq & Hinv).
    destruct (kahn_sort_outcome g t0 t1 st Hne Hloop) as [H1 H2].
    destruct (Nat.eq_dec (length (k_result st)) (length (k_in_degree st)))
      as [Hlen|Hlen].
    + destruct (H2 Hlen) as [m Hm]. rewrite Hm in H. injection H as <- _.
      rewrite Hlen. eapply loop_inv_tracked. exact Hinv.
    + rewrite (H1 Hlen) in H. discriminate.
Qed.

Lemma bfs_order_length g t0 t1 order levels metrics :
  topological_sort_bfs t0 t1 g = Return (order, levels, metrics) ->
  length order = length (nodup string_dec (referenced g)).
Proof.
  intros H.
  destruct (kahn_bfs_same_outcome g t0 t1 t0 t1)
    as [(rem & _ & Hb)|(order' & mk & levels' & mb & Hk & Hb)].
  - rewrite Hb in H. discriminate.
  - rewrite Hb in H. injection H as <- _ _.
    eapply kahn_order_length. exact Hk.
Qed.

Lemma dfs_order_length limit g t0 t1 order metrics :
  dict_wf g ->
  topological_sort_dfs limit t0 t1 g = Return (order, metrics) ->
  length order = length (nodup string_dec (referenced g)).
Proof.
  intros Hwf H.
  destruct (dfs_sort_outcome limit g t0 t1 Hwf)
    as [(n & Hr & _)|[(order' & m & Hs & Hnd & Hin & _)|[Hr _]]].
  - rewrite Hr in H. discriminate.
  - rewrite Hs in H. injection H as <- _. now apply nodup_same_length.
  - rewrite Hr in H. discriminate.
Qed.

Lemma closed_graph_nodes (g : graph) :
  dict_wf g -> (forall x, In x (targets g) -> In x (dict_keys g)) ->
  length (nodup string_dec (referenced g)) = length g.
Proof.
  intros Hwf Hclosed. rewrite <- (length_map fst g). fold (dict_keys g).
  symmetry. apply nodup_same_length; auto.
  intros x. unfold referenced. rewrite in_app_iff. split; [tauto|].
  intros [H|H]; auto.
Qed.

(** C2, as the code has it. When a sorter succeeds on a graph, the length
    of the returned order is the number of distinct node ids the graph
    mentions, as keys or as successors; a successor that is not a key is
    sorted as a node of its own.  That number is the number of keys when
    every successor is also a key. *)
Theorem order_length (g : graph) (t0 t1 : float) :
  dict_wf g ->
  (forall order metrics,
      topological_sort_kahn t0 t1 g = Return (order, metrics) ->
      length order = length (nodup string_dec (referenced g)))
  /\
  (forall limit order metrics,
      topological_sort_dfs limit t0 t1 g = Return (order, metrics) ->
      length order = length (nodup string_dec (referenced g)))
  /\
  (forall order levels metrics,
      topological_sort_bfs t0 t1 g = Return (order, levels, metrics) ->
      length order = length (nodup string_dec (referenced g)))
  /\
  ((forall x, In x (targets g) -> In x (dict_keys g)) ->
   length (nodup string_dec (referenced g)) = length (dict_keys g)).
Proof.
  intros Hwf. split; [|split; [|split]].
  - intros order metrics. apply kahn_order_length.
  - intros limit order metrics. now apply dfs_order_length.
  - intros order levels metrics. apply bfs_order_length.
  - intros Hc. unfold dict_keys. rewrite length_map.
    now apply closed_graph_nodes.
Qed.

Lemma order_length_witness :
  dict_wf diamond /\
  forall limit order metrics,
    topological_sort_dfs limit 0 1 diamond = Return (order, metrics) ->
    length order = length (nodup string_dec (referenced diamond)).
Proof.
  assert (Hwf : dict_wf diamond).
  { unfold dict_wf. simpl. repeat constructor; simpl; intuition discriminate. }
  split; [exact Hwf|].
  exact (proj1 (proj2 (order_length diamond 0 1 Hwf))).
Defined.

(** C2 as stated fails: on [{"A": ["B"]}] the Kahn sorter succeeds and
    returns two nodes, and the graph has one key. *)
Lemma order_length_counterexample :
  exists order metrics,
    topological_sort_kahn 0 1 [("A", ["B"])] = Return (order, metrics) /\
    length order = 2%nat /\
    length (nodup string_dec (dict_keys [("A", ["B"])])) = 1%nat.
Proof. eexists _, _. split; [reflexivity|]. split; reflexivity. Qed.

(* ================================================================= *)
(** * Cycle errors *)

Lemma kahn_error_remaining g t0 t1 e :
  topological_sort_kahn t0 t1 g = Raise e ->
  exists st remaining,
    kahn_loop (kahn_fuel g) g (fst (kahn_init g)) = Return st /\
    e = kahn_cycle_error remaining /\
    forall x, In x remaining <-> In x (referenced g) /\ ~ In x (k_result st).
Proof.
  intros H. destruct g as [|e0 g'] eqn:Eg; [discriminate|].
  rewrite <- Eg in *. assert (Hne : g <> []) by (rewrite Eg; discriminate).
  destruct (kahn_loop_final g) as (st & Hloop & Hq & Hinv).
  destruct (kahn_sort_outcome g t0 t1 st Hne Hloop) as [H1 H2].
  destruct (Nat.eq_dec (length (k_result st)) (length (k_in_degree st)))
    as [Hlen|Hlen].
  - destruct (H2 Hlen) as [m Hm]. rewrite Hm in H. discriminate.
  - rewrite (H1 Hlen) in H. injection H as <-.
    exists st, (set_diff string_dec (dict_keys (k_in_degree st)) (k_result st)).
    split; [assumption|]. split; [reflexivity|].
    intros x. rewrite set_diff_iff.
    destruct Hinv as (_ & Hk & _). unfold kahn_core in Hk. simpl in Hk.
    rewrite Hk. destruct (in_degree_table_spec g) as (_ & Hk0 & _).
    now rewrite Hk0.
Qed.

Lemma bfs_error_fixed g t0 t1 e :
  topological_sort_bfs t0 t1 g = Raise e -> e = bfs_cycle_error.
Proof.
  intros H.
  destruct (kahn_bfs_same_outcome g t0 t1 t0 t1)
    as [(rem & _ & Hb)|(order' & mk & levels' & mb & _ & Hb)];
    rewrite Hb in H; [now injection H|discriminate].
Qed.

Lemma dfs_error_on_cycle limit g t0 t1 e :
  dict_wf g -> topological_sort_dfs limit t0 t1 g = Raise e ->
  (exists n, e = dfs_cycle_error n /\ on_cycle g n) \/
  (e = RecursionError /\ (limit <= node_count g)%nat).
Proof.
  intros Hwf H.
  destruct (dfs_sort_outcome limit g t0 t1 Hwf)
    as [(n & Hr & Hc)|[(order' & m & Hs & _)|[Hr Hle]]].
  - rewrite Hr in H. injection H as <-. eauto.
  - rewrite Hs in H. discriminate.
  - rewrite Hr in H. injection H as <-. auto.
Qed.

(** A call of [dfs] that returns leaves the recursion stack as it found
    it. *)
Lemma dfs_neighbors_stack (rec : string -> dfs_state -> outcome dfs_state) :
  (forall node st st',
      rec node st = Return st' -> d_recursion_stack st' = d_recursion_stack st) ->
  forall nbrs st st',
    dfs_neighbors rec nbrs st = Return st' ->
    d_recursion_stack st' = d_recursion_stack st.
Proof.
  intros Hrec. induction nbrs as [|n nbrs IH]; intros st st' H.
  - injection H as <-. reflexivity.
  - cbn [dfs_neighbors] in H.
    set (st0 := mk_dfs _ _ _ _ _) in H.
    destruct (rec n st0) as [st1|e|] eqn:E; cbn [bind] in H; try discriminate.
    rewrite (IH _ _ H). now rewrite (Hrec _ _ _ E).
Qed.

Lemma dfs_stack g : forall limit node st st',
  dfs limit g node st = Return st' ->
  d_recursion_stack st' = d_recursion_stack st.
Proof.
  induction limit as [|limit IH]; intros node st st' H; [discriminate|].
  cbn [dfs] in H.
  destruct (set_mem string_dec node (d_recursion_stack st)) eqn:Ers;
    [discriminate|].
  apply set_mem_complete1 in Ers.
  destruct (set_mem string_dec node (d_visited st)); [now injection H as <-|].
  set (st1 := mk_dfs _ _ _ _ _) in H.
  destruct (dfs_neighbors (dfs limit g) (dict_get_default g node []) st1)
    as [st2|e|] eqn:E; cbn [bind] in H; try discriminate.
  apply (dfs_neighbors_stack _ IH) in E. cbn [st1 d_recursion_stack] in E.
  destruct (set_mem string_dec node (d_recursion_stack st2)); [|discriminate].
  injection H as <-. cbn [d_recursion_stack]. rewrite E.
  now apply set_remove_add.
Qed.

Lemma dfs_roots_stack g limit : forall roots st st',
  dfs_roots limit g roots st = Return st' ->
  d_recursion_stack st' = d_recursion_stack st.
Proof.
  induction roots as [|node roots IH]; intros st st' H.
  - injection H as <-. reflexivity.
  - cbn [dfs_roots] in H.
    destruct (set_mem string_dec node (d_visited st)); [now apply IH|].
    destruct (dfs limit g node st) as [st1|e|] eqn:E; cbn [bind] in H;
      try discriminate.
    rewrite (IH _ _ H). exact (dfs_stack g _ _ _ _ E).
Qed.

(** The call that raises in a loop over successors: the loop has returned
    from the successors before it. *)
Lemma dfs_neighbors_raise (rec : string -> dfs_state -> outcome dfs_state) :
  forall nbrs st e,
    dfs_neighbors rec nbrs st = Raise e ->
    exists before nb after st_b,
      nbrs = before ++ nb :: after /\
      dfs_neighbors rec before st = Return st_b /\
      rec nb (dfs_counting st_b) = Raise e.
Proof.
  induction nbrs as [|n nbrs IH]; intros st e H; [discriminate|].
  cbn [dfs_neighbors] in H. fold (dfs_counting st) in H.
  destruct (rec n (dfs_counting st)) as [st1|e0|] eqn:E; cbn [bind] in H;
    try discriminate.
  - destruct (IH _ _ H) as (before & nb & after & st_b & -> & Hb & Hr).
    exists (n :: before), nb, after, st_b. split; [reflexivity|].
    split; [|exact Hr]. cbn [dfs_neighbors]. fold (dfs_counting st).
    now rewrite E.
  - injection H as <-. exists [], n, nbrs, st. auto.
Qed.

Lemma dfs_roots_raise g limit : forall roots st e,
  dfs_roots limit g roots st = Raise e ->
  exists before root after st0,
    roots = before ++ root :: after /\
    dfs_roots limit g before st = Return st0 /\
    ~ In root (d_visited st0) /\
    dfs limit g root st0 = Raise e.
Proof.
  induction roots as [|node roots IH]; intros st e H; [discriminate|].
  cbn [dfs_roots] in H.
  destruct (set_mem string_dec node (d_visited st)) eqn:Ev.
  - destruct (IH _ _ H) as (before & root & after & st0 & -> & Hb & Hv & Hr).
    exists (node :: before), root, after, st0. split; [reflexivity|].
    split; [|auto]. cbn [dfs_roots]. now rewrite Ev.
  - destruct (dfs limit g node st) as [st1|e0|] eqn:E; cbn [bind] in H;
      try discriminate.
    + destruct (IH _ _ H) as (before & root & after & st0 & -> & Hb & Hv & Hr).
      exists (node :: before), root, after, st0. split; [reflexivity|].
      split; [|auto]. cbn [dfs_roots]. now rewrite Ev, E.
    + injection H as <-. exists [], node, roots, st. split; [reflexivity|].
      split; [reflexivity|]. split; [|exact E].
      now apply set_mem_complete1 in Ev.
Qed.

(** When [dfs] raises its cycle error, the error names the node [n] of a
    call [dfs(n)] that the run made, and [n] was on the recursion stack
    when that call was made. *)
Lemma dfs_raise_call g : forall limit node st msg,
  dfs limit g node st = Raise (ValueError msg) ->
  exists n path frames st',
    msg = [Lit "Cycle detected involving node: "; Lit n] /\
    calls g limit node st path frames n st' /\
    In n (d_recursion_stack st').
Proof.
  induction limit as [|limit IH]; intros node st msg H; [discriminate|].
  cbn [dfs] in H.
  destruct (set_mem string_dec node (d_recursion_stack st)) eqn:Ers.
  { apply set_mem_correct1 in Ers. injection H as <-.
    exists node, [], (S limit), st. split; [reflexivity|].
    split; [constructor|exact Ers]. }
  apply set_mem_complete1 in Ers.
  destruct (set_mem string_dec node (d_visited st)) eqn:Ev; [discriminate|].
  apply set_mem_complete1 in Ev.
  fold (dfs_entered node st) in H.
  destruct (dfs_neighbors (dfs limit g) (dict_get_default g node [])
              (dfs_entered node st)) as [st2|e|] eqn:E; cbn [bind] in H.
  - destruct (set_mem string_dec node (d_recursion_stack st2)); discriminate.
  - injection H as ->.
    destruct (dfs_neighbors_raise _ _ _ _ E)
      as (before & nb & after & st_b & Hnbrs & Hb & Hr).
    destruct (IH _ _ _ Hr) as (n & path & frames & st' & Hmsg & Hcalls & Hin).
    exists n, (node :: path), frames, st'. split; [exact Hmsg|].
    split; [|exact Hin].
    now apply calls_below with (before := before) (nb := nb) (after := after)
                               (st_b := st_b).
  - discriminate.
Qed.

(** The recursion stack at a call holds the stack the first call started
    with and the nodes of the calls in progress. *)
Lemma calls_stack g limit node st path limit' node' st' :
  calls g limit node st path limit' node' st' ->
  forall x, In x (d_recursion_stack st') <->
            In x (d_recursion_stack st) \/ In x path.
Proof.
  induction 1 as [limit node st
                 |limit node st before nb after st_b path limit' node' st'
                    Hrs Hv Hnbrs Hb Hcalls IH].
  - intros x. simpl. tauto.
  - assert (Hsb : d_recursion_stack st_b
                  = set_add string_dec node (d_recursion_stack st)).
    { exact (dfs_neighbors_stack _ (dfs_stack g limit) _ _ _ Hb). }
    intros x. rewrite IH. cbn [dfs_counting d_recursion_stack].
    rewrite Hsb, set_add_iff. simpl. split.
    + intros [[->|Hx]|Hx]; auto.
    + intros [Hx|[<-|Hx]]; auto.
Qed.

(** The cycle error of the DFS sorter names the node [n] of a call
    [dfs(n)] made, through the calls of [path], from a call on a key of the
    graph, while [n] was on the recursion stack, which holds the nodes of
    [path]. *)
Lemma dfs_sort_raise_call limit g t0 t1 msg :
  topological_sort_dfs limit t0 t1 g = Raise (ValueError msg) ->
  exists n root st0 path frames st,
    msg = [Lit "Cycle detected involving node: "; Lit n] /\
    root_call g limit root st0 /\
    calls g limit root st0 path frames n st /\
    (forall x, In x (d_recursion_stack st) <-> In x path) /\
    In n path.
Proof.
  intros H. unfold topological_sort_dfs in H.
  destruct g as [|e0 g'] eqn:Eg; [discriminate|]. rewrite <- Eg in *.
  destruct (dfs_roots limit g (dict_keys g) dfs_init) as [st|e|] eqn:E;
    cbn [bind] in H; try discriminate.
  injection H as ->.
  destruct (dfs_roots_raise g limit _ _ _ E)
    as (before & root & after & st0 & Hk & Hb & Hv & Hr).
  destruct (dfs_raise_call g _ _ _ _ Hr)
    as (n & path & frames & st & Hmsg & Hcalls & Hin).
  assert (Hs0 : d_recursion_stack st0 = []).
  { exact (dfs_roots_stack g limit _ _ _ Hb). }
  assert (Hstack : forall x, In x (d_recursion_stack st) <-> In x path).
  { intros x. rewrite (calls_stack _ _ _ _ _ _ _ _ Hcalls x), Hs0. simpl. tauto. }
  exists n, root, st0, path, frames, st. split; [exact Hmsg|].
  split; [exists before, after; auto|]. split; [exact Hcalls|].
  split; [exact Hstack|]. now apply Hstack.
Qed.

(** With more frames the DFS sorter does the same, unless it had run out
    of frames. *)
Lemma dfs_neighbors_more_frames
  (rec rec' : string -> dfs_state -> outcome dfs_state) :
  (forall node st,
      rec node st <> Raise RecursionError -> rec' node st = rec node st) ->
  forall nbrs st,
    dfs_neighbors rec nbrs st <> Raise RecursionError ->
    dfs_neighbors rec' nbrs st = dfs_neighbors rec nbrs st.
Proof.
  intros Hrec. induction nbrs as [|n nbrs IH]; intros st H; [reflexivity|].
  cbn [dfs_neighbors] in *.
  set (st0 := mk_dfs _ _ _ _ _) in *.
  destruct (rec n st0) as [st1|e|] eqn:E.
  - rewrite Hrec by (rewrite E; discriminate). rewrite E. cbn [bind] in *. auto.
  - cbn [bind] in H. rewrite Hrec by (rewrite E; exact H). now rewrite E.
  - rewrite Hrec by (rewrite E; discriminate). now rewrite E.
Qed.

Lemma dfs_more_frames g : forall limit extra node st,
  dfs limit g node st <> Raise RecursionError ->
  dfs (limit + extra) g node st = dfs limit g node st.
Proof.
  induction limit as [|limit IH]; intros extra node st H.
  - simpl in H. congruence.
  - cbn [Nat.add dfs] in *.
    destruct (set_mem string_dec node (d_recursion_stack st)); auto.
    destruct (set_mem string_dec node (d_visited st)); auto.
    set (st1 := mk_dfs _ _ _ _ _) in *.
    assert (Hn : dfs_neighbors (dfs limit g) (dict_get_default g node []) st1
                 <> Raise RecursionError).
    { intros Hc. rewrite Hc in H. cbn [bind] in H. congruence. }
    rewrite (dfs_neighbors_more_frames (dfs limit g) (dfs (limit + extra) g)
               (fun n s => IH extra n s) _ _ Hn).
    reflexivity.
Qed.

Lemma dfs_roots_more_frames g limit extra : forall roots st,
  dfs_roots limit g roots st <> Raise RecursionError ->
  dfs_roots (limit + extra) g roots st = dfs_roots limit g roots st.
Proof.
  induction roots as [|node roots IH]; intros st H; [reflexivity|].
  cbn [dfs_roots] in *.
  destruct (set_mem string_dec node (d_visited st)); auto.
  destruct (dfs limit g node st) as [st1|e|] eqn:E.
  - rewrite dfs_more_frames by (rewrite E; discriminate). rewrite E.
    cbn [bind] in *. auto.
  - cbn [bind] in H. rewrite dfs_more_frames by (rewrite E; exact H).
    now rewrite E.
  - rewrite dfs_more_frames by (rewrite E; discriminate). now rewrite E.
Qed.

Lemma dfs_sort_more_frames limit extra t0 t1 g :
  topological_sort_dfs limit t0 t1 g <> Raise RecursionError ->
  topological_sort_dfs (limit + extra) t0 t1 g
  = topological_sort_dfs limit t0 t1 g.
Proof.
  intros H. unfold topological_sort_dfs in *.
  destruct g as [|e g']; [reflexivity|].
  rewrite dfs_roots_more_frames; [reflexivity|].
  intros Hc. apply H. now rewrite Hc.
Qed.

Lemma append_empty (s : string) : (s ++ "")%string = s.
Proof. induction s as [|c s IH]; simpl; [reflexivity|now rewrite IH]. Qed.

(** C3, as the code has it. The error of the Kahn sorter carries the set of
    the nodes that were never dequeued: the node ids of the graph that are
    not in the result when the loop ends.  The cycle error of the DFS
    sorter names one node, ["Cycle detected involving node: n"]: the run
    made the call [dfs(n)], through the nested calls of [path], from the
    call on a key of the graph, at a time when [n] was on the recursion
    stack; that stack holds the nodes of [path], the calls in progress, so
    [n] was found on the active recursion path, and it lies on a cycle of
    the graph.  The error of the BFS sorter is a fixed message and carries
    no node. *)
Theorem cycle_error_context (g : graph) (t0 t1 : float) :
  dict_wf g ->
  (forall e,
      topological_sort_kahn t0 t1 g = Raise e ->
      exists st remaining,
        kahn_loop (kahn_fuel g) g (fst (kahn_init g)) = Return st /\
        e = kahn_cycle_error remaining /\
        carries_nodes e remaining /\
        forall x, In x remaining <-> In x (referenced g) /\ ~ In x (k_result st))
  /\
  (forall limit msg,
      topological_sort_dfs limit t0 t1 g = Raise (ValueError msg) ->
      exists n root st0 path frames st,
        msg = [Lit "Cycle detected involving node: "; Lit n] /\
        render msg = Some ("Cycle detected involving node: " ++ n)%string /\
        root_call g limit root st0 /\
        calls g limit root st0 path frames n st /\
        (forall x, In x (d_recursion_stack st) <-> In x path) /\
        In n path /\
        on_cycle g n)
  /\
  (forall e,
      topological_sort_bfs t0 t1 g = Raise e ->
      e = bfs_cycle_error /\ forall s, ~ carries_nodes e s).
Proof.
  intros Hwf. split; [|split].
  - intros e H. apply kahn_error_remaining in H as (st & rem & H1 & -> & H3).
    exists st, rem. repeat split; try apply H3; auto.
    simpl. right. now left.
  - intros limit msg H.
    destruct (dfs_sort_raise_call limit g t0 t1 msg H)
      as (n & root & st0 & path & frames & st & -> & Hroot & Hcalls & Hstack & Hin).
    exists n, root, st0, path, frames, st. split; [reflexivity|]. split.
    { cbn [render option_map]. now rewrite append_empty. }
    split; [exact Hroot|]. split; [exact Hcalls|]. split; [exact Hstack|].
    split; [exact Hin|].
    destruct (dfs_error_on_cycle limit g t0 t1 _ Hwf H)
      as [(n' & He & Hc)|[He _]]; [|discriminate].
    injection He as <-. exact Hc.
  - intros e H. apply bfs_error_fixed in H. subst e. split; [reflexivity|].
    intros s [H|[]]. discriminate.
Qed.

Lemma cycle_error_context_witness :
  dict_wf cycle3 /\
  exists n root st0 path frames st,
    topological_sort_dfs 1000 0 1 cycle3
    = Raise (ValueError [Lit "Cycle detected involving node: "; Lit n]) /\
    root_call cycle3 1000 root st0 /\
    calls cycle3 1000 root st0 path frames n st /\
    In n path /\
    on_cycle cycle3 n.
Proof.
  assert (Hwf : dict_wf cycle3).
  { unfold dict_wf. simpl. repeat constructor; simpl; intuition discriminate. }
  split; [exact Hwf|].
  assert (H : topological_sort_dfs 1000 0 1 cycle3
              = Raise (ValueError [Lit "Cycle detected involving node: "; Lit "A"]))
    by (vm_compute; reflexivity).
  destruct (proj1 (proj2 (cycle_error_context cycle3 0 1 Hwf)) 1000%nat _ H)
    as (n & root & st0 & path & frames & st
        & Hmsg & _ & Hroot & Hcalls & _ & Hin & Hc).
  injection Hmsg as <-.
  exists "A"%string, root, st0, path, frames, st. auto.
Defined.

(** C3 as stated fails for the BFS sorter: on the 3-cycle it raises an
    error whose message holds no set of nodes. *)
Lemma cycle_error_counterexample :
  exists e,
    topological_sort_bfs 0 1 cycle3 = Raise e /\
    forall s, ~ carries_nodes e s.
Proof.
  exists bfs_cycle_error. split; [reflexivity|].
  intros s [H|[]]. discriminate.
Qed.

(** C4. On the 3-cycle [A -> B -> C -> A] the three sorters raise their
    cycle error instead of returning an order, and on the self-loop
    [A -> A] the DFS sorter raises its cycle error with a message that
    cites [A].  The DFS sorter meets [A] again in its fourth nested call
    on the 3-cycle and in its second on the self-loop: it raises its
    cycle error where the recursion limit leaves it that many frames, and
    [RecursionError] where it leaves fewer, so it returns an order in no
    case. *)
Theorem cycle_rejection (t0 t1 : float) :
  (exists remaining,
      topological_sort_kahn t0 t1 cycle3 = Raise (kahn_cycle_error remaining) /\
      forall x, In x remaining <-> In x ["A"; "B"; "C"])
  /\ (forall limit,
        (3 < limit)%nat ->
        topological_sort_dfs limit t0 t1 cycle3 = Raise (dfs_cycle_error "A"))
  /\ topological_sort_bfs t0 t1 cycle3 = Raise bfs_cycle_error
  /\ (forall limit,
        (1 < limit)%nat ->
        exists msg,
          topological_sort_dfs limit t0 t1 self_loop = Raise (ValueError msg) /\
          render msg = Some "Cycle detected involving node: A"%string)
  /\ (forall limit,
        (limit <= 3)%nat ->
        topological_sort_dfs limit t0 t1 cycle3 = Raise RecursionError)
  /\ (forall limit,
        (limit <= 1)%nat ->
        topological_sort_dfs limit t0 t1 self_loop = Raise RecursionError).
Proof.
  split; [|split; [|split; [|split; [|split]]]].
  - exists ["C"; "B"; "A"]. split; [reflexivity|]. intros x. simpl. tauto.
  - intros limit Hlim. replace limit with (4 + (limit - 4))%nat by lia.
    rewrite dfs_sort_more_frames; [reflexivity|discriminate].
  - reflexivity.
  - intros limit Hlim. replace limit with (2 + (limit - 2))%nat by lia.
    exists [Lit "Cycle detected involving node: "; Lit "A"].
    split; [|reflexivity].
    rewrite dfs_sort_more_frames; [reflexivity|discriminate].
  - intros limit Hlim.
    destruct limit as [|[|[|[|limit]]]]; try reflexivity. lia.
  - intros limit Hlim.
    destruct limit as [|[|limit]]; try reflexivity. lia.
Qed.

Lemma cycle_rejection_witness :
  (3 < 1000)%nat /\
  topological_sort_dfs 1000 0 1 cycle3 = Raise (dfs_cycle_error "A") /\
  exists msg,
    topological_sort_dfs 1000 0 1 self_loop = Raise (ValueError msg) /\
    render msg = Some "Cycle detected involving node: A"%string.
Proof.
  assert (Hlim : (3 < 1000)%nat) by (apply Nat.ltb_lt; vm_compute; reflexivity).
  assert (Hlim' : (1 < 1000)%nat) by (apply Nat.ltb_lt; vm_compute; reflexivity).
  split; [exact Hlim|].
  destruct (cycle_rejection 0 1) as (_ & HD & _ & HS & _).
  split; [exact (HD 1000%nat Hlim)|exact (HS 1000%nat Hlim')].
Defined.

(* ================================================================= *)
(** * Metrics *)

Lemma bfs_metrics_nonempty g t0 t1 order levels metrics :
  g <> [] ->
  topological_sort_bfs t0 t1 g = Return (order, levels, metrics) ->
  dict_keys metrics = core_fields ++ ["max_level"; "max_queue_size"].
Proof.
  intros Hne H. unfold topological_sort_bfs, topological_sort_bfs_fuel in H.
  destruct g as [|e g']; [congruence|].
  destruct (bfs_init (e :: g')) as [st0 ec].
  destruct (bfs_loop _ _ _) as [st| |]; cbn [bind] in H; try discriminate.
  destruct (negb _); [discriminate|]. injection H as _ _ <-. reflexivity.
Qed.

(** C7 fails on the empty graph. On a non-empty graph on which the BFS
    sorter returns, the metrics record has the six core fields followed by
    [max_level] and [max_queue_size].  On the empty graph the BFS sorter
    returns an empty order and empty levels without raising, but its metrics
    record is empty too, where the Kahn sorter and the DFS sorter return a
    record with the core fields. *)
Theorem bfs_metrics_fields (t0 t1 : float) :
  (forall g order levels metrics,
      g <> [] ->
      topological_sort_bfs t0 t1 g = Return (order, levels, metrics) ->
      dict_keys metrics = core_fields ++ ["max_level"; "max_queue_size"])
  /\
  (topological_sort_bfs t0 t1 [] = Return ([], [], []) /\
   forall field, dict_get ([] : dict pyval) field = None)
  /\
  (exists metrics,
      topological_sort_kahn t0 t1 [] = Return ([], metrics) /\
      dict_keys metrics = core_fields)
  /\
  (forall limit, exists metrics,
      topological_sort_dfs limit t0 t1 [] = Return ([], metrics) /\
      dict_keys metrics = core_fields ++ ["recursion_depth"]).
Proof.
  split; [|split; [|split]].
  - intros g order levels metrics. apply bfs_metrics_nonempty.
  - split; reflexivity.
  - eexists. split; reflexivity.
  - intros limit. eexists. split; reflexivity.
Qed.

Lemma same_untimed_cons x x' (m : dict pyval) :
  same_untimed (("execution_time_ms"%string, x) :: m)
               (("execution_time_ms"%string, x') :: m).
Proof.
  split; [reflexivity|]. intros field Hf. cbn [dict_get].
  destruct (String.eqb_spec "execution_time_ms" field); congruence.
Qed.

Lemma same_untimed_refl (m : dict pyval) : same_untimed m m.
Proof. split; reflexivity. Qed.

Lemma kahn_deterministic g t0 t1 t0' t1' :
  same_outcome (fun r r' => fst r = fst r' /\ same_untimed (snd r) (snd r'))
    (topological_sort_kahn t0 t1 g) (topological_sort_kahn t0' t1' g).
Proof.
  unfold topological_sort_kahn, topological_sort_kahn_fuel.
  destruct g as [|e g'].
  - simpl. split; [reflexivity|apply same_untimed_refl].
  - destruct (kahn_init (e :: g')) as [st0 ec].
    destruct (kahn_loop _ _ _) as [st|err|]; cbn [bind same_outcome]; auto.
    destruct (negb _); cbn [same_outcome]; auto.
    split; [reflexivity|apply same_untimed_cons].
Qed.

Lemma dfs_deterministic limit g t0 t1 t0' t1' :
  same_outcome (fun r r' => fst r = fst r' /\ same_untimed (snd r) (snd r'))
    (topological_sort_dfs limit t0 t1 g) (topological_sort_dfs limit t0' t1' g).
Proof.
  unfold topological_sort_dfs.
  destruct g as [|e g'].
  - simpl. split; [reflexivity|apply same_untimed_refl].
  - destruct (dfs_roots _ _ _ _) as [st|err|]; cbn [bind same_outcome]; auto.
    split; [reflexivity|apply same_untimed_cons].
Qed.

Lemma bfs_deterministic g t0 t1 t0' t1' :
  same_outcome
    (fun r r' => fst (fst r) = fst (fst r') /\ snd (fst r) = snd (fst r') /\
                 same_untimed (snd r) (snd r'))
    (topological_sort_bfs t0 t1 g) (topological_sort_bfs t0' t1' g).
Proof.
  unfold topological_sort_bfs, topological_sort_bfs_fuel.
  destruct g as [|e g'].
  - simpl. split; [reflexivity|]. split; [reflexivity|apply same_untimed_refl].
  - destruct (bfs_init (e :: g')) as [st0 ec].
    destruct (bfs_loop _ _ _) as [st|err|]; cbn [bind same_outcome]; auto.
    destruct (negb _); cbn [same_outcome]; auto.
    split; [reflexivity|]. split; [reflexivity|apply same_untimed_cons].
Qed.

(** C8. Each sorter is deterministic. A call reads its graph and two
    readings of the clock, so two calls on the same graph differ at most in
    their clock readings: they end alike, with the same error or with the
    same order, the same levels (BFS), and metrics records that have the
    same fields and agree on every field but [execution_time_ms]. *)
Theorem sorters_deterministic (g : graph) (t0 t1 t0' t1' : float) :
  same_outcome (fun r r' => fst r = fst r' /\ same_untimed (snd r) (snd r'))
    (topological_sort_kahn t0 t1 g) (topological_sort_kahn t0' t1' g)
  /\
  (forall limit,
      same_outcome (fun r r' => fst r = fst r' /\ same_untimed (snd r) (snd r'))
        (topological_sort_dfs limit t0 t1 g)
        (topological_sort_dfs limit t0' t1' g))
  /\
  same_outcome
    (fun r r' => fst (fst r) = fst (fst r') /\ snd (fst r) = snd (fst r') /\
                 same_untimed (snd r) (snd r'))
    (topological_sort_bfs t0 t1 g) (topological_sort_bfs t0' t1' g).
Proof.
  split; [apply kahn_deterministic|].
  split; [intros limit; apply dfs_deterministic|apply bfs_deterministic].
Qed.

(* ================================================================= *)
(** * The levels of the BFS sorter *)

Lemma bfs_loop_unfold fuel g st :
  bfs_loop (S fuel) g st
  = match b_queue st with
    | [] => Return st
    | _ :: _ => st' <- bfs_batch g st ;; bfs_loop fuel g st'
    end.
Proof.
  cbn [bfs_loop]. destruct (b_queue st) as [|c q] eqn:Eq; [reflexivity|].
  unfold bfs_batch. rewrite Eq.
  destruct (bfs_level _ _ _); reflexivity.
Qed.

Lemma relax_prefix nbrs : forall d p q,
  relax nbrs d (p ++ q)
  = r <- relax nbrs d q ;; Return (fst r, p ++ snd r).
Proof.
  induction nbrs as [|n nbrs IH]; intros d p q; simpl; [reflexivity|].
  destruct (dict_get d n) as [x|]; [|reflexivity].
  destruct (x - 1 =? 0).
  - rewrite <- app_assoc. apply IH.
  - apply IH.
Qed.

Lemma levels_fold_get batch : forall (lv : dict Z) k node,
  dict_get (fold_left (fun lv n => dict_set lv n k) batch lv) node
  = if in_dec string_dec node batch then Some k else dict_get lv node.
Proof.
  induction batch as [|b batch IH]; intros lv k node; simpl; [reflexivity|].
  rewrite IH. destruct (in_dec string_dec node batch) as [Hin|Hnin].
  - destruct (string_dec b node); reflexivity.
  - destruct (string_dec b node) as [->|Hne].
    + apply dict_get_set_eq.
    + now apply dict_get_set_neq.
Qed.

Lemma bfs_level_spec g : forall batch st rest acc,
  b_queue st = batch ++ rest ++ acc ->
  match bfs_level (length batch) g st,
        batch_relax g batch (b_in_degree st) acc with
  | Return st', Return (d', new) =>
      b_in_degree st' = d' /\ b_queue st' = rest ++ new /\
      b_result st' = b_result st ++ batch /\
      b_levels st'
      = fold_left (fun lv n => dict_set lv n (b_current_level st)) batch
                  (b_levels st) /\
      b_current_level st' = b_current_level st /\
      b_max_queue_size st' = b_max_queue_size st
  | Raise e, Raise e' => e = e'
  | _, _ => False
  end.
Proof.
  induction batch as [|current batch IH]; intros st rest acc Hq.
  - simpl in *. rewrite app_nil_r. repeat split; auto.
  - cbn [length bfs_level batch_relax]. rewrite Hq. cbn [app].
    rewrite app_assoc, relax_prefix.
    destruct (relax (dict_get_default g current []) (b_in_degree st) acc)
      as [[d1 acc1]| |] eqn:Er; cbn [bind fst snd].
    + set (st1 := mk_bfs _ _ _ _ _ _ _).
      specialize (IH st1 rest acc1).
      assert (Hq1 : b_queue st1 = batch ++ rest ++ acc1).
      { unfold st1. cbn [b_queue]. now rewrite app_assoc. }
      specialize (IH Hq1).
      replace (b_in_degree st1) with d1 in IH by reflexivity.
      destruct (bfs_level (length batch) g st1) as [st'|e|];
        destruct (batch_relax g batch d1 acc1) as [[d' new]|e'|]; auto.
      destruct IH as (H1 & H2 & H3 & H4 & H5 & H6).
      unfold st1 in H3, H4, H5, H6.
      cbn [b_result b_levels b_current_level b_max_queue_size] in H3, H4, H5, H6.
      repeat split; auto. rewrite H3. now rewrite <- app_assoc.
    + reflexivity.
    + now apply relax_no_timeout in Er.
Qed.

Lemma bfs_batch_spec g st st' :
  bfs_batch g st = Return st' ->
  batch_relax g (b_queue st) (b_in_degree st) []
  = Return (b_in_degree st', b_queue st') /\
  b_result st' = b_result st ++ b_queue st /\
  b_levels st'
  = fold_left (fun lv n => dict_set lv n (b_current_level st)) (b_queue st)
              (b_levels st) /\
  b_current_level st' = b_current_level st + 1.
Proof.
  unfold bfs_batch. intros H.
  set (st0 := mk_bfs _ _ _ _ _ _ _) in H.
  pose proof (bfs_level_spec g (b_queue st) st0 [] []) as Hs.
  replace (b_in_degree st0) with (b_in_degree st) in Hs by reflexivity.
  destruct (bfs_level (length (b_queue st)) g st0) as [st1|e|];
    cbn [bind] in H; try discriminate.
  injection H as <-. cbn [b_in_degree b_queue b_result b_levels b_current_level].
  destruct (batch_relax g (b_queue st) (b_in_degree st) []) as [[d' new]|e|].
  - destruct Hs as (H1 & H2 & H3 & H4 & H5 & _).
    { unfold st0. cbn [b_queue]. now rewrite !app_nil_r. }
    simpl in H2. unfold st0 in H3, H4, H5.
    cbn [b_result b_levels b_current_level] in H3, H4, H5.
    rewrite H1, H2, H3, H4, H5. auto.
  - destruct Hs. unfold st0. cbn [b_queue]. now rewrite !app_nil_r.
  - destruct Hs. unfold st0. cbn [b_queue]. now rewrite !app_nil_r.
Qed.

Lemma bfs_batch_steps (P : core -> Prop) g :
  (forall c c', P c -> step g c c' -> P c') ->
  forall st st', P (bfs_core st) -> bfs_batch g st = Return st' ->
                 P (bfs_core st').
Proof.
  intros Hstep st st' HP H. unfold bfs_batch in H.
  destruct (bfs_level _ _ _) as [st1|e|] eqn:El; cbn [bind] in H;
    try discriminate.
  injection H as <-.
  apply (bfs_level_steps P g Hstep) in El; auto.
Qed.

Lemma bfs_loop_levels g : forall fuel st st',
  queue_inv g (bfs_core st) -> bfs_loop fuel g st = Return st' ->
  b_result st' = b_result st ++ concat (bfs_batches fuel g st) /\
  (forall node, In node (b_result st) ->
                dict_get (b_levels st') node = dict_get (b_levels st) node) /\
  (forall k batch node,
      nth_error (bfs_batches fuel g st) k = Some batch -> In node batch ->
      dict_get (b_levels st') node = Some (b_current_level st + Z.of_nat k)).
Proof.
  induction fuel as [|fuel IH]; intros st st' Hinv H.
  - simpl in *. destruct (b_queue st); [|discriminate]. injection H as <-.
    rewrite app_nil_r. repeat split; auto. intros [|k] batch node Hk; discriminate.
  - rewrite bfs_loop_unfold in H. cbn [bfs_batches].
    destruct (b_queue st) as [|c q] eqn:Eq.
    + injection H as <-. rewrite app_nil_r. repeat split; auto.
      intros [|k] batch node Hk; discriminate.
    + destruct (bfs_batch g st) as [st1|e|] eqn:Eb; cbn [bind] in H;
        try discriminate.
      assert (Hinv1 : queue_inv g (bfs_core st1)).
      { eapply (bfs_batch_steps (queue_inv g)); eauto using step_queue_inv. }
      destruct (bfs_batch_spec g st st1 Eb) as (_ & Hr1 & Hl1 & Hc1).
      rewrite Eq in Hr1, Hl1.
      destruct (IH st1 st' Hinv1 H) as (Hr & Hold & Hnew).
      assert (Hnd : NoDup (b_result st ++ c :: q)).
      { unfold bfs_core in Hinv. rewrite Eq in Hinv. apply Hinv. }
      split; [|split].
      * rewrite Hr, Hr1. cbn [concat]. now rewrite <- app_assoc.
      * intros node Hn. rewrite Hold by (rewrite Hr1; apply in_app_iff; now left).
        rewrite Hl1, levels_fold_get.
        destruct (in_dec string_dec node (c :: q)) as [Hc|]; [|reflexivity].
        exfalso. clear - Hnd Hn Hc.
        induction (b_result st) as [|a r IHr]; [destruct Hn|].
        inversion Hnd as [|? ? Ha Hnd']; subst. destruct Hn as [->|Hn]; auto.
        apply Ha. apply in_app_iff. now right.
      * intros [|k] batch node Hk Hn.
        -- injection Hk as <-.
           rewrite Hold by (rewrite Hr1; apply in_app_iff; now right).
           rewrite Hl1, levels_fold_get.
           destruct (in_dec string_dec node (c :: q)); [|contradiction].
           f_equal. simpl. lia.
        -- cbn [nth_error] in Hk. rewrite (Hnew k batch node Hk Hn), Hc1.
           f_equal. lia.
Qed.

Lemma bfs_init_fields g :
  b_result (fst (bfs_init g)) = [] /\ b_current_level (fst (bfs_init g)) = 0.
Proof.
  unfold bfs_init. destruct (count_in_degrees g (init_in_degree g)).
  split; reflexivity.
Qed.

Lemma bfs_levels_of_batches g t0 t1 order levels metrics :
  topological_sort_bfs t0 t1 g = Return (order, levels, metrics) ->
  order = concat (bfs_batches (bfs_fuel g) g (fst (bfs_init g))) /\
  forall k batch node,
    nth_error (bfs_batches (bfs_fuel g) g (fst (bfs_init g))) k = Some batch ->
    In node batch -> dict_get levels node = Some (Z.of_nat k).
Proof.
  intros H. destruct g as [|e g'] eqn:Eg.
  - injection H as <- <- _. split; [reflexivity|].
    intros [|k] batch node Hk; discriminate.
  - rewrite <- Eg in *. assert (Hne : g <> []) by (rewrite Eg; discriminate).
    destruct (bfs_loop_final g) as (sb & sk & Hb & _ & _ & _ & _).
    destruct (bfs_sort_outcome g t0 t1 sb Hne Hb) as [H1 H2].
    destruct (Nat.eq_dec (length (b_result sb)) (length (b_in_degree sb)))
      as [Hlen|Hlen]; [|rewrite (H1 Hlen) in H; discriminate].
    destruct (H2 Hlen) as [m Hm]. rewrite Hm in H. injection H as <- <- _.
    pose proof (init_queue_inv g) as Hinit. cbv zeta in Hinit.
    rewrite <- bfs_init_core in Hinit.
    destruct (bfs_loop_levels g _ _ _ Hinit Hb) as (Hr & _ & Hl).
    destruct (bfs_init_fields g) as [Hr0 Hc0]. rewrite Hr0 in Hr.
    split; [exact Hr|]. intros k batch node Hk Hn.
    rewrite (Hl k batch node Hk Hn), Hc0. reflexivity.
Qed.

(** C6. Every pass of the loop of the BFS sorter dequeues the nodes that
    were in the queue when the pass began, batch [k], and gives each of
    them level [k]; the successors whose in-degree reaches 0 during the
    pass are what the queue holds when the pass ends, so they are dequeued
    in batch [k+1] and not before.  In the levels the sorter returns, a node
    of batch [k] has level [k].  On the diamond graph the levels are
    [A: 0, B: 1, C: 1, D: 2]. *)
Theorem bfs_levels (g : graph) (t0 t1 : float) :
  (forall st st',
      bfs_batch g st = Return st' ->
      b_result st' = b_result st ++ b_queue st /\
      (forall node, In node (b_queue st) ->
                    dict_get (b_levels st') node = Some (b_current_level st)) /\
      b_current_level st' = b_current_level st + 1 /\
      batch_relax g (b_queue st) (b_in_degree st) []
      = Return (b_in_degree st', b_queue st'))
  /\
  (forall order levels metrics,
      topological_sort_bfs t0 t1 g = Return (order, levels, metrics) ->
      order = concat (bfs_batches (bfs_fuel g) g (fst (bfs_init g))) /\
      forall k batch node,
        nth_error (bfs_batches (bfs_fuel g) g (fst (bfs_init g))) k
        = Some batch ->
        In node batch -> dict_get levels node = Some (Z.of_nat k))
  /\
  (exists order metrics,
      topological_sort_bfs t0 t1 diamond
      = Return (order, [("A", 0); ("B", 1); ("C", 1); ("D", 2)], metrics)).
Proof.
  split; [|split].
  - intros st st' H. destruct (bfs_batch_spec g st st' H) as (H1 & H2 & H3 & H4).
    repeat split; auto. intros node Hn. rewrite H3, levels_fold_get.
    destruct (in_dec string_dec node (b_queue st)); [reflexivity|contradiction].
  - intros order levels metrics. apply bfs_levels_of_batches.
  - eexists _, _. vm_compute. reflexivity.
Qed.

(* ================================================================= *)
(** * More fuel changes nothing *)

Lemma bfs_loop_more_fuel g : forall fuel extra st,
  bfs_loop fuel g st <> OutOfFuel ->
  bfs_loop (fuel + extra) g st = bfs_loop fuel g st.
Proof.
  induction fuel as [|fuel IH]; intros extra st H.
  - simpl in H. destruct extra; simpl; destruct (b_queue st); congruence.
  - cbn [Nat.add]. rewrite !bfs_loop_unfold in *.
    destruct (b_queue st) as [|current q]; auto.
    destruct (bfs_batch g st) as [st'| |]; cbn [bind] in *; auto.
Qed.

(** The Kahn and BFS sorters are the fuelled functions at any fuel from
    the one they are given: the fuel bounds loops that end by themselves. *)
Lemma kahn_fuel_irrelevant g t0 t1 extra :
  topological_sort_kahn_fuel (kahn_fuel g + extra) t0 t1 g
  = topological_sort_kahn t0 t1 g.
Proof.
  unfold topological_sort_kahn, topological_sort_kahn_fuel.
  destruct (kahn_loop_final g) as (st & Hloop & _).
  destruct g as [|e g']; [reflexivity|].
  destruct (kahn_init (e :: g')) as [st0 ec] eqn:Ei. simpl fst in Hloop.
  rewrite kahn_loop_more_fuel; [reflexivity|]. rewrite Hloop. discriminate.
Qed.

Lemma bfs_fuel_irrelevant g t0 t1 extra :
  topological_sort_bfs_fuel (bfs_fuel g + extra) t0 t1 g
  = topological_sort_bfs t0 t1 g.
Proof.
  unfold topological_sort_bfs, topological_sort_bfs_fuel.
  destruct (bfs_loop_final g) as (sb & sk & Hloop & _).
  destruct g as [|e g']; [reflexivity|].
  destruct (bfs_init (e :: g')) as [st0 ec] eqn:Ei. simpl fst in Hloop.
  rewrite bfs_loop_more_fuel; [reflexivity|]. rewrite Hloop. discriminate.
Qed.

(* ================================================================= *)
(** * The sorters return exactly on acyclic graphs *)

Lemma rank_acyclic g (rank : string -> Z) :
  (forall u v, edge g u v -> rank u < rank v) -> acyclic g.
Proof.
  intros H.
  assert (Hlt : forall x y, clos_trans string (edge g) x y -> rank x < rank y).
  { intros x y Hxy. induction Hxy as [x y He|x y z _ IH1 _ IH2]; [auto|lia]. }
  intros x Hx. apply Hlt in Hx. lia.
Qed.

(** A graph that has an order without repetition in which every edge runs
    forward is acyclic. *)
Lemma sorted_acyclic g order :
  NoDup order -> (forall u v, edge g u v -> precedes order u v) -> acyclic g.
Proof.
  intros Hnd Hp.
  apply (rank_acyclic g (fun x => dict_get_default (position_table order) x 0)).
  intros u v He.
  destruct (precedes_edge_ok order u v Hnd (Hp u v He))
    as (pu & pv & Hu & Hv & Hlt).
  now rewrite (dict_get_default_some _ _ _ _ Hu), (dict_get_default_some _ _ _ _ Hv).
Qed.

Lemma loop_inv_full g d r :
  dict_wf g -> loop_inv g (d, [], r) -> length r = length d ->
  NoDup r /\ (forall x, In x r <-> In x (referenced g)) /\
  (forall u v, edge g u v -> precedes r u v).
Proof.
  intros Hwf (Hq & Hk & Ht) Hlen. simpl in Hk. specialize (Ht Hwf).
  destruct (in_degree_table_spec g) as (Hwf0 & Hk0 & _).
  destruct Hq as (_ & Hnd & Hincl & _). rewrite app_nil_r in Hnd, Hincl.
  assert (Hall : incl (dict_keys d) r).
  { apply NoDup_length_incl; auto.
    unfold dict_keys. rewrite length_map. lia. }
  split; [assumption|]. split.
  - intros x. rewrite <- Hk0, <- Hk. split; auto.
  - intros u v He. destruct Ht as (_ & _ & Hp). apply Hp; auto.
    apply Hall. rewrite Hk. apply Hk0. now apply edges_referenced in He.
Qed.

Lemma kahn_return_sorted g t0 t1 order metrics :
  dict_wf g ->
  topological_sort_kahn t0 t1 g = Return (order, metrics) ->
  NoDup order /\ (forall x, In x order <-> In x (referenced g)) /\
  (forall u v, edge g u v -> precedes order u v).
Proof.
  intros Hwf H. destruct g as [|e g'] eqn:Eg.
  - injection H as <- _. split; [constructor|]. split; [tauto|]. intros u v [].
  - rewrite <- Eg in *. assert (Hne : g <> []) by (rewrite Eg; discriminate).
    destruct (kahn_loop_final g) as (st & Hloop & Hq & Hinv).
    destruct (kahn_sort_outcome g t0 t1 st Hne Hloop) as [H1 H2].
    destruct (Nat.eq_dec (length (k_result st)) (length (k_in_degree st)))
      as [Hlen|Hlen]; [|rewrite (H1 Hlen) in H; discriminate].
    destruct (H2 Hlen) as [m Hm]. rewrite Hm in H. injection H as <- _.
    unfold kahn_core in Hinv. rewrite Hq in Hinv.
    now apply loop_inv_full with (d := k_in_degree st).
Qed.

Lemma kahn_outcome_cases g t0 t1 :
  (exists order metrics, topological_sort_kahn t0 t1 g = Return (order, metrics))
  \/ (exists e, topological_sort_kahn t0 t1 g = Raise e).
Proof.
  destruct (kahn_bfs_same_outcome g t0 t1 t0 t1)
    as [(rem & Hk & _)|(order & mk & _ & _ & Hk & _)]; eauto.
Qed.

Lemma bfs_outcome_cases g t0 t1 :
  (exists order levels metrics,
      topological_sort_bfs t0 t1 g = Return (order, levels, metrics))
  \/ (exists e, topological_sort_bfs t0 t1 g = Raise e).
Proof.
  destruct (kahn_bfs_same_outcome g t0 t1 t0 t1)
    as [(rem & _ & Hb)|(order & mk & levels & mb & _ & Hb)]; eauto 6.
Qed.

(** X1. The Kahn sorter returns exactly on the acyclic graphs and raises
    exactly on the others; the order it returns holds every node id the
    graph mentions once, each before all its successors. *)
Theorem kahn_returns_iff_acyclic (g : graph) (t0 t1 : float) :
  dict_wf g ->
  ((exists order metrics,
       topological_sort_kahn t0 t1 g = Return (order, metrics)) <-> acyclic g)
  /\
  ((exists e, topological_sort_kahn t0 t1 g = Raise e) <-> ~ acyclic g)
  /\
  (forall order metrics,
      topological_sort_kahn t0 t1 g = Return (order, metrics) ->
      NoDup order /\ (forall x, In x order <-> In x (referenced g)) /\
      (forall u v, edge g u v -> precedes order u v)).
Proof.
  intros Hwf.
  assert (Hret : forall order metrics,
             topological_sort_kahn t0 t1 g = Return (order, metrics) ->
             acyclic g).
  { intros order metrics H.
    destruct (kahn_return_sorted g t0 t1 order metrics Hwf H) as (Hnd & _ & Hp).
    now apply sorted_acyclic with (order := order). }
  split; [|split].
  - split.
    + intros (order & metrics & H). eauto.
    + intros Hac. destruct (kahn_sorts g t0 t1 Hwf Hac) as (o & m & H & _).
      eauto.
  - split.
    + intros [e He] Hac. destruct (kahn_sorts g t0 t1 Hwf Hac) as (o & m & H & _).
      rewrite H in He. discriminate.
    + intros Hn. destruct (kahn_outcome_cases g t0 t1) as [(o & m & H)|H]; auto.
      exfalso. eauto.
  - intros order metrics. now apply kahn_return_sorted.
Qed.

Lemma kahn_returns_iff_acyclic_witness :
  dict_wf diamond /\
  ((exists order metrics,
       topological_sort_kahn 0 1 diamond = Return (order, metrics))
   <-> acyclic diamond).
Proof.
  assert (Hwf : dict_wf diamond).
  { unfold dict_wf. simpl. repeat constructor; simpl; intuition discriminate. }
  split; [exact Hwf|].
  exact (proj1 (kahn_returns_iff_acyclic diamond 0 1 Hwf)).
Defined.

(** X2. Where the recursion limit leaves the calls of [dfs] more frames
    than the graph has nodes, the DFS sorter returns exactly on the acyclic
    graphs and raises exactly on the others.  Whatever the limit, an order
    it returns holds every node id the graph mentions once, each before
    all its successors, so it returns on acyclic graphs only; and an error
    it raises is its cycle error, naming a node that lies on a cycle, or
    [RecursionError], the latter only when the limit leaves no more frames
    than the graph has nodes. *)
Theorem dfs_returns_iff_acyclic (g : graph) (limit : nat) (t0 t1 : float) :
  dict_wf g ->
  ((node_count g < limit)%nat ->
   ((exists order metrics,
        topological_sort_dfs limit t0 t1 g = Return (order, metrics))
    <-> acyclic g)
   /\
   ((exists e, topological_sort_dfs limit t0 t1 g = Raise e) <->
    (exists n, on_cycle g n)))
  /\
  (forall order metrics,
      topological_sort_dfs limit t0 t1 g = Return (order, metrics) ->
      NoDup order /\ (forall x, In x order <-> In x (referenced g)) /\
      (forall u v, edge g u v -> precedes order u v) /\
      acyclic g)
  /\
  (forall e,
      topological_sort_dfs limit t0 t1 g = Raise e ->
      (exists n,
          e = ValueError [Lit "Cycle detected involving node: "; Lit n] /\
          on_cycle g n)
      \/ (e = RecursionError /\ (limit <= node_count g)%nat)).
Proof.
  intros Hwf.
  assert (Hret : forall order metrics,
             topological_sort_dfs limit t0 t1 g = Return (order, metrics) ->
             NoDup order /\ (forall x, In x order <-> In x (referenced g)) /\
             (forall u v, edge g u v -> precedes order u v) /\
             acyclic g).
  { intros order metrics H.
    destruct (dfs_sort_outcome limit g t0 t1 Hwf)
      as [(n & Hr & _)|[(order' & m & Hs & Hnd & Hin & Hp)|[Hr _]]].
    - rewrite Hr in H. discriminate.
    - rewrite Hs in H. injection H as <- _.
      split; [exact Hnd|]. split; [exact Hin|]. split; [exact Hp|].
      now apply sorted_acyclic with (order := order').
    - rewrite Hr in H. discriminate. }
  split; [|split].
  - intros Hlim. split; split.
    + intros (order & metrics & H). now destruct (Hret _ _ H) as (_ & _ & _ & Hac).
    + intros Hac.
      destruct (dfs_sorts limit g t0 t1 Hwf Hac Hlim) as (o & m & H & _). eauto.
    + intros [e He].
      destruct (dfs_error_on_cycle limit g t0 t1 e Hwf He)
        as [(n & _ & Hc)|[_ Hle]]; [eauto|lia].
    + intros [n Hn].
      destruct (dfs_sort_outcome limit g t0 t1 Hwf)
        as [(n' & Hr & _)|[(order' & m & Hs & Hnd & _ & Hp)|[Hr _]]]; eauto.
      exfalso. exact (sorted_acyclic g order' Hnd Hp n Hn).
  - exact Hret.
  - intros e He.
    destruct (dfs_error_on_cycle limit g t0 t1 e Hwf He)
      as [(n & -> & Hc)|H]; [left; exists n; split; [reflexivity|exact Hc]|].
    right. exact H.
Qed.

Lemma dfs_returns_iff_acyclic_witness :
  dict_wf cycle3 /\ (node_count cycle3 < 1000)%nat /\
  ((exists e, topological_sort_dfs 1000 0 1 cycle3 = Raise e) <->
   (exists n, on_cycle cycle3 n)).
Proof.
  assert (Hwf : dict_wf cycle3).
  { unfold dict_wf. simpl. repeat constructor; simpl; intuition discriminate. }
  assert (Hlim : (node_count cycle3 < 1000)%nat)
    by (apply Nat.ltb_lt; vm_compute; reflexivity).
  split; [exact Hwf|]. split; [exact Hlim|].
  exact (proj2 (proj1 (dfs_returns_iff_acyclic cycle3 1000 0 1 Hwf) Hlim)).
Defined.

Lemma bfs_return_sorted g t0 t1 order levels metrics :
  dict_wf g ->
  topological_sort_bfs t0 t1 g = Return (order, levels, metrics) ->
  NoDup order /\ (forall x, In x order <-> In x (referenced g)) /\
  (forall u v, edge g u v -> precedes order u v).
Proof.
  intros Hwf H.
  destruct (kahn_bfs_same_outcome g t0 t1 t0 t1)
    as [(rem & _ & Hb)|(order' & mk & levels' & mb & Hk & Hb)].
  - rewrite Hb in H. discriminate.
  - rewrite Hb in H. injection H as <- _ _.
    eapply kahn_return_sorted; eauto.
Qed.

(** X3. The BFS sorter returns exactly on the acyclic graphs and raises
    exactly on the others; the order it returns holds every node id the
    graph mentions once, each before all its successors. *)
Theorem bfs_returns_iff_acyclic (g : graph) (t0 t1 : float) :
  dict_wf g ->
  ((exists order levels metrics,
       topological_sort_bfs t0 t1 g = Return (order, levels, metrics))
   <-> acyclic g)
  /\
  ((exists e, topological_sort_bfs t0 t1 g = Raise e) <-> ~ acyclic g)
  /\
  (forall order levels metrics,
      topological_sort_bfs t0 t1 g = Return (order, levels, metrics) ->
      NoDup order /\ (forall x, In x order <-> In x (referenced g)) /\
      (forall u v, edge g u v -> precedes order u v)).
Proof.
  intros Hwf.
  assert (Hret : forall order levels metrics,
             topological_sort_bfs t0 t1 g = Return (order, levels, metrics) ->
             acyclic g).
  { intros order levels metrics H.
    destruct (bfs_return_sorted g t0 t1 order levels metrics Hwf H)
      as (Hnd & _ & Hp).
    now apply sorted_acyclic with (order := order). }
  split; [|split].
  - split.
    + intros (order & levels & metrics & H). eauto.
    + intros Hac. destruct (bfs_sorts g t0 t1 Hwf Hac) as (o & l & m & H & _).
      eauto.
  - split.
    + intros [e He] Hac.
      destruct (bfs_sorts g t0 t1 Hwf Hac) as (o & l & m & H & _).
      rewrite H in He. discriminate.
    + intros Hn.
      destruct (bfs_outcome_cases g t0 t1) as [(o & l & m & H)|H]; auto.
      exfalso. eauto.
  - intros order levels metrics. now apply bfs_return_sorted.
Qed.

Lemma bfs_returns_iff_acyclic_witness :
  dict_wf diamond /\
  ((exists order levels metrics,
       topological_sort_bfs 0 1 diamond = Return (order, levels, metrics))
   <-> acyclic diamond).
Proof.
  assert (Hwf : dict_wf diamond).
  { unfold dict_wf. simpl. repeat constructor; simpl; intuition discriminate. }
  split; [exact Hwf|].
  exact (proj1 (bfs_returns_iff_acyclic diamond 0 1 Hwf)).
Defined.

(* ================================================================= *)
(** * The nodes the Kahn sorter reports *)

Lemma loop_inv_blocked g d r :
  dict_wf g -> loop_inv g (d, [], r) ->
  forall v, In v (dict_keys d) ->
            (In v r <-> remaining g r v = 0).
Proof.
  intros Hwf (Hq & _ & Ht) v Hv. specialize (Ht Hwf).
  destruct Hq as (_ & _ & _ & Hle). destruct Ht as (Hrem & Hzero & _).
  rewrite app_nil_r in Hle, Hzero. split.
  - intros Hr. destruct (Hle v Hr) as (n & Hn & Hn0).
    rewrite (Hrem v Hv) in Hn. injection Hn as <-.
    pose proof (remaining_nonneg g r v). lia.
  - auto.
Qed.

Lemma kahn_error_state g t0 t1 e :
  topological_sort_kahn t0 t1 g = Raise e ->
  exists st,
    k_queue st = [] /\ loop_inv g (kahn_core st) /\
    length (k_result st) <> length (k_in_degree st) /\
    e = kahn_cycle_error
          (set_diff string_dec (dict_keys (k_in_degree st)) (k_result st)).
Proof.
  intros H. destruct g as [|e0 g'] eqn:Eg; [discriminate|].
  rewrite <- Eg in *. assert (Hne : g <> []) by (rewrite Eg; discriminate).
  destruct (kahn_loop_final g) as (st & Hloop & Hq & Hinv).
  destruct (kahn_sort_outcome g t0 t1 st Hne Hloop) as [H1 H2].
  destruct (Nat.eq_dec (length (k_result st)) (length (k_in_degree st)))
    as [Hlen|Hlen].
  - destruct (H2 Hlen) as [m Hm]. rewrite Hm in H. discriminate.
  - rewrite (H1 Hlen) in H. injection H as <-. exists st. auto.
Qed.

(** X4. The set of nodes in the cycle error of the Kahn sorter is not
    empty, holds node ids of the graph only, every node in it has a
    predecessor in it, and it holds every successor of its nodes: it is made
    of the nodes that a cycle keeps from being dequeued. *)
Theorem kahn_reports_blocked_nodes (g : graph) (t0 t1 : float) (e : exn) :
  dict_wf g ->
  topological_sort_kahn t0 t1 g = Raise e ->
  exists reported,
    e = kahn_cycle_error reported /\
    reported <> [] /\
    (forall x, In x reported -> In x (referenced g)) /\
    (forall v, In v reported -> exists u, In u reported /\ edge g u v) /\
    (forall u v, edge g u v -> In u reported -> In v reported).
Proof.
  intros Hwf H.
  destruct (kahn_error_state g t0 t1 e H) as (st & Hq & Hinv & Hlen & ->).
  unfold kahn_core in Hinv. rewrite Hq in Hinv.
  set (d := k_in_degree st) in *. set (r := k_result st) in *.
  assert (Hkeys : forall x, In x (dict_keys d) <-> In x (referenced g)).
  { intros x. destruct Hinv as (_ & Hk & _). simpl in Hk. rewrite Hk.
    apply (in_degree_table_spec g). }
  assert (Hwfd : NoDup (dict_keys d)).
  { destruct Hinv as (_ & Hk & _). simpl in Hk. rewrite Hk.
    apply (in_degree_table_spec g). }
  assert (Hnd : NoDup r /\ incl r (dict_keys d)).
  { destruct Hinv as ((_ & Hnd & Hincl & _) & _).
    rewrite app_nil_r in Hnd, Hincl. auto. }
  pose proof (loop_inv_blocked g d r Hwf Hinv) as Hblocked.
  exists (set_diff string_dec (dict_keys d) r).
  split; [reflexivity|]. split; [|split; [|split]].
  - intros Hnil. apply Hlen.
    assert (Hall : incl (dict_keys d) r).
    { intros x Hx. destruct (in_dec string_dec x r) as [|Hn]; [assumption|].
      assert (Hin : In x (set_diff string_dec (dict_keys d) r))
        by (apply set_diff_iff; auto).
      rewrite Hnil in Hin. destruct Hin. }
    rewrite <- (length_map fst d). fold (dict_keys d).
    apply Nat.le_antisymm; apply NoDup_incl_length; tauto.
  - intros x Hx. apply set_diff_iff in Hx. apply Hkeys. tauto.
  - intros v Hv. apply set_diff_iff in Hv as [Hv Hnr].
    assert (Hpos : 0 < remaining g r v).
    { pose proof (remaining_nonneg g r v) as Hge.
      destruct (Z.eq_dec (remaining g r v) 0) as [Hz|]; [|lia].
      exfalso. apply Hnr. now apply Hblocked. }
    apply remaining_pos in Hpos as (u & He & Hu). exists u. split; auto.
    apply set_diff_iff. split; auto. apply Hkeys.
    now apply edges_referenced in He.
  - intros u v He Hu. apply set_diff_iff in Hu as [Hu Hnr].
    assert (Hv : In v (dict_keys d)).
    { apply Hkeys. now apply edges_referenced in He. }
    apply set_diff_iff. split; auto. intros Hr.
    apply Hnr. apply (remaining_zero g r v u); auto. now apply Hblocked.
Qed.

Lemma kahn_reports_blocked_nodes_witness :
  exists reported,
    kahn_cycle_error ["C"; "B"; "A"] = kahn_cycle_error reported /\
    reported <> [] /\
    (forall x, In x reported -> In x (referenced cycle3)) /\
    (forall v, In v reported -> exists u, In u reported /\ edge cycle3 u v) /\
    (forall u v, edge cycle3 u v -> In u reported -> In v reported).
Proof.
  assert (Hwf : dict_wf cycle3).
  { unfold dict_wf. simpl. repeat constructor; simpl; intuition discriminate. }
  assert (H : topological_sort_kahn 0 1 cycle3
              = Raise (kahn_cycle_error ["C"; "B"; "A"]))
    by (vm_compute; reflexivity).
  destruct (kahn_reports_blocked_nodes cycle3 0 1 _ Hwf H)
    as (reported & H1 & H2).
  exists reported. split; [exact H1|exact H2].
Defined.

(* ================================================================= *)
(** * The metrics of the Kahn sorter *)

Lemma edges_length g : length (edges g) = length (targets g).
Proof.
  unfold edges, targets. induction g as [|[u nbrs] g IH]; simpl; auto.
  now rewrite !length_app, length_map, IH.
Qed.

Lemma kahn_init_edge_count g : snd (kahn_init g) = len (edges g).
Proof.
  unfold kahn_init. destruct (in_degree_table_spec g) as (_ & _ & _ & He).
  destruct (count_in_degrees g (init_in_degree g)) as [d ec]. simpl in *.
  rewrite He. unfold len. now rewrite edges_length.
Qed.

(** X5. In the metrics the Kahn sorter returns, [vertices] and
    [space_complexity] are the number of keys of the graph, [edges] is the
    number of edges (the adjacency lists counted with repetitions), and
    [theoretical_operations] and [actual_operations] are both their sum. *)
Theorem kahn_metrics_values (g : graph) (t0 t1 : float)
  (order : list string) (metrics : dict pyval) :
  topological_sort_kahn t0 t1 g = Return (order, metrics) ->
  dict_get metrics "vertices" = Some (PyInt (len (dict_keys g))) /\
  dict_get metrics "edges" = Some (PyInt (len (edges g))) /\
  dict_get metrics "theoretical_operations"
  = Some (PyInt (len (dict_keys g) + len (edges g))) /\
  dict_get metrics "actual_operations"
  = Some (PyInt (len (dict_keys g) + len (edges g))) /\
  dict_get metrics "space_complexity" = Some (PyInt (len (dict_keys g))).
Proof.
  intros H. unfold topological_sort_kahn, topological_sort_kahn_fuel in H.
  destruct g as [|e g'] eqn:Eg.
  - injection H as _ <-. repeat split; reflexivity.
  - rewrite <- Eg in *. pose proof (kahn_init_edge_count g) as Hec.
    assert (Hk : len (dict_keys g) = len g).
    { unfold len, dict_keys. now rewrite length_map. }
    rewrite Hk, <- Hec.
    rewrite Eg in H at 1. rewrite <- Eg in H.
    destruct (kahn_init g) as [st0 ec]. simpl snd.
    destruct (kahn_loop _ _ _) as [st| |]; cbn [bind] in H; try discriminate.
    destruct (negb _); [discriminate|]. injection H as _ <-.
    repeat split; reflexivity.
Qed.

Lemma kahn_metrics_values_witness :
  exists order metrics,
    topological_sort_kahn 0 1 diamond = Return (order, metrics) /\
    dict_get metrics "vertices" = Some (PyInt (len (dict_keys diamond))) /\
    dict_get metrics "edges" = Some (PyInt (len (edges diamond))).
Proof.
  assert (H : topological_sort_kahn 0 1 diamond
              = Return (["A"; "B"; "C"; "D"],
                        [("execution_time_ms", PyFloat (elapsed_ms 0 1));
                         ("vertices", PyInt 4); ("edges", PyInt 4);
                         ("theoretical_operations", PyInt 8);
                         ("actual_operations", PyInt 8);
                         ("space_complexity", PyInt 4)]))
    by (vm_compute; reflexivity).
  eexists _, _. split; [exact H|].
  destruct (kahn_metrics_values diamond 0 1 _ _ H) as (H1 & H2 & _).
  split; assumption.
Defined.

(* ================================================================= *)
(** * The metrics of the DFS sorter *)

Lemma len_app {A : Type} (l1 l2 : list A) : len (l1 ++ l2) = len l1 + len l2.
Proof. unfold len. rewrite length_app. lia. Qed.

Lemma len_cons {A : Type} (a : A) (l : list A) : len (a :: l) = 1 + len l.
Proof. unfold len. simpl length. lia. Qed.

Lemma out_degrees_app g l1 l2 :
  out_degrees g (l1 ++ l2) = out_degrees g l1 + out_degrees g l2.
Proof.
  unfold out_degrees. induction l1 as [|a l1 IH]; simpl; [reflexivity|].
  rewrite IH. lia.
Qed.

Lemma out_degrees_single g u :
  out_degrees g [u] = len (dict_get_default g u []).
Proof. unfold out_degrees, out_degree. cbn [fold_right]. lia. Qed.

Lemma dfs_neighbors_counted g rec :
  (forall node st st', rec node st = Return st' -> dfs_counted g 0 st st') ->
  forall nbrs st st',
    dfs_neighbors rec nbrs st = Return st' ->
    dfs_counted g (len nbrs) st st'.
Proof.
  intros Hrec. induction nbrs as [|n nbrs IH]; intros st st' H.
  - injection H as <-. exists []. rewrite app_nil_r. unfold len. simpl.
    repeat split; lia.
  - cbn [dfs_neighbors] in H.
    set (st0 := mk_dfs _ _ _ _ _) in H.
    destruct (rec n st0) as [st1| |] eqn:E; cbn [bind] in H; try discriminate.
    destruct (Hrec n st0 st1 E) as (s1 & Hr1 & Ho1 & He1).
    destruct (IH st1 st' H) as (s2 & Hr2 & Ho2 & He2).
    unfold st0 in Hr1, Ho1, He1.
    cbn [d_result_stack d_operations d_edge_count] in Hr1, Ho1, He1.
    exists (s1 ++ s2). split; [|split].
    + now rewrite Hr2, Hr1, app_assoc.
    + rewrite Ho2, Ho1, len_app. lia.
    + rewrite He2, He1, out_degrees_app, len_cons. lia.
Qed.

Lemma dfs_counted_call g : forall limit node st st',
  dfs limit g node st = Return st' -> dfs_counted g 0 st st'.
Proof.
  induction limit as [|limit IH]; intros node st st' H; [discriminate|].
  cbn [dfs] in H.
  destruct (set_mem string_dec node (d_recursion_stack st)); [discriminate|].
  destruct (set_mem string_dec node (d_visited st)).
  { injection H as <-. exists []. rewrite app_nil_r. unfold len. simpl.
    repeat split; lia. }
  set (st1 := mk_dfs _ _ _ _ _) in H.
  destruct (dfs_neighbors (dfs limit g) (dict_get_default g node []) st1)
    as [st2| |] eqn:E; cbn [bind] in H; try discriminate.
  destruct (set_mem string_dec node (d_recursion_stack st2)); [|discriminate].
  injection H as <-.
  destruct (dfs_neighbors_counted g (dfs limit g) IH _ _ _ E)
    as (s2 & Hr2 & Ho2 & He2).
  unfold st1 in Hr2, Ho2, He2.
  cbn [d_result_stack d_operations d_edge_count] in Hr2, Ho2, He2.
  exists (s2 ++ [node]). cbn [d_result_stack d_operations d_edge_count].
  split; [|split].
  - now rewrite Hr2, app_assoc.
  - rewrite Ho2, len_app, len_cons. change (len (@nil string)) with 0. lia.
  - rewrite He2, out_degrees_app, out_degrees_single. lia.
Qed.

Lemma dfs_roots_counted g limit : forall roots st st',
  dfs_roots limit g roots st = Return st' -> dfs_counted g 0 st st'.
Proof.
  induction roots as [|node roots IH]; intros st st' H.
  - injection H as <-. exists []. rewrite app_nil_r. unfold len. simpl.
    repeat split; lia.
  - cbn [dfs_roots] in H.
    destruct (set_mem string_dec node (d_visited st)); [now apply IH|].
    destruct (dfs limit g node st) as [st1| |] eqn:E; cbn [bind] in H;
      try discriminate.
    destruct (dfs_counted_call g limit node st st1 E) as (s1 & Hr1 & Ho1 & He1).
    destruct (IH st1 st' H) as (s2 & Hr2 & Ho2 & He2).
    exists (s1 ++ s2). split; [|split].
    + now rewrite Hr2, Hr1, app_assoc.
    + rewrite Ho2, Ho1, len_app. lia.
    + rewrite He2, He1, out_degrees_app. lia.
Qed.

Lemma out_degree_other (g : graph) k nbrs u :
  u <> k -> out_degree ((k, nbrs) :: g) u = out_degree g u.
Proof.
  intros H. unfold out_degree, dict_get_default. simpl.
  destruct (String.eqb_spec k u); [congruence|reflexivity].
Qed.

Lemma out_degrees_other (g : graph) k nbrs l :
  ~ In k l -> out_degrees ((k, nbrs) :: g) l = out_degrees g l.
Proof.
  induction l as [|a l IH]; simpl; intros H; [reflexivity|].
  rewrite IH by tauto. rewrite out_degree_other; [reflexivity|].
  intros ->. tauto.
Qed.

(** Over a list that holds every key once, the out-degrees add up to the
    number of edges. *)
Lemma out_degrees_all g : forall l,
  dict_wf g -> NoDup l -> incl (dict_keys g) l ->
  out_degrees g l = len (targets g).
Proof.
  unfold dict_wf. induction g as [|[k nbrs] g IH]; intros l Hwf Hnd Hincl.
  - unfold targets. simpl. clear. induction l as [|a l IH]; simpl; [reflexivity|].
    rewrite IH. unfold out_degree. reflexivity.
  - simpl in Hwf. inversion Hwf as [|? ? Hk Hwf']; subst.
    assert (Hin : In k l) by (apply Hincl; now left).
    apply in_split in Hin as (l1 & l2 & ->).
    assert (Hk' : ~ In k (l1 ++ l2)) by now apply NoDup_remove_2.
    assert (Hnd' : NoDup (l1 ++ l2)) by now apply NoDup_remove_1 in Hnd.
    rewrite out_degrees_app. simpl.
    rewrite !out_degrees_other
      by (intros Hc; apply Hk'; apply in_app_iff; tauto).
    replace (out_degrees g l1 + (out_degree ((k, nbrs) :: g) k + out_degrees g l2))
      with (out_degree ((k, nbrs) :: g) k + out_degrees g (l1 ++ l2))
      by (rewrite out_degrees_app; lia).
    rewrite (IH (l1 ++ l2)); auto.
    + unfold out_degree, dict_get_default, targets. simpl.
      rewrite String.eqb_refl, len_app. reflexivity.
    + intros x Hx. assert (Hx' : In x (l1 ++ k :: l2)) by (apply Hincl; now right).
      apply in_app_iff in Hx' as [Hx'|[->|Hx']].
      * apply in_app_iff. now left.
      * contradiction.
      * apply in_app_iff. now right.
Qed.

Lemma dfs_return_state limit g t0 t1 order metrics :
  g <> [] ->
  topological_sort_dfs limit t0 t1 g = Return (order, metrics) ->
  exists st,
    dfs_roots limit g (dict_keys g) dfs_init = Return st /\
    order = rev (d_result_stack st) /\
    metrics
    = [("execution_time_ms"%string, PyFloat (elapsed_ms t0 t1));
       ("vertices"%string, PyInt (len g));
       ("edges"%string, PyInt (d_edge_count st));
       ("theoretical_operations"%string, PyInt (len g + d_edge_count st));
       ("actual_operations"%string, PyInt (d_operations st));
       ("space_complexity"%string, PyInt (len g));
       ("recursion_depth"%string, PyInt (len (d_recursion_stack st)))].
Proof.
  intros Hne H. unfold topological_sort_dfs in H.
  destruct g as [|e g']; [congruence|].
  destruct (dfs_roots _ _ _ _) as [st| |]; cbn [bind] in H; try discriminate.
  injection H as <- <-. exists st. auto.
Qed.

(** X7. In the metrics the DFS sorter returns, [edges] is the number of
    edges of the graph (every adjacency list is walked once),
    [actual_operations] is twice the number of nodes in the order (one
    operation on entering a node, one on leaving it), [recursion_depth] is
    0, and [vertices] and [space_complexity] are the number of keys. *)
Theorem dfs_metrics_values (g : graph) (limit : nat) (t0 t1 : float)
  (order : list string) (metrics : dict pyval) :
  dict_wf g ->
  topological_sort_dfs limit t0 t1 g = Return (order, metrics) ->
  dict_get metrics "vertices" = Some (PyInt (len (dict_keys g))) /\
  dict_get metrics "edges" = Some (PyInt (len (edges g))) /\
  dict_get metrics "theoretical_operations"
  = Some (PyInt (len (dict_keys g) + len (edges g))) /\
  dict_get metrics "actual_operations" = Some (PyInt (2 * len order)) /\
  dict_get metrics "space_complexity" = Some (PyInt (len (dict_keys g))) /\
  dict_get metrics "recursion_depth" = Some (PyInt 0).
Proof.
  intros Hwf H. destruct g as [|e g'] eqn:Eg.
  - injection H as <- <-. repeat split; reflexivity.
  - rewrite <- Eg in *. assert (Hne : g <> []) by (rewrite Eg; discriminate).
    destruct (dfs_return_state limit g t0 t1 order metrics Hne H)
      as (st & Hrun & -> & ->).
    assert (Hpost : dfs_post g (limit <= unvisited g dfs_init)%nat
                      (dict_keys g) dfs_init
                      (dfs_roots limit g (dict_keys g) dfs_init)).
    { apply dfs_roots_correct; auto using dfs_init_inv.
      intros x Hx. unfold referenced. apply in_app_iff. now left. }
    rewrite Hrun in Hpost. destruct Hpost as (Hinv & Hrs & Hdone & _ & _).
    destruct (dfs_roots_counted g _ _ _ _ Hrun) as (s & Hr & Ho & He).
    cbn [dfs_init d_result_stack d_operations d_edge_count app] in Hr, Ho, He.
    subst s.
    assert (Hout : out_degrees g (d_result_stack st) = len (targets g)).
    { apply out_degrees_all; auto. apply Hinv. }
    assert (Hk : len (dict_keys g) = len g).
    { unfold len, dict_keys. now rewrite length_map. }
    assert (Hedges : d_edge_count st = len (edges g)).
    { rewrite He, Hout. unfold len. rewrite edges_length. lia. }
    assert (Hops : d_operations st = 2 * len (rev (d_result_stack st))).
    { rewrite Ho. unfold len. rewrite length_rev. lia. }
    rewrite Hk, <- Hedges, <- Hops.
    cbn [dfs_init d_recursion_stack] in Hrs. rewrite Hrs.
    repeat split; reflexivity.
Qed.

Lemma dfs_metrics_values_witness :
  exists order metrics,
    topological_sort_dfs 1000 0 1 diamond = Return (order, metrics) /\
    dict_get metrics "edges" = Some (PyInt (len (edges diamond))) /\
    dict_get metrics "actual_operations" = Some (PyInt (2 * len order)) /\
    dict_get metrics "recursion_depth" = Some (PyInt 0).
Proof.
  assert (Hwf : dict_wf diamond).
  { unfold dict_wf. simpl. repeat constructor; simpl; intuition discriminate. }
  assert (H : topological_sort_dfs 1000 0 1 diamond
              = Return (["A"; "C"; "B"; "D"],
                        [("execution_time_ms", PyFloat (elapsed_ms 0 1));
                         ("vertices", PyInt 4); ("edges", PyInt 4);
                         ("theoretical_operations", PyInt 8);
                         ("actual_operations", PyInt 8);
                         ("space_complexity", PyInt 4);
                         ("recursion_depth", PyInt 0)]))
    by (vm_compute; reflexivity).
  eexists _, _. split; [exact H|].
  destruct (dfs_metrics_values diamond 1000 0 1 _ _ Hwf H)
    as (_ & H2 & _ & H4 & _ & H6).
  split; [exact H2|]. split; [exact H4|exact H6].
Defined.

(* ================================================================= *)
(** * The batches, the levels and the metrics of the BFS sorter *)

Lemma bfs_batch_max g st st' :
  bfs_batch g st = Return st' ->
  b_max_queue_size st' = Z.max (b_max_queue_size st) (len (b_queue st)).
Proof.
  unfold bfs_batch. intros H.
  set (st0 := mk_bfs _ _ _ _ _ _ _) in H.
  pose proof (bfs_level_spec g (b_queue st) st0 [] []) as Hs.
  destruct (bfs_level (length (b_queue st)) g st0) as [st1|e|];
    cbn [bind] in H; try discriminate.
  injection H as <-. cbn [b_max_queue_size].
  destruct (batch_relax g (b_queue st) (b_in_degree st0) []) as [[d' new]|e|];
    try (destruct Hs; unfold st0; cbn [b_queue]; now rewrite !app_nil_r).
  destruct Hs as (_ & _ & _ & _ & _ & H6).
  { unfold st0. cbn [b_queue]. now rewrite !app_nil_r. }
  exact H6.
Qed.

Lemma bfs_batches_unfold fuel g st st1 :
  b_queue st <> [] -> bfs_batch g st = Return st1 ->
  bfs_batches (S fuel) g st = b_queue st :: bfs_batches fuel g st1.
Proof.
  intros Hq Hb. cbn [bfs_batches]. rewrite Hb.
  destruct (b_queue st); [congruence|reflexivity].
Qed.

Lemma bfs_loop_counters g : forall fuel st st',
  bfs_loop fuel g st = Return st' ->
  b_current_level st' = b_current_level st + len (bfs_batches fuel g st) /\
  b_max_queue_size st'
  = fold_left Z.max (map len (bfs_batches fuel g st)) (b_max_queue_size st).
Proof.
  induction fuel as [|fuel IH]; intros st st' H.
  - simpl in *. destruct (b_queue st); [|discriminate]. injection H as <-.
    unfold len. simpl. split; [lia|reflexivity].
  - rewrite bfs_loop_unfold in H.
    destruct (b_queue st) as [|c q] eqn:Eq.
    + injection H as <-. cbn [bfs_batches]. rewrite Eq. unfold len. simpl.
      split; [lia|reflexivity].
    + destruct (bfs_batch g st) as [st1|e|] eqn:Eb; cbn [bind] in H;
        try discriminate.
      rewrite (bfs_batches_unfold fuel g st st1) by (rewrite ?Eq; auto; discriminate).
      destruct (IH st1 st' H) as [Hl Hm].
      destruct (bfs_batch_spec g st st1 Eb) as (_ & _ & _ & Hc).
      rewrite Hl, Hm, Hc, (bfs_batch_max g st st1 Eb), len_cons.
      split; [lia|reflexivity].
Qed.

Lemma fold_max_spec l : forall a,
  let m := fold_left Z.max l a in
  a <= m /\ (forall x, In x l -> x <= m) /\ (m = a \/ In m l).
Proof.
  induction l as [|b l IH]; intros a; simpl.
  - repeat split; try lia; tauto.
  - destruct (IH (Z.max a b)) as (H1 & H2 & H3). split; [lia|]. split.
    + intros x [<-|Hx]; [lia|auto].
    + destruct H3 as [H3|H3]; [|right; right; exact H3].
      destruct (Z.max_spec a b) as [[_ Hm]|[_ Hm]]; rewrite Hm in H3 |- *;
        [right; left; symmetry; exact H3|left; exact H3].
Qed.

Lemma bfs_batches_nonempty g : forall fuel st batch,
  In batch (bfs_batches fuel g st) -> batch <> [].
Proof.
  induction fuel as [|fuel IH]; intros st batch H.
  - simpl in H. destruct (b_queue st); destruct H.
  - cbn [bfs_batches] in H. destruct (b_queue st) as [|c q] eqn:Eq; [destruct H|].
    destruct (bfs_batch g st) as [st1| |]; try destruct H.
    + subst batch. discriminate.
    + eapply IH; eauto.
Qed.

Lemma bfs_return_state g t0 t1 order levels metrics :
  g <> [] ->
  topological_sort_bfs t0 t1 g = Return (order, levels, metrics) ->
  exists st,
    bfs_loop (bfs_fuel g) g (fst (bfs_init g)) = Return st /\
    b_queue st = [] /\ loop_inv g (bfs_core st) /\
    length (b_result st) = length (b_in_degree st) /\
    order = b_result st /\ levels = b_levels st /\
    metrics
    = [("execution_time_ms"%string, PyFloat (elapsed_ms t0 t1));
       ("vertices"%string, PyInt (len g));
       ("edges"%string, PyInt (snd (bfs_init g)));
       ("theoretical_operations"%string, PyInt (len g + snd (bfs_init g)));
       ("actual_operations"%string, PyInt (len g + snd (bfs_init g)));
       ("space_complexity"%string, PyInt (len g));
       ("max_level"%string, PyInt (b_current_level st - 1));
       ("max_queue_size"%string, PyInt (b_max_queue_size st))].
Proof.
  intros Hne H.
  destruct (bfs_loop_final g) as (sb & sk & Hb & _ & _ & Hq & Hinv).
  exists sb. unfold topological_sort_bfs, topological_sort_bfs_fuel in H.
  destruct g as [|e g']; [congruence|].
  destruct (bfs_init (e :: g')) as [st0 ec] eqn:Ei. simpl fst in *. simpl snd.
  rewrite Hb in H. cbn [bind] in H. rewrite len_eqb in H.
  destruct (Nat.eqb_spec (length (b_result sb)) (length (b_in_degree sb)))
    as [Hlen|Hlen]; cbn [negb] in H; [|discriminate].
  injection H as <- <- <-.
  split; [exact Hb|]. split; [exact Hq|]. split; [exact Hinv|].
  split; [exact Hlen|]. split; [reflexivity|]. split; reflexivity.
Qed.

Lemma bfs_init_edge_count g : snd (bfs_init g) = len (edges g).
Proof.
  unfold bfs_init. destruct (in_degree_table_spec g) as (_ & _ & _ & He).
  destruct (count_in_degrees g (init_in_degree g)) as [d ec]. simpl in *.
  rewrite He. unfold len. now rewrite edges_length.
Qed.

Lemma bfs_init_max g :
  b_max_queue_size (fst (bfs_init g)) = len (b_queue (fst (bfs_init g))).
Proof.
  unfold bfs_init. destruct (count_in_degrees g (init_in_degree g)).
  reflexivity.
Qed.

Lemma in_concat_nth {A : Type} (ls : list (list A)) (x : A) :
  In x (concat ls) -> exists k l, nth_error ls k = Some l /\ In x l.
Proof.
  intros H. apply in_concat in H as (l & Hl & Hx).
  apply In_nth_error in Hl as [k Hk]. eauto.
Qed.

Lemma fold_set_keys batch : forall (lv : dict Z) k,
  (forall x, In x batch -> In x (dict_keys lv)) ->
  dict_keys (fold_left (fun lv n => dict_set lv n k) batch lv) = dict_keys lv.
Proof.
  induction batch as [|b batch IH]; intros lv k H; simpl; [reflexivity|].
  rewrite IH.
  - apply dict_keys_set_in. apply H. now left.
  - intros x Hx. rewrite dict_keys_set_in by (apply H; now left).
    apply H. now right.
Qed.

Lemma bfs_loop_level_keys g : forall fuel st st',
  queue_inv g (bfs_core st) ->
  dict_keys (b_levels st) = dict_keys (b_in_degree st) ->
  bfs_loop fuel g st = Return st' ->
  dict_keys (b_levels st') = dict_keys (b_in_degree st').
Proof.
  induction fuel as [|fuel IH]; intros st st' Hinv Hk H.
  - simpl in H. destruct (b_queue st); [|discriminate]. now injection H as <-.
  - rewrite bfs_loop_unfold in H.
    destruct (b_queue st) as [|c q] eqn:Eq; [now injection H as <-|].
    destruct (bfs_batch g st) as [st1|e|] eqn:Eb; cbn [bind] in H;
      try discriminate.
    apply (IH st1 st'); auto.
    + eapply (bfs_batch_steps (queue_inv g)); eauto using step_queue_inv.
    + destruct (bfs_batch_spec g st st1 Eb) as (_ & _ & Hl & _).
      rewrite Hl, fold_set_keys.
      * rewrite Hk. symmetry.
        apply (bfs_batch_steps
                 (fun c => dict_keys (fst (fst c)) = dict_keys (b_in_degree st))
                 g) in Eb; auto.
        intros [[d1 q1] r1] [[d2 q2] r2] H1 H2. simpl in *.
        rewrite <- H1. eapply step_keys; eauto.
      * intros x Hx. rewrite Hk. destruct Hinv as (_ & _ & Hincl & _).
        apply Hincl. apply in_app_iff. now right.
Qed.

Lemma bfs_init_level_keys g :
  dict_keys (b_levels (fst (bfs_init g)))
  = dict_keys (b_in_degree (fst (bfs_init g))).
Proof.
  unfold bfs_init. destruct (count_in_degrees g (init_in_degree g)) as [d ec].
  simpl. unfold dict_keys. rewrite map_map. apply map_ext. now intros [k v].
Qed.

(** Of a run of the BFS sorter that returns: the batches hold every node
    once, and a node has the level of its batch. *)
Lemma bfs_success_batches g t0 t1 order levels metrics :
  topological_sort_bfs t0 t1 g = Return (order, levels, metrics) ->
  let batches := bfs_batches (bfs_fuel g) g (fst (bfs_init g)) in
  order = concat batches /\ NoDup order /\
  (forall k batch node,
      nth_error batches k = Some batch -> In node batch ->
      dict_get levels node = Some (Z.of_nat k)) /\
  (forall node l,
      dict_get levels node = Some l ->
      exists k batch,
        l = Z.of_nat k /\ nth_error batches k = Some batch /\ In node batch).
Proof.
  intros H batches.
  destruct (bfs_levels_of_batches g t0 t1 order levels metrics H) as [Hc Hl].
  fold batches in Hc, Hl.
  destruct g as [|e g'] eqn:Eg.
  - injection H as <- <- _. repeat split; auto; try constructor.
    intros node l Hn. discriminate.
  - rewrite <- Eg in *. assert (Hne : g <> []) by (rewrite Eg; discriminate).
    destruct (bfs_return_state g t0 t1 order levels metrics Hne H)
      as (st & Hloop & Hq & Hinv & Hlen & Ho & Hlv & _).
    pose proof (init_queue_inv g) as Hinit. cbv zeta in Hinit.
    rewrite <- bfs_init_core in Hinit.
    pose proof (bfs_loop_level_keys g _ _ _ Hinit (bfs_init_level_keys g) Hloop)
      as Hkeys.
    destruct Hinv as ((_ & Hnd & Hincl & _) & Hk & _).
    unfold bfs_core in Hnd, Hincl, Hk. simpl in Hk.
    rewrite Hq, app_nil_r in Hnd, Hincl.
    split; [exact Hc|]. split; [now rewrite Ho|]. split; [exact Hl|].
    intros node l Hn.
    assert (Hin : In node order).
    { assert (Hall : incl (dict_keys (b_in_degree st)) (b_result st)).
      { apply NoDup_length_incl; auto.
        unfold dict_keys. rewrite length_map. lia. }
      rewrite Ho. apply Hall.
      rewrite <- Hkeys, <- Hlv. eapply dict_get_some_in; eauto. }
    rewrite Hc in Hin. apply in_concat_nth in Hin as (k & batch & Hk' & Hb).
    exists k, batch. rewrite (Hl k batch node Hk' Hb) in Hn.
    injection Hn as <-. auto.
Qed.

(** X6. In the metrics the BFS sorter returns on a non-empty graph,
    [max_level] is the index of the last batch and the largest level in the
    returned levels, [max_queue_size] is the size of the largest batch,
    [edges] is the number of edges and [vertices] the number of keys. *)
Theorem bfs_metrics_values (g : graph) (t0 t1 : float)
  (order : list string) (levels : dict Z) (metrics : dict pyval) :
  g <> [] ->
  topological_sort_bfs t0 t1 g = Return (order, levels, metrics) ->
  let batches := bfs_batches (bfs_fuel g) g (fst (bfs_init g)) in
  dict_get metrics "vertices" = Some (PyInt (len (dict_keys g))) /\
  dict_get metrics "edges" = Some (PyInt (len (edges g))) /\
  dict_get metrics "max_level" = Some (PyInt (len batches - 1)) /\
  (forall node l, dict_get levels node = Some l -> 0 <= l <= len batches - 1) /\
  (exists node, dict_get levels node = Some (len batches - 1)) /\
  exists largest,
    dict_get metrics "max_queue_size" = Some (PyInt (len largest)) /\
    In largest batches /\
    forall batch, In batch batches -> len batch <= len largest.
Proof.
  intros Hne H batches.
  destruct (bfs_success_batches g t0 t1 order levels metrics H)
    as (Hc & Hnd & Hl & Hl').
  fold batches in Hc, Hl, Hl'.
  destruct (bfs_return_state g t0 t1 order levels metrics Hne H)
    as (st & Hloop & Hq & Hinv & Hlen & Ho & Hlv & ->).
  destruct (bfs_loop_counters g _ _ _ Hloop) as [Hcl Hmq].
  fold batches in Hcl, Hmq.
  destruct (bfs_init_fields g) as [Hr0 Hc0]. rewrite Hc0 in Hcl.
  assert (Hk : len (dict_keys g) = len g).
  { unfold len, dict_keys. now rewrite length_map. }
  assert (Hbne : batches <> []).
  { intros Hnil. rewrite Hnil in Hc. simpl in Hc.
    assert (Hd : length (b_in_degree st) = 0%nat) by (rewrite <- Hlen, <- Ho, Hc; reflexivity).
    destruct Hinv as (_ & Hkeys & _). unfold bfs_core in Hkeys. simpl in Hkeys.
    destruct g as [|[k nbrs] g']; [congruence|].
    assert (Hin : In k (dict_keys (b_in_degree st))).
    { rewrite Hkeys. apply (in_degree_table_spec ((k, nbrs) :: g')).
      unfold referenced. simpl. now left. }
    unfold dict_keys in Hin. destruct (b_in_degree st); [destruct Hin|].
    discriminate. }
  rewrite Hk, <- bfs_init_edge_count, Hcl.
  split; [reflexivity|]. split; [reflexivity|].
  split; [cbn [dict_get]; simpl; do 2 f_equal; lia|].
  split; [|split].
  - intros node l Hn. destruct (Hl' node l Hn) as (k & batch & -> & Hk' & _).
    assert (Hlt : (k < length batches)%nat).
    { apply nth_error_Some. rewrite Hk'. discriminate. }
    unfold len. lia.
  - destruct (nth_error batches (length batches - 1)) as [batch|] eqn:En.
    + assert (Hb : batch <> []).
      { apply (bfs_batches_nonempty g (bfs_fuel g) (fst (bfs_init g))).
        eapply nth_error_In; eauto. }
      destruct batch as [|node batch]; [congruence|]. exists node.
      rewrite (Hl _ _ node En) by now left. f_equal. unfold len.
      destruct batches; [congruence|]. simpl length. lia.
    + apply nth_error_None in En. destruct batches; [congruence|].
      simpl in En. lia.
  - destruct (fold_max_spec (map len batches) (b_max_queue_size (fst (bfs_init g))))
      as (H1 & H2 & H3).
    rewrite <- Hmq in H1, H2, H3.
    assert (Hhead : exists b0, In b0 batches /\
                      b_max_queue_size (fst (bfs_init g)) = len b0).
    { rewrite bfs_init_max. unfold batches.
      pose proof Hbne as Hbne'. unfold batches in Hbne'.
      destruct (bfs_fuel g) as [|f] eqn:Ef; [unfold bfs_fuel in Ef; discriminate|].
      cbn [bfs_batches] in *.
      destruct (b_queue (fst (bfs_init g))) as [|c q] eqn:Eq; [congruence|].
      destruct (bfs_batch g (fst (bfs_init g))); try congruence.
      exists (c :: q). split; [now left|reflexivity]. }
    destruct Hhead as (b0 & Hb0 & Hmax0).
    assert (Hex : exists largest, In largest batches /\
                                  b_max_queue_size st = len largest).
    { destruct H3 as [H3|H3].
      - exists b0. split; auto. congruence.
      - apply in_map_iff in H3 as (b & Hb & Hin). exists b. auto. }
    destruct Hex as (largest & Hin & Hmax). exists largest.
    split; [|split; [exact Hin|]].
    + cbn [dict_get]. simpl. now rewrite Hmax.
    + intros batch Hb. rewrite <- Hmax. apply H2. apply in_map_iff. eauto.
Qed.

Lemma bfs_metrics_values_witness :
  exists order levels metrics,
    topological_sort_bfs 0 1 diamond = Return (order, levels, metrics) /\
    dict_get metrics "max_level"
    = Some (PyInt (len (bfs_batches (bfs_fuel diamond) diamond
                                    (fst (bfs_init diamond))) - 1)).
Proof.
  assert (H : topological_sort_bfs 0 1 diamond
              = Return (["A"; "B"; "C"; "D"],
                        [("A", 0); ("B", 1); ("C", 1); ("D", 2)],
                        [("execution_time_ms", PyFloat (elapsed_ms 0 1));
                         ("vertices", PyInt 4); ("edges", PyInt 4);
                         ("theoretical_operations", PyInt 8);
                         ("actual_operations", PyInt 8);
                         ("space_complexity", PyInt 4);
                         ("max_level", PyInt 2);
                         ("max_queue_size", PyInt 2)]))
    by (vm_compute; reflexivity).
  assert (Hne : diamond <> []) by discriminate.
  eexists _, _, _. split; [exact H|].
  exact (proj1 (proj2 (proj2 (bfs_metrics_values diamond 0 1 _ _ _ Hne H)))).
Defined.

Lemma batch_relax_new g : forall batch d acc d' q',
  batch_relax g batch d acc = Return (d', q') ->
  forall v, In v q' ->
            In v acc \/ exists c, In c batch /\ In v (dict_get_default g c []).
Proof.
  induction batch as [|c batch IH]; intros d acc d' q' H v Hv.
  - injection H as <- <-. now left.
  - cbn [batch_relax] in H.
    destruct (relax (dict_get_default g c []) d acc) as [[d1 acc1]| |] eqn:Er;
      cbn [bind fst snd] in H; try discriminate.
    destruct (IH d1 acc1 d' q' H v Hv) as [Hacc|(c' & Hc' & Hin)].
    + apply relax_spec in Er as (_ & _ & new & -> & _ & Hnew).
      apply in_app_iff in Hacc as [Hacc|Hn]; [now left|].
      right. exists c. split; [now left|].
      apply Hnew in Hn as (x & _ & Hx). apply cnt_pos_in. lia.
    + right. exists c'. split; [now right|assumption].
Qed.

Lemma bfs_batches_head g fuel st b :
  nth_error (bfs_batches fuel g st) 0 = Some b -> b = b_queue st.
Proof.
  destruct fuel as [|fuel]; cbn [bfs_batches];
    destruct (b_queue st) as [|c q]; try discriminate.
  destruct (bfs_batch g st); try discriminate.
  now intros [= <-].
Qed.

(** A node of a batch after the first was enqueued by a node of the batch
    before it. *)
Lemma bfs_batches_parent g : forall fuel st j b b',
  nth_error (bfs_batches fuel g st) j = Some b ->
  nth_error (bfs_batches fuel g st) (S j) = Some b' ->
  forall v, In v b' -> exists c, In c b /\ edge g c v.
Proof.
  induction fuel as [|fuel IH]; intros st j b b' Hj Hj' v Hv.
  - simpl in Hj. destruct (b_queue st); destruct j; discriminate.
  - cbn [bfs_batches] in Hj, Hj'.
    destruct (b_queue st) as [|c q] eqn:Eq; [destruct j; discriminate|].
    destruct (bfs_batch g st) as [st1| |] eqn:Eb;
      try (destruct j; discriminate).
    destruct j as [|j].
    + injection Hj as <-. cbn [nth_error] in Hj'.
      apply bfs_batches_head in Hj'. subst b'.
      destruct (bfs_batch_spec g st st1 Eb) as (Hrel & _).
      rewrite Eq in Hrel.
      destruct (batch_relax_new g _ _ _ _ _ Hrel v Hv) as [[]|(c' & Hc' & Hin)].
      exists c'. split; [assumption|now apply neighbors_edge].
    + cbn [nth_error] in Hj, Hj'. eapply IH; eauto.
Qed.

(** The predecessors of a node of a batch were dequeued in earlier
    batches. *)
Lemma bfs_batches_preds g :
  dict_wf g ->
  forall fuel st,
    loop_inv g (bfs_core st) ->
    forall j batch v u,
      nth_error (bfs_batches fuel g st) j = Some batch -> In v batch ->
      edge g u v ->
      In u (b_result st) \/
      exists i b', (i < j)%nat /\ nth_error (bfs_batches fuel g st) i = Some b'
                   /\ In u b'.
Proof.
  intros Hwf. induction fuel as [|fuel IH]; intros st Hinv j batch v u Hj Hv He.
  - simpl in Hj. destruct (b_queue st); destruct j; discriminate.
  - cbn [bfs_batches] in Hj |- *.
    destruct (b_queue st) as [|c q] eqn:Eq; [destruct j; discriminate|].
    destruct (bfs_batch g st) as [st1| |] eqn:Eb;
      try (destruct j; discriminate).
    destruct j as [|j].
    + injection Hj as <-. left.
      destruct Hinv as (Hq & _ & Ht). specialize (Ht Hwf).
      unfold bfs_core in Hq, Ht. rewrite Eq in Hq, Ht.
      destruct Hq as (_ & _ & Hincl & Hle). destruct Ht as (Hrem & _ & _).
      assert (Hin : In v (b_result st ++ c :: q)) by (apply in_app_iff; now right).
      destruct (Hle v Hin) as (n & Hn & Hn0).
      rewrite (Hrem v (Hincl v Hin)) in Hn. injection Hn as <-.
      pose proof (remaining_nonneg g (b_result st) v).
      apply (remaining_zero g (b_result st) v u); [lia|assumption].
    + cbn [nth_error] in Hj.
      assert (Hinv1 : loop_inv g (bfs_core st1)).
      { eapply (bfs_batch_steps (loop_inv g)); eauto using step_loop_inv. }
      destruct (bfs_batch_spec g st st1 Eb) as (_ & Hr1 & _).
      rewrite Eq in Hr1.
      destruct (IH st1 Hinv1 j batch v u Hj Hv He) as [Hu|(i & b' & Hi & Hn & Hu)].
      * rewrite Hr1 in Hu. apply in_app_iff in Hu as [Hu|Hu]; [now left|].
        right. exists 0%nat, (c :: q). split; [lia|]. split; [reflexivity|assumption].
      * right. exists (S i), b'. split; [lia|]. split; assumption.
Qed.

Lemma bfs_first_batch g t0 t1 order levels metrics :
  g <> [] ->
  topological_sort_bfs t0 t1 g = Return (order, levels, metrics) ->
  nth_error (bfs_batches (bfs_fuel g) g (fst (bfs_init g))) 0
  = Some (zero_in_degree (fst (count_in_degrees g (init_in_degree g)))) /\
  zero_in_degree (fst (count_in_degrees g (init_in_degree g))) <> [].
Proof.
  intros Hne H.
  destruct (bfs_return_state g t0 t1 order levels metrics Hne H)
    as (st & Hloop & Hq & Hinv & Hlen & Ho & _).
  assert (Hq0 : b_queue (fst (bfs_init g))
                = zero_in_degree (fst (count_in_degrees g (init_in_degree g)))).
  { pose proof (bfs_init_core g) as Hc. unfold bfs_core in Hc. now injection Hc. }
  destruct (bfs_init_fields g) as [Hr0 _].
  rewrite bfs_fuel_eq in *.
  rewrite bfs_loop_unfold in Hloop. cbn [bfs_batches].
  destruct (b_queue (fst (bfs_init g))) as [|c q] eqn:Eq.
  - exfalso. injection Hloop as <-. rewrite Hr0 in Hlen.
    destruct Hinv as (_ & Hkeys & _). unfold bfs_core in Hkeys. simpl in Hkeys.
    destruct g as [|[k nbrs] g']; [congruence|].
    assert (Hin : In k (dict_keys (b_in_degree (fst (bfs_init ((k, nbrs) :: g')))))).
    { rewrite Hkeys. apply (in_degree_table_spec ((k, nbrs) :: g')).
      unfold referenced. simpl. now left. }
    unfold dict_keys in Hin.
    destruct (b_in_degree (fst (bfs_init ((k, nbrs) :: g')))); [destruct Hin|].
    discriminate.
  - destruct (bfs_batch g (fst (bfs_init g))) as [st1| |]; cbn [bind] in Hloop;
      try discriminate.
    rewrite <- Hq0. split; [reflexivity|discriminate].
Qed.

(** X8. In the levels the BFS sorter returns, every edge goes from a lower
    level to a higher one, the nodes of level 0 are the nodes without
    predecessor, and a node of a level above 0 has a predecessor one level
    below. *)
Theorem bfs_levels_follow_edges (g : graph) (t0 t1 : float)
  (order : list string) (levels : dict Z) (metrics : dict pyval) :
  dict_wf g ->
  topological_sort_bfs t0 t1 g = Return (order, levels, metrics) ->
  (forall u v, edge g u v ->
     exists lu lv, dict_get levels u = Some lu /\
                   dict_get levels v = Some lv /\ lu < lv)
  /\
  (forall v, In v (referenced g) ->
     (dict_get levels v = Some 0 <-> forall u, ~ edge g u v))
  /\
  (forall v l, dict_get levels v = Some l -> 0 < l ->
     exists u, edge g u v /\ dict_get levels u = Some (l - 1)).
Proof.
  intros Hwf H.
  destruct (bfs_success_batches g t0 t1 order levels metrics H)
    as (Hc & Hnd & Hl & Hl').
  destruct (bfs_return_sorted g t0 t1 order levels metrics Hwf H)
    as (_ & Hall & _).
  set (batches := bfs_batches (bfs_fuel g) g (fst (bfs_init g))) in *.
  pose proof (init_loop_inv g) as Hinit. cbv zeta in Hinit.
  rewrite <- bfs_init_core in Hinit.
  destruct (bfs_init_fields g) as [Hr0 _].
  assert (Hbatch : forall v, In v (referenced g) ->
            exists k batch, nth_error batches k = Some batch /\ In v batch).
  { intros v Hv. apply Hall in Hv. rewrite Hc in Hv.
    now apply in_concat_nth in Hv. }
  split; [|split].
  - intros u v He. destruct (edges_referenced g u v He) as [_ Hv].
    destruct (Hbatch v Hv) as (j & bj & Hj & Hvj).
    destruct (bfs_batches_preds g Hwf _ _ Hinit j bj v u Hj Hvj He)
      as [Hu|(i & bi & Hi & Hni & Hui)].
    + rewrite Hr0 in Hu. destruct Hu.
    + exists (Z.of_nat i), (Z.of_nat j).
      split; [now apply (Hl i bi)|]. split; [now apply (Hl j bj)|lia].
  - intros v Hv.
    assert (Hne : g <> []) by (intros Hg; rewrite Hg in Hv; destruct Hv).
    destruct (bfs_first_batch g t0 t1 order levels metrics Hne H) as [H0 _].
    fold batches in H0.
    destruct (in_degree_table_spec g) as (Hwf0 & Hk0 & Hg0 & _).
    set (d0 := fst (count_in_degrees g (init_in_degree g))) in *.
    assert (Hsrc : In v (zero_in_degree d0) <-> forall u, ~ edge g u v).
    { rewrite zero_in_degree_spec by assumption. split.
      - intros Hz u He. apply (dict_get_default_some d0 v 0 0) in Hz.
        rewrite Hg0 in Hz. apply edges_in in He as (nbrs & Hin & Hvn).
        assert (Ht : In v (targets g)).
        { unfold targets. apply in_concat. exists nbrs. split; auto.
          apply in_map_iff. exists (u, nbrs). auto. }
        apply cnt_pos_in in Ht. lia.
      - intros Hno. destruct (dict_get_in d0 v) as [x Hx]; [now apply Hk0|].
        rewrite Hx. f_equal. apply (dict_get_default_some d0 v x 0) in Hx.
        rewrite Hg0 in Hx. subst x.
        pose proof (cnt_nonneg v (targets g)) as Hge.
        destruct (Z.eq_dec (cnt v (targets g)) 0) as [|Hnz]; [assumption|].
        exfalso. assert (Ht : In v (targets g)) by (apply cnt_pos_in; lia).
        unfold targets in Ht. apply in_concat in Ht as (nbrs & Hn & Hvn).
        apply in_map_iff in Hn as ([u nbrs'] & Heq & Hin). simpl in Heq.
        subst nbrs'. apply (Hno u). apply edges_in. eauto. }
    rewrite <- Hsrc. split.
    + intros Hz. destruct (Hl' v 0 Hz) as (k & batch & Hk & Hn & Hin).
      assert (k = 0%nat) by lia. subst k. rewrite H0 in Hn.
      now injection Hn as <-.
    + intros Hz. now apply (Hl 0%nat (zero_in_degree d0)).
  - intros v l Hv Hpos. destruct (Hl' v l Hv) as (k & batch & -> & Hn & Hin).
    destruct k as [|j]; [lia|].
    destruct (nth_error batches j) as [bj|] eqn:Ej.
    + destruct (bfs_batches_parent g _ _ j bj batch Ej Hn v Hin) as (c & Hc' & He).
      exists c. split; [assumption|].
      rewrite (Hl j bj c Ej Hc'). f_equal. lia.
    + apply nth_error_None in Ej.
      assert (Hlt : (S j < length batches)%nat).
      { apply nth_error_Some. fold batches. rewrite Hn. discriminate. }
      lia.
Qed.

Lemma bfs_levels_follow_edges_witness :
  exists order levels metrics,
    topological_sort_bfs 0 1 diamond = Return (order, levels, metrics) /\
    forall u v, edge diamond u v ->
      exists lu lv, dict_get levels u = Some lu /\
                    dict_get levels v = Some lv /\ lu < lv.
Proof.
  assert (Hwf : dict_wf diamond).
  { unfold dict_wf. simpl. repeat constructor; simpl; intuition discriminate. }
  assert (H : topological_sort_bfs 0 1 diamond
              = Return (["A"; "B"; "C"; "D"],
                        [("A", 0); ("B", 1); ("C", 1); ("D", 2)],
                        [("execution_time_ms", PyFloat (elapsed_ms 0 1));
                         ("vertices", PyInt 4); ("edges", PyInt 4);
                         ("theoretical_operations", PyInt 8);
                         ("actual_operations", PyInt 8);
                         ("space_complexity", PyInt 4);
                         ("max_level", PyInt 2);
                         ("max_queue_size", PyInt 2)]))
    by (vm_compute; reflexivity).
  eexists _, _, _. split; [exact H|].
  exact (proj1 (bfs_levels_follow_edges diamond 0 1 _ _ _ Hwf H)).
Defined.

(* ================================================================= *)
(** * The sources come first *)

Lemma init_fold_keys ks : forall (acc : dict Z),
  NoDup ks -> (forall x, In x ks -> ~ In x (dict_keys acc)) ->
  dict_keys (fold_left (fun in_degree node => dict_set in_degree node 0) ks acc)
  = dict_keys acc ++ ks.
Proof.
  induction ks as [|k ks IH]; intros acc Hnd Hdis; simpl.
  - now rewrite app_nil_r.
  - inversion Hnd as [|? ? Hk Hnd']; subst. rewrite IH; auto.
    + rewrite dict_keys_set_notin by (apply Hdis; now left).
      now rewrite <- app_assoc.
    + intros x Hx Hc. apply dict_keys_set_iff in Hc as [Hc| ->].
      * apply (Hdis x); [now right|assumption].
      * contradiction.
Qed.

Lemma count_edge_fold_keys nbrs : forall (d : dict Z) (e : Z),
  exists extra,
    dict_keys (fst (fold_left count_edge nbrs (d, e))) = dict_keys d ++ extra /\
    forall x, In x extra -> In x nbrs.
Proof.
  induction nbrs as [|n nbrs IH]; intros d e; simpl.
  - exists []. rewrite app_nil_r. split; [reflexivity|intros x []].
  - destruct (IH (dict_set d n (dict_get_default d n 0 + 1)) (e + 1))
      as (extra & Hk & Hin).
    rewrite Hk, dict_keys_set.
    destruct (in_dec string_dec n (dict_keys d)).
    + exists extra. split; [reflexivity|]. intros x Hx. right. auto.
    + exists (n :: extra). rewrite <- app_assoc. split; [reflexivity|].
      intros x [<-|Hx]; [now left|right; auto].
Qed.

Lemma count_fold_keys g : forall (st : dict Z * Z),
  exists extra,
    dict_keys (fst (fold_left (fun st '(_, nbrs) => fold_left count_edge nbrs st)
                              g st))
    = dict_keys (fst st) ++ extra /\
    forall x, In x extra -> In x (targets g).
Proof.
  induction g as [|[node nbrs] g IH]; intros [d e]; simpl.
  - exists []. rewrite app_nil_r. split; [reflexivity|intros x []].
  - destruct (count_edge_fold_keys nbrs d e) as (ex1 & Hk1 & Hin1).
    destruct (IH (fold_left count_edge nbrs (d, e))) as (ex2 & Hk2 & Hin2).
    exists (ex1 ++ ex2). rewrite Hk2, Hk1, <- app_assoc. split; [reflexivity|].
    unfold targets. simpl. intros x Hx. apply in_app_iff.
    apply in_app_iff in Hx as [Hx|Hx]; [left|right]; auto.
Qed.

Lemma zero_in_degree_keys (d : dict Z) :
  dict_wf d ->
  zero_in_degree d
  = filter (fun k => match dict_get d k with
                     | Some n => n =? 0
                     | None => false
                     end) (dict_keys d).
Proof.
  unfold zero_in_degree, dict_wf.
  induction d as [|[k n] d IH]; intros Hwf; [reflexivity|].
  inversion Hwf as [|? ? Hk Hnd]; subst. cbn [map filter dict_keys fst dict_get].
  rewrite String.eqb_refl.
  assert (Hext : filter (fun k0 => match (if String.eqb k k0 then Some n
                                          else dict_get d k0) with
                                   | Some n0 => n0 =? 0
                                   | None => false
                                   end) (map fst d)
                 = filter (fun k0 => match dict_get d k0 with
                                     | Some n0 => n0 =? 0
                                     | None => false
                                     end) (map fst d)).
  { apply filter_ext_in. intros x Hx.
    destruct (String.eqb_spec k x) as [->|]; [contradiction|reflexivity]. }
  rewrite Hext. specialize (IH Hnd). unfold dict_keys in IH. rewrite <- IH.
  destruct (n =? 0); reflexivity.
Qed.

Lemma filter_none {A : Type} (f : A -> bool) (l : list A) :
  (forall x, In x l -> f x = false) -> filter f l = [].
Proof.
  induction l as [|a l IH]; simpl; intros H; [reflexivity|].
  rewrite (H a (or_introl eq_refl)). apply IH. intros x Hx. apply H. now right.
Qed.

Lemma sources_queue g :
  dict_wf g ->
  zero_in_degree (fst (count_in_degrees g (init_in_degree g))) = sources g.
Proof.
  intros Hwf. destruct (in_degree_table_spec g) as (Hwf0 & Hk0 & Hg0 & _).
  set (d0 := fst (count_in_degrees g (init_in_degree g))) in *.
  assert (Hkeys : exists extra, dict_keys d0 = dict_keys g ++ extra /\
                                forall x, In x extra -> In x (targets g)).
  { unfold d0, count_in_degrees.
    destruct (count_fold_keys g (init_in_degree g, 0)) as (extra & Hk & Hin).
    exists extra. split; [|assumption]. rewrite Hk. simpl fst.
    unfold init_in_degree. rewrite init_fold_keys; auto. }
  destruct Hkeys as (extra & Hk & Hextra).
  assert (Hval : forall k, In k (dict_keys d0) ->
                           dict_get d0 k = Some (cnt k (targets g))).
  { intros k Hin. destruct (dict_get_in d0 k Hin) as [x Hx]. rewrite Hx.
    f_equal. rewrite <- Hg0. symmetry. now apply dict_get_default_some. }
  rewrite zero_in_degree_keys by assumption. rewrite Hk, filter_app.
  replace (filter _ extra) with (@nil string).
  - rewrite app_nil_r. unfold sources. apply filter_ext_in. intros k Hin.
    rewrite Hval by (rewrite Hk; apply in_app_iff; now left).
    destruct (in_dec string_dec k (targets g)) as [Ht|Ht].
    + apply Z.eqb_neq. apply cnt_pos_in in Ht. lia.
    + apply Z.eqb_eq. pose proof (cnt_nonneg k (targets g)).
      destruct (Z.eq_dec (cnt k (targets g)) 0); [assumption|].
      exfalso. apply Ht. apply cnt_pos_in. lia.
  - symmetry. apply filter_none. intros k Hin.
    rewrite Hval by (rewrite Hk; apply in_app_iff; now right).
    apply Z.eqb_neq.
    pose proof (proj2 (cnt_pos_in k (targets g)) (Hextra k Hin)). lia.
Qed.

Lemma bfs_sources_first g t0 t1 order levels metrics :
  dict_wf g ->
  topological_sort_bfs t0 t1 g = Return (order, levels, metrics) ->
  exists rest, order = sources g ++ rest.
Proof.
  intros Hwf H. destruct g as [|e g'] eqn:Eg.
  - injection H as <- _ _. exists []. reflexivity.
  - rewrite <- Eg in *. assert (Hne : g <> []) by (rewrite Eg; discriminate).
    destruct (bfs_success_batches g t0 t1 order levels metrics H) as (Hc & _).
    destruct (bfs_first_batch g t0 t1 order levels metrics Hne H) as [H0 _].
    rewrite sources_queue in H0 by assumption.
    destruct (bfs_batches (bfs_fuel g) g (fst (bfs_init g))) as [|b tl];
      [discriminate|].
    injection H0 as ->. exists (concat tl). exact Hc.
Qed.

(** X9. The order the Kahn sorter and the BFS sorter return begins with
    the keys of the graph that are nobody's successor, in the order of the
    keys of the graph. *)
Theorem sources_first (g : graph) (t0 t1 : float) :
  dict_wf g ->
  (forall order metrics,
      topological_sort_kahn t0 t1 g = Return (order, metrics) ->
      exists rest, order = sources g ++ rest)
  /\
  (forall order levels metrics,
      topological_sort_bfs t0 t1 g = Return (order, levels, metrics) ->
      exists rest, order = sources g ++ rest).
Proof.
  intros Hwf. split.
  - intros order metrics H.
    destruct (kahn_bfs_same_outcome g t0 t1 t0 t1)
      as [(rem & Hk & _)|(order' & mk & levels & mb & Hk & Hb)].
    + rewrite Hk in H. discriminate.
    + rewrite Hk in H. injection H as <- _.
      eapply bfs_sources_first; eauto.
  - intros order levels metrics. now apply bfs_sources_first.
Qed.

Lemma sources_first_witness :
  dict_wf [("B", ["C"]); ("A", ["C"]); ("C", [])] /\
  exists order metrics rest,
    topological_sort_kahn 0 1 [("B", ["C"]); ("A", ["C"]); ("C", [])]
    = Return (order, metrics) /\
    order = ["B"; "A"] ++ rest.
Proof.
  assert (Hwf : dict_wf [("B", ["C"]); ("A", ["C"]); ("C", [])]).
  { unfold dict_wf. simpl. repeat constructor; simpl; intuition discriminate. }
  split; [exact Hwf|].
  assert (H : topological_sort_kahn 0 1 [("B", ["C"]); ("A", ["C"]); ("C", [])]
              = Return (["B"; "A"; "C"],
                        [("execution_time_ms", PyFloat (elapsed_ms 0 1));
                         ("vertices", PyInt 3); ("edges", PyInt 2);
                         ("theoretical_operations", PyInt 5);
                         ("actual_operations", PyInt 5);
                         ("space_complexity", PyInt 3)]))
    by (vm_compute; reflexivity).
  destruct (proj1 (sources_first _ 0 1 Hwf) _ _ H) as [rest Hrest].
  eexists _, _, rest. split; [exact H|exact Hrest].
Defined.

(* ================================================================= *)
(** * Grouping nodes by level ([analyze_dependency_levels], bfs.py) *)

Lemma groups_get_set_eq lg level members :
  groups_get (groups_set lg level members) level = Some members.
Proof.
  induction lg as [|[l old] lg IH]; simpl.
  - now rewrite Z.eqb_refl.
  - destruct (l =? level) eqn:E; simpl; rewrite E; auto.
Qed.

Lemma groups_get_set_neq lg level level' members :
  level <> level' ->
  groups_get (groups_set lg level members) level' = groups_get lg level'.
Proof.
  intros Hne. induction lg as [|[l old] lg IH]; simpl.
  - apply Z.eqb_neq in Hne. now rewrite Hne.
  - destruct (l =? level) eqn:E; simpl.
    + apply Z.eqb_eq in E. subst l. apply Z.eqb_neq in Hne. now rewrite Hne.
    + destruct (l =? level'); auto.
Qed.

Lemma groups_keys_set lg level members :
  map fst (groups_set lg level members)
  = match groups_get lg level with
    | Some _ => map fst lg
    | None => map fst lg ++ [level]
    end.
Proof.
  induction lg as [|[l old] lg IH]; simpl; [reflexivity|].
  destruct (l =? level) eqn:E; simpl; [reflexivity|].
  rewrite IH. destruct (groups_get lg level); reflexivity.
Qed.

Lemma groups_get_none lg level :
  groups_get lg level = None <-> ~ In level (map fst lg).
Proof.
  induction lg as [|[l old] lg IH]; simpl; [tauto|].
  destruct (Z.eqb_spec l level) as [->|Hne].
  - split; [discriminate|tauto].
  - rewrite IH. tauto.
Qed.

(** What one pass of the loop does to the groups. *)
Lemma group_node_spec lg node level :
  exists lg',
    group_node lg (node, level) = Return lg' /\
    (forall k, groups_get lg' k
               = if k =? level
                 then Some (match groups_get lg level with
                            | Some members => members
                            | None => []
                            end ++ [node])
                 else groups_get lg k) /\
    map fst lg'
    = match groups_get lg level with
      | Some _ => map fst lg
      | None => map fst lg ++ [level]
      end.
Proof.
  unfold group_node. destruct (groups_get lg level) as [members|] eqn:E.
  - rewrite E. eexists. split; [reflexivity|]. split.
    + intros k. destruct (Z.eqb_spec k level) as [->|Hne].
      * apply groups_get_set_eq.
      * apply groups_get_set_neq. congruence.
    + now rewrite groups_keys_set, E.
  - rewrite groups_get_set_eq. eexists. split; [reflexivity|]. split.
    + intros k. destruct (Z.eqb_spec k level) as [->|Hne].
      * apply groups_get_set_eq.
      * rewrite !groups_get_set_neq by congruence. reflexivity.
    + now rewrite groups_keys_set, groups_get_set_eq, groups_keys_set, E.
Qed.

Lemma members_at_cons node level (levels : dict Z) k :
  members_at ((node, level) :: levels) k
  = if k =? level then node :: members_at levels k else members_at levels k.
Proof.
  unfold members_at. simpl. rewrite (Z.eqb_sym level k).
  destruct (k =? level); reflexivity.
Qed.

Lemma filter_filter_and {A : Type} (f g : A -> bool) (l : list A) :
  filter f (filter g l) = filter (fun x => g x && f x) l.
Proof.
  induction l as [|a l IH]; simpl; [reflexivity|].
  destruct (g a); simpl; [destruct (f a)|]; now rewrite IH.
Qed.

Lemma analyze_loop_spec : forall (items : list (string * Z)) (lg : groups),
  exists lg',
    analyze_loop items lg = Return lg' /\
    (forall k, groups_get lg' k
               = match groups_get lg k, members_at items k with
                 | Some members, more => Some (members ++ more)
                 | None, [] => None
                 | None, more => Some more
                 end) /\
    map fst lg'
    = map fst lg
      ++ filter (fun l => if in_dec Z.eq_dec l (map fst lg) then false else true)
                (first_seen (map snd items)).
Proof.
  induction items as [|[node level] items IH]; intros lg.
  - exists lg. split; [reflexivity|]. split.
    + intros k. unfold members_at. simpl.
      destruct (groups_get lg k); [now rewrite app_nil_r|reflexivity].
    + simpl. now rewrite app_nil_r.
  - cbn [analyze_loop].
    destruct (group_node_spec lg node level) as (lg1 & -> & Hget1 & Hkeys1).
    cbn [bind]. destruct (IH lg1) as (lg' & Hrun & Hget & Hkeys).
    exists lg'. split; [exact Hrun|]. split.
    + intros k. rewrite Hget, Hget1, members_at_cons.
      destruct (Z.eqb_spec k level) as [->|Hne].
      * destruct (groups_get lg level) as [members|];
          [now rewrite <- app_assoc|reflexivity].
      * reflexivity.
    + rewrite Hkeys, Hkeys1. cbn [map snd first_seen filter].
      destruct (groups_get lg level) as [members|] eqn:E.
      * assert (Hin : In level (map fst lg)).
        { destruct (in_dec Z.eq_dec level (map fst lg)) as [|Hn]; [assumption|].
          apply groups_get_none in Hn. congruence. }
        destruct (in_dec Z.eq_dec level (map fst lg)); [|contradiction].
        f_equal. rewrite filter_filter_and. apply filter_ext.
        intros l. destruct (in_dec Z.eq_dec l (map fst lg)) as [Hl|Hl];
          [now rewrite andb_false_r|].
        destruct (Z.eqb_spec l level) as [->|]; [contradiction|reflexivity].
      * assert (Hnin : ~ In level (map fst lg)) by now apply groups_get_none.
        destruct (in_dec Z.eq_dec level (map fst lg)); [contradiction|].
        rewrite <- app_assoc. f_equal. cbn [app]. f_equal.
        rewrite filter_filter_and. apply filter_ext.
        intros l. destruct (Z.eqb_spec l level) as [->|Hne]; cbn [negb andb].
        -- destruct (in_dec Z.eq_dec level (map fst lg ++ [level])) as [|Hn];
             [reflexivity|].
           exfalso. apply Hn. apply in_app_iff. right. now left.
        -- destruct (in_dec Z.eq_dec l (map fst lg ++ [level])) as [Hl|Hl];
             destruct (in_dec Z.eq_dec l (map fst lg)) as [Hl'|Hl'];
             try reflexivity.
           ++ apply in_app_iff in Hl as [Hl|[Hl|[]]]; [contradiction|congruence].
           ++ exfalso. apply Hl. apply in_app_iff. now left.
Qed.

(** X10. [analyze_dependency_levels] never raises. The group of a level is
    the list of the nodes that have that level, in the order of the levels
    dict; a level that no node has gets no group (so no group is empty);
    and the groups come in the order in which their levels first occur. *)
Theorem analyze_dependency_levels_groups (levels : dict Z) :
  exists lg,
    analyze_dependency_levels levels = Return lg /\
    (forall k, groups_get lg k
               = match members_at levels k with
                 | [] => None
                 | members => Some members
                 end) /\
    map fst lg = first_seen (map snd levels).
Proof.
  unfold analyze_dependency_levels.
  destruct (analyze_loop_spec levels []) as (lg & Hrun & Hget & Hkeys).
  exists lg. split; [exact Hrun|]. split.
  - intros k. rewrite Hget. reflexivity.
  - rewrite Hkeys. simpl. apply forallb_filter_id. apply forallb_forall.
    intros x _. reflexivity.
Qed.

Lemma members_at_in (levels : dict Z) k x :
  dict_wf levels ->
  (In x (members_at levels k) <-> dict_get levels x = Some k).
Proof.
  unfold dict_wf. induction levels as [|[n l] levels IH]; intros Hwf.
  - simpl. split; [tauto|discriminate].
  - inversion Hwf as [|? ? Hn Hnd]; subst. rewrite members_at_cons.
    cbn [dict_get]. destruct (String.eqb_spec n x) as [->|Hne].
    + destruct (Z.eqb_spec k l) as [->|Hkl].
      * split; [reflexivity|now left].
      * rewrite IH by assumption. split.
        -- intros H. apply dict_get_some_in in H. contradiction.
        -- intros [= ->]. congruence.
    + destruct (Z.eqb_spec k l) as [->|Hkl].
      * simpl. rewrite IH by assumption. split; [intros [?|?]; [congruence|auto]|auto].
      * now apply IH.
Qed.

Lemma members_at_nodup (levels : dict Z) k :
  dict_wf levels -> NoDup (members_at levels k).
Proof.
  unfold dict_wf, members_at.
  induction levels as [|[n l] levels IH]; intros Hwf; [constructor|].
  inversion Hwf as [|? ? Hn Hnd]; subst. simpl.
  destruct (l =? k); simpl; auto. constructor; auto.
  intros Hc. apply Hn. apply in_map_iff in Hc as ([n' l'] & <- & Hin).
  apply filter_In in Hin as [Hin _]. apply in_map_iff. exists (n', l'). auto.
Qed.

Lemma NoDup_concat_nth {A : Type} (ls : list (list A)) k l :
  NoDup (concat ls) -> nth_error ls k = Some l -> NoDup l.
Proof.
  revert k. induction ls as [|a ls IH]; intros k Hnd Hk.
  - destruct k; discriminate.
  - simpl in Hnd. destruct k as [|k].
    + injection Hk as <-. now apply NoDup_app_remove_r in Hnd.
    + apply (IH k); auto. now apply NoDup_app_remove_l in Hnd.
Qed.

Lemma bfs_levels_wf g t0 t1 order levels metrics :
  topological_sort_bfs t0 t1 g = Return (order, levels, metrics) ->
  dict_wf levels.
Proof.
  intros H. destruct g as [|e g'] eqn:Eg.
  - injection H as _ <- _. constructor.
  - rewrite <- Eg in *. assert (Hne : g <> []) by (rewrite Eg; discriminate).
    destruct (bfs_return_state g t0 t1 order levels metrics Hne H)
      as (st & Hloop & Hq & Hinv & Hlen & Ho & -> & _).
    pose proof (init_queue_inv g) as Hinit. cbv zeta in Hinit.
    rewrite <- bfs_init_core in Hinit.
    pose proof (bfs_loop_level_keys g _ _ _ Hinit (bfs_init_level_keys g) Hloop)
      as Hkeys.
    destruct Hinv as (_ & Hk & _). unfold bfs_core in Hk. simpl in Hk.
    unfold dict_wf. rewrite Hkeys, Hk. apply (in_degree_table_spec g).
Qed.

(** X11. Grouping the levels the BFS sorter returns gives back its
    batches: the group of level [k] holds the nodes of batch [k], each
    once. *)
Theorem bfs_groups_are_batches (g : graph) (t0 t1 : float)
  (order : list string) (levels : dict Z) (metrics : dict pyval) :
  topological_sort_bfs t0 t1 g = Return (order, levels, metrics) ->
  exists lg,
    analyze_dependency_levels levels = Return lg /\
    forall k batch,
      nth_error (bfs_batches (bfs_fuel g) g (fst (bfs_init g))) k = Some batch ->
      exists members,
        groups_get lg (Z.of_nat k) = Some members /\
        Permutation members batch.
Proof.
  intros H.
  destruct (bfs_success_batches g t0 t1 order levels metrics H)
    as (Hc & Hnd & Hl & Hl').
  pose proof (bfs_levels_wf g t0 t1 order levels metrics H) as Hwf.
  unfold analyze_dependency_levels.
  destruct (analyze_loop_spec levels []) as (lg & Hrun & Hget & _).
  exists lg. split; [exact Hrun|]. intros k batch Hk.
  assert (Hne : batch <> []).
  { apply (bfs_batches_nonempty g (bfs_fuel g) (fst (bfs_init g))).
    eapply nth_error_In; eauto. }
  assert (Hsame : forall x, In x (members_at levels (Z.of_nat k)) <-> In x batch).
  { intros x. rewrite members_at_in by assumption. split.
    - intros Hx. destruct (Hl' x _ Hx) as (k' & batch' & Heq & Hk' & Hin).
      apply Nat2Z.inj in Heq. subst k'. rewrite Hk in Hk'.
      now injection Hk' as <-.
    - intros Hx. now apply (Hl k batch). }
  exists (members_at levels (Z.of_nat k)). split.
  - rewrite Hget. simpl.
    destruct (members_at levels (Z.of_nat k)) as [|m ms] eqn:Em; [|reflexivity].
    destruct batch as [|b batch]; [congruence|].
    exfalso. apply (proj2 (Hsame b)). now left.
  - apply NoDup_Permutation; auto.
    + now apply members_at_nodup.
    + rewrite Hc in Hnd. eapply NoDup_concat_nth; eauto.
Qed.

Lemma bfs_groups_are_batches_witness :
  exists lg,
    analyze_dependency_levels [("A", 0); ("B", 1); ("C", 1); ("D", 2)]
    = Return lg /\
    forall k batch,
      nth_error (bfs_batches (bfs_fuel diamond) diamond (fst (bfs_init diamond)))
                k = Some batch ->
      exists members,
        groups_get lg (Z.of_nat k) = Some members /\
        Permutation members batch.
Proof.
  assert (H : topological_sort_bfs 0 1 diamond
              = Return (["A"; "B"; "C"; "D"],
                        [("A", 0); ("B", 1); ("C", 1); ("D", 2)],
                        [("execution_time_ms", PyFloat (elapsed_ms 0 1));
                         ("vertices", PyInt 4); ("edges", PyInt 4);
                         ("theoretical_operations", PyInt 8);
                         ("actual_operations", PyInt 8);
                         ("space_complexity", PyInt 4);
                         ("max_level", PyInt 2);
                         ("max_queue_size", PyInt 2)]))
    by (vm_compute; reflexivity).
  exact (bfs_groups_are_batches diamond 0 1 _ _ _ H).
Defined.

(* ================================================================= *)
(** * What the validator accepts *)

Lemma edge_ok_precedes order u v :
  NoDup order -> edge_ok (position_table order) u v -> precedes order u v.
Proof.
  intros Hnd (pu & pv & Hu & Hv & Hlt).
  assert (Hinu : In u order) by (apply position_table_in; eauto).
  assert (Hinv : In v order) by (apply position_table_in; eauto).
  apply in_split in Hinv as (m1 & m2 & ->).
  assert (Hv2 : ~ In v m2).
  { apply NoDup_remove_2 in Hnd. intros Hc. apply Hnd. apply in_app_iff. now right. }
  rewrite (position_table_last m1 v m2 Hv2) in Hv. injection Hv as <-.
  apply in_app_iff in Hinu as [Hu1|[Heq|Hu2]].
  - apply in_split in Hu1 as (a & b & ->). exists a, b, m2.
    now rewrite <- app_assoc.
  - subst u. rewrite (position_table_last m1 v m2 Hv2) in Hu.
    injection Hu as <-. lia.
  - exfalso. apply in_split in Hu2 as (a & b & ->).
    replace (m1 ++ v :: a ++ u :: b) with ((m1 ++ v :: a) ++ u :: b) in Hu, Hnd
      by now rewrite <- app_assoc.
    assert (Hub : ~ In u b).
    { apply NoDup_remove_2 in Hnd. intros Hc. apply Hnd. apply in_app_iff.
      now right. }
    rewrite (position_table_last _ u b Hub) in Hu. injection Hu as <-.
    rewrite len_app, len_cons in Hlt. unfold len in Hlt. lia.
Qed.

(** X12. On a non-empty order without repetition that holds both ends of
    every edge, the validator never raises: it returns
    [(True, "Valid topological order")] exactly when every edge
    [u -> v] has [u] before [v] in the order, and [(False, message)]
    otherwise.  It does not ask that the order holds every key of the
    graph.  The empty order it accepts for every graph. *)
Theorem validate_accepts_sorted (g : graph) (order : list string) :
  (NoDup order -> order <> [] ->
   (forall u v, edge g u v -> In u order /\ In v order) ->
   (validate_topological_order g order
    = Return (true, "Valid topological order"%string)
    <-> forall u v, edge g u v -> precedes order u v)
   /\
   (~ (forall u v, edge g u v -> precedes order u v) ->
    exists msg, validate_topological_order g order = Return (false, msg)))
  /\
  validate_topological_order g []
  = Return (true, "Empty order is valid for empty graph"%string).
Proof.
  split; [|reflexivity].
  intros Hnd Hne Hends.
  assert (Hv : validate_topological_order g order
               = scan_edges (position_table order) (edges g)
                   (Return (true, "Valid topological order"%string))).
  { destruct order; [congruence|]. unfold validate_topological_order.
    apply validate_nodes_scan. }
  destruct (scan_edges_total (position_table order) (edges g)
              (Return (true, "Valid topological order"%string)))
    as [(u & v & pu & pv & Hin & Hu & Hpv & Hge & Hs)|[Hok Hs]].
  { intros u v Hin. destruct (Hends u v Hin) as [Hu Hv'].
    split; apply position_table_in; assumption. }
  - assert (Hnot : ~ precedes order u v).
    { intros Hp. apply precedes_edge_ok in Hp; auto.
      destruct Hp as (pu' & pv' & Hu' & Hv' & Hlt).
      rewrite Hu in Hu'. rewrite Hpv in Hv'. injection Hu'. injection Hv'. lia. }
    split.
    + split.
      * rewrite Hv, Hs. discriminate.
      * intros Hall. exfalso. apply Hnot. now apply Hall.
    + intros _. rewrite Hv, Hs. eauto.
  - assert (Hall : forall u v, edge g u v -> precedes order u v).
    { intros u v He. apply edge_ok_precedes; auto. }
    split.
    + split; [intros _; exact Hall|intros _; now rewrite Hv, Hs].
    + intros Hn. contradiction.
Qed.

Lemma validate_accepts_sorted_witness :
  validate_topological_order [("A", ["B"]); ("C", [])] ["A"; "B"]
  = Return (true, "Valid topological order"%string)
  <-> forall u v, edge [("A", ["B"]); ("C", [])] u v -> precedes ["A"; "B"] u v.
Proof.
  refine (proj1 (proj1 (validate_accepts_sorted [("A", ["B"]); ("C", [])]
                                                ["A"; "B"]) _ _ _)).
  - repeat constructor; simpl; intuition discriminate.
  - discriminate.
  - intros u v [H|[]]. injection H as <- <-. simpl. tauto.
Defined.

(* ================================================================= *)
(** * Running the three sorters ([run_all_algorithms], main.py) *)

Lemma run_algorithm_raise g name e results :
  run_algorithm g name (Raise e) results
  = Return (dict_set results name (Errored e)).
Proof. reflexivity. Qed.

Lemma run_algorithm_return g name result levels metrics valid message x results :
  validate_topological_order g result = Return (valid, message) ->
  dict_get metrics "execution_time_ms" = Some x ->
  run_algorithm g name (Return (result, levels, metrics)) results
  = Return (dict_set results name (Ran result metrics levels valid message)).
Proof.
  intros Hv Ht. unfold run_algorithm. cbn [bind fst snd]. rewrite Hv.
  cbn [bind fst snd]. unfold report. rewrite Ht.
  destruct valid; reflexivity.
Qed.

Lemma run_algorithm_untimed g name result levels metrics message results :
  validate_topological_order g result = Return (true, message) ->
  dict_get metrics "execution_time_ms" = None ->
  run_algorithm g name (Return (result, levels, metrics)) results
  = Return (dict_set results name (Errored (KeyError "execution_time_ms"))).
Proof.
  intros Hv Ht. unfold run_algorithm. cbn [bind fst snd]. rewrite Hv.
  cbn [bind fst snd]. unfold report. rewrite Ht. reflexivity.
Qed.

Lemma kahn_metrics_timed g t0 t1 order metrics :
  topological_sort_kahn t0 t1 g = Return (order, metrics) ->
  exists x, dict_get metrics "execution_time_ms" = Some x.
Proof.
  intros H. unfold topological_sort_kahn, topological_sort_kahn_fuel in H.
  destruct g as [|e g'].
  - injection H as _ <-. eexists. reflexivity.
  - destruct (kahn_init (e :: g')) as [st0 ec].
    destruct (kahn_loop _ _ _) as [st| |]; cbn [bind] in H; try discriminate.
    destruct (negb _); [discriminate|]. injection H as _ <-.
    eexists. reflexivity.
Qed.

Lemma dfs_metrics_timed limit g t0 t1 order metrics :
  topological_sort_dfs limit t0 t1 g = Return (order, metrics) ->
  exists x, dict_get metrics "execution_time_ms" = Some x.
Proof.
  intros H. unfold topological_sort_dfs in H.
  destruct g as [|e g'].
  - injection H as _ <-. eexists. reflexivity.
  - destruct (dfs_roots _ _ _ _) as [st| |]; cbn [bind] in H; try discriminate.
    injection H as _ <-. eexists. reflexivity.
Qed.

Lemma bfs_metrics_timed g t0 t1 order levels metrics :
  g <> [] ->
  topological_sort_bfs t0 t1 g = Return (order, levels, metrics) ->
  exists x, dict_get metrics "execution_time_ms" = Some x.
Proof.
  intros Hne H.
  destruct (bfs_return_state g t0 t1 order levels metrics Hne H)
    as (st & _ & _ & _ & _ & _ & _ & ->).
  eexists. reflexivity.
Qed.

(** The entry the Kahn sorter leaves. *)
Lemma run_kahn_entry g t0 t1 results :
  dict_wf g ->
  exists entry,
    run_algorithm g "Kahn"
      (r <- topological_sort_kahn t0 t1 g ;; Return (fst r, None, snd r)) results
    = Return (dict_set results "Kahn" entry) /\
    (entry_valid entry = true <-> acyclic g) /\
    (~ acyclic g -> exists reported, entry = Errored (kahn_cycle_error reported)).
Proof.
  intros Hwf.
  destruct (kahn_outcome_cases g t0 t1) as [(order & m & H)|[e H]]; rewrite H;
    cbn [bind fst snd].
  - destruct (kahn_return_sorted g t0 t1 order m Hwf H) as (Hnd & _ & Hp).
    destruct (validate_sorted g order Hnd Hp) as [msg Hv].
    destruct (kahn_metrics_timed g t0 t1 order m H) as [x Hx].
    assert (Hac : acyclic g) by now apply sorted_acyclic with (order := order).
    eexists. split; [eapply run_algorithm_return; eauto|].
    split; [simpl; tauto|]. intros Hn. contradiction.
  - rewrite run_algorithm_raise. eexists. split; [reflexivity|].
    assert (Hn : ~ acyclic g).
    { intros Hac. destruct (kahn_sorts g t0 t1 Hwf Hac) as (o & m & H' & _).
      rewrite H' in H. discriminate. }
    split; [simpl; split; [discriminate|contradiction]|].
    intros _. apply kahn_error_remaining in H as (_ & rem & _ & -> & _). eauto.
Qed.

(** The entry the DFS sorter leaves. *)
Lemma run_dfs_entry limit g t0 t1 results :
  dict_wf g ->
  exists entry,
    run_algorithm g "DFS"
      (r <- topological_sort_dfs limit t0 t1 g ;; Return (fst r, None, snd r))
      results
    = Return (dict_set results "DFS" entry) /\
    ((entry_valid entry = true /\ acyclic g) \/
     (exists n,
         entry = Errored (ValueError [Lit "Cycle detected involving node: ";
                                      Lit n]) /\
         on_cycle g n) \/
     (entry = Errored RecursionError /\ (limit <= node_count g)%nat)).
Proof.
  intros Hwf.
  destruct (dfs_sort_outcome limit g t0 t1 Hwf)
    as [(n & H & Hc)|[(order & m & H & Hnd & _ & Hp)|[H Hle]]]; rewrite H;
    cbn [bind fst snd].
  - rewrite run_algorithm_raise. eexists. split; [reflexivity|].
    right. left. exists n. split; [reflexivity|exact Hc].
  - destruct (validate_sorted g order Hnd Hp) as [msg Hv].
    destruct (dfs_metrics_timed limit g t0 t1 order m H) as [x Hx].
    assert (Hac : acyclic g) by now apply sorted_acyclic with (order := order).
    eexists. split; [eapply run_algorithm_return; eauto|].
    left. split; [reflexivity|exact Hac].
  - rewrite run_algorithm_raise. eexists. split; [reflexivity|].
    right. right. split; [reflexivity|exact Hle].
Qed.

(** The entry the BFS sorter leaves. *)
Lemma run_bfs_entry g t0 t1 results :
  dict_wf g ->
  exists entry,
    run_algorithm g "BFS"
      (r <- topological_sort_bfs t0 t1 g ;;
       Return (fst (fst r), Some (snd (fst r)), snd r)) results
    = Return (dict_set results "BFS" entry) /\
    (entry_valid entry = true <-> acyclic g /\ g <> []) /\
    (~ acyclic g -> entry = Errored bfs_cycle_error) /\
    (g = [] -> entry = Errored (KeyError "execution_time_ms")).
Proof.
  intros Hwf. destruct g as [|e0 g'] eqn:Eg.
  - eexists. split; [reflexivity|]. split; [|split].
    + simpl. split; [discriminate|]. intros [_ Hne]. congruence.
    + intros Hn. exfalso. apply Hn. intros x Hx.
      apply clos_trans_tn1 in Hx. destruct Hx as [? []|? ? []].
    + reflexivity.
  - rewrite <- Eg in *. assert (Hne : g <> []) by (rewrite Eg; discriminate).
    destruct (bfs_outcome_cases g t0 t1) as [(order & l & m & H)|[e H]];
      rewrite H; cbn [bind fst snd].
    + destruct (bfs_return_sorted g t0 t1 order l m Hwf H) as (Hnd & _ & Hp).
      destruct (validate_sorted g order Hnd Hp) as [msg Hv].
      destruct (bfs_metrics_timed g t0 t1 order l m Hne H) as [x Hx].
      assert (Hac : acyclic g) by now apply sorted_acyclic with (order := order).
      eexists. split; [eapply run_algorithm_return; eauto|].
      split; [simpl; tauto|]. split; [intros Hn; contradiction|].
      intros Hg. congruence.
    + rewrite run_algorithm_raise. eexists. split; [reflexivity|].
      assert (Hn : ~ acyclic g).
      { intros Hac. destruct (bfs_sorts g t0 t1 Hwf Hac) as (o & l & m & H' & _).
        rewrite H' in H. discriminate. }
      split; [simpl; split; [discriminate|tauto]|].
      split; [|intros Hg; congruence].
      intros _. apply bfs_error_fixed in H. now subst e.
Qed.

(** X13. [run_all_algorithms] never raises (its prints taken to
    succeed): it returns a dict with one entry for each of Kahn, DFS and
    BFS, in that order.  The Kahn entry is valid exactly when the graph is
    acyclic, the BFS entry exactly when the graph is acyclic and not empty.
    The DFS entry is valid only when the graph is acyclic; on an acyclic
    graph it is valid or it is the error entry of [RecursionError], and
    the latter only when the recursion limit leaves the calls of [dfs] no
    more frames than the graph has nodes.  On a graph with a cycle the
    three entries are error entries: the sorters' cycle errors, or
    [RecursionError] for DFS.  On the empty graph the BFS entry is an
    error entry holding [KeyError('execution_time_ms')], because its
    metrics record is empty. *)
Theorem run_all_algorithms_entries (limit : nat) (c : clock_readings)
  (g : graph) :
  dict_wf g ->
  exists kahn_entry dfs_entry bfs_entry,
    run_all_algorithms limit c g
    = Return [("Kahn", kahn_entry); ("DFS", dfs_entry); ("BFS", bfs_entry)] /\
    (entry_valid kahn_entry = true <-> acyclic g) /\
    (entry_valid dfs_entry = true -> acyclic g) /\
    (acyclic g ->
     entry_valid dfs_entry = true \/ dfs_entry = Errored RecursionError) /\
    (dfs_entry = Errored RecursionError -> (limit <= node_count g)%nat) /\
    (entry_valid bfs_entry = true <-> acyclic g /\ g <> []) /\
    (~ acyclic g ->
     (exists reported, kahn_entry = Errored (kahn_cycle_error reported)) /\
     ((exists n,
          dfs_entry = Errored (ValueError [Lit "Cycle detected involving node: ";
                                           Lit n]) /\
          on_cycle g n)
      \/ dfs_entry = Errored RecursionError) /\
     bfs_entry = Errored bfs_cycle_error) /\
    (g = [] -> bfs_entry = Errored (KeyError "execution_time_ms")).
Proof.
  intros Hwf. unfold run_all_algorithms.
  destruct (run_kahn_entry g (kahn_start c) (kahn_end c) [] Hwf)
    as (ek & -> & Hk1 & Hk2). cbn [bind].
  destruct (run_dfs_entry limit g (dfs_start c) (dfs_end c)
              (dict_set [] "Kahn" ek) Hwf) as (ed & -> & Hd). cbn [bind].
  destruct (run_bfs_entry g (bfs_start c) (bfs_end c)
              (dict_set (dict_set [] "Kahn" ek) "DFS" ed) Hwf)
    as (eb & -> & Hb1 & Hb2 & Hb3).
  exists ek, ed, eb. split; [reflexivity|]. split; [exact Hk1|].
  split; [|split; [|split; [|split; [exact Hb1|split; [|exact Hb3]]]]].
  - intros Hv. destruct Hd as [[_ Hac]|[(n & -> & _)|[-> _]]];
      [exact Hac|discriminate|discriminate].
  - intros Hac. destruct Hd as [[Hv _]|[(n & _ & Hc)|[-> _]]].
    + now left.
    + destruct (Hac n Hc).
    + now right.
  - intros He. destruct Hd as [[Hv _]|[(n & -> & _)|[_ Hle]]].
    + subst ed. discriminate.
    + discriminate.
    + exact Hle.
  - intros Hn. split; [now apply Hk2|]. split; [|now apply Hb2].
    destruct Hd as [[_ Hac]|[(n & -> & Hc)|[-> _]]].
    + contradiction.
    + left. exists n. auto.
    + now right.
Qed.

Lemma run_all_algorithms_entries_witness :
  dict_wf cycle3 /\
  exists kahn_entry dfs_entry bfs_entry,
    run_all_algorithms 1000 (mk_clock 0 1 2 3 4 5) cycle3
    = Return [("Kahn", kahn_entry); ("DFS", dfs_entry); ("BFS", bfs_entry)] /\
    (entry_valid kahn_entry = true <-> acyclic cycle3) /\
    (entry_valid dfs_entry = true -> acyclic cycle3) /\
    (entry_valid bfs_entry = true <-> acyclic cycle3 /\ cycle3 <> []).
Proof.
  assert (Hwf : dict_wf cycle3).
  { unfold dict_wf. simpl. repeat constructor; simpl; intuition discriminate. }
  split; [exact Hwf|].
  destruct (run_all_algorithms_entries 1000 (mk_clock 0 1 2 3 4 5) cycle3 Hwf)
    as (ek & ed & eb & H & Hk & Hd & _ & _ & Hb & _).
  exists ek, ed, eb. split; [exact H|]. split; [exact Hk|].
  split; [exact Hd|exact Hb].
Defined.

(* ================================================================= *)
(** * The DFS sorter and the recursion limit *)

(** X14. How the DFS sorter depends on the recursion limit.  Unless it
    runs out of frames, it does the same with any number of frames more.
    It runs out of frames, raising [RecursionError], when the first key of
    the graph starts a path of distinct nodes, each the first successor of
    the one before, that has more nodes than there are frames; and when it
    runs out of frames, the limit leaves no more frames than the graph has
    nodes. *)
Theorem dfs_recursion_limit (g : graph) (limit : nat) (t0 t1 : float) :
  (forall extra,
      topological_sort_dfs limit t0 t1 g <> Raise RecursionError ->
      topological_sort_dfs (limit + extra) t0 t1 g
      = topological_sort_dfs limit t0 t1 g)
  /\
  (forall node rest others,
      dict_keys g = node :: others ->
      (limit <= length rest)%nat ->
      descends g (node :: rest) = true ->
      distinct (node :: rest) = true ->
      topological_sort_dfs limit t0 t1 g = Raise RecursionError)
  /\
  (dict_wf g ->
   topological_sort_dfs limit t0 t1 g = Raise RecursionError ->
   (limit <= node_count g)%nat).
Proof.
  split; [|split].
  - intros extra. apply dfs_sort_more_frames.
  - intros node rest others. apply dfs_sort_overflow.
  - intros Hwf H.
    destruct (dfs_error_on_cycle limit g t0 t1 _ Hwf H)
      as [(n & He & _)|[_ Hle]]; [discriminate|exact Hle].
Qed.

Lemma dfs_recursion_limit_witness :
  topological_sort_dfs 2 0 1 (chain 3) = Raise RecursionError /\
  topological_sort_dfs (3 + 997) 0 1 (chain 3)
  = topological_sort_dfs 3 0 1 (chain 3).
Proof.
  split.
  - apply (proj1 (proj2 (dfs_recursion_limit (chain 3) 2 0 1)))
      with (node := "n0"%string) (rest := ["n1"; "n2"]%string)
           (others := ["n1"; "n2"]%string).
    + reflexivity.
    + simpl. lia.
    + reflexivity.
    + reflexivity.
  - apply (proj1 (dfs_recursion_limit (chain 3) 3 0 1)). discriminate.
Defined.
